(** * AC_Cells: the cells of the autocatalysis model

    A shallow embedding of [src/AC_Cells.py] (class [Cell]) together with
    the properties of its rule bookkeeping, token inventory and
    receive protocol.

    Python objects that are shared by reference (the cells themselves, the
    cell net, the product-rule net, the urn and the random number
    generator) live in one store, the [World]; a cell is referred to by its
    key in that store.  Methods are computations in a state-and-exception
    monad over the world. *)

From Stdlib Require Import ZArith QArith.
From stdpp Require Import gmap strings list fin_maps.

Local Open Scope Z_scope.

(** ** Python values used by the module *)

(** Exceptions the modelled code can raise. *)
Inductive exn : Type :=
  | KeyError
  | ValueError
  | TypeError
  | NameError
  | AttributeError.

(** References to cells: keys of the world's cell store. *)
Abbreviation CellRef := nat (only parsing).

(** Modelled from the spec: class [Product] of AC_Products is not part of
    the sources at hand.  A token has a current type and an identity. *)
Record Product : Type := mkProduct {
  p_type : Z;
  p_ident : nat
}.

Definition get_type (p : Product) : Z := p_type p.

(** Modelled from the spec: class [ProductRule] of AC_ProductRules is not
    part of the sources at hand.  A rule is an immutable (input, output)
    capability with an identity; two rule objects are the same object
    exactly when all three components agree.  [get_name] identifies the
    (input, output) pair. *)
Record ProductRule : Type := mkProductRule {
  rule_input : Z;
  rule_output : Z;
  rule_ident : nat
}.

Definition get_input (r : ProductRule) : Z := rule_input r.
Definition get_output (r : ProductRule) : Z := rule_output r.
Definition get_name (r : ProductRule) : Z * Z := (rule_input r, rule_output r).

(** Modelled from the spec: class [ProductNetRule] of AC_ProductRules is
    not part of the sources at hand.  The per-type aggregate of one cell:
    the pair, the owning cell and the number of instances. *)
Record ProductNetRule : Type := mkProductNetRule {
  nr_input : Z;
  nr_output : Z;
  nr_count : Z;
  nr_owner : option CellRef
}.

Definition add_to_count (n : ProductNetRule) : ProductNetRule :=
  mkProductNetRule (nr_input n) (nr_output n) (nr_count n + 1) (nr_owner n).

Definition subtract_from_count (n : ProductNetRule) : ProductNetRule :=
  mkProductNetRule (nr_input n) (nr_output n) (nr_count n - 1) (nr_owner n).

Definition set_owner (o : CellRef) (n : ProductNetRule) : ProductNetRule :=
  mkProductNetRule (nr_input n) (nr_output n) (nr_count n) (Some o).

(** What can be passed where a rule is expected: [isinstance] tells a
    [ProductRule] from anything else. *)
Inductive PyObject : Type :=
  | ObjProductRule (r : ProductRule)
  | ObjOther.

#[global] Instance Product_eq_dec : EqDecision Product.
Proof. solve_decision. Defined.
#[global] Instance ProductRule_eq_dec : EqDecision ProductRule.
Proof. solve_decision. Defined.
#[global] Instance ProductNetRule_eq_dec : EqDecision ProductNetRule.
Proof. solve_decision. Defined.

(** ** The cell and the world *)

(** The cell net is one shared object; a cell either has its handle or
    still holds [None] (before [add_cellNet]). *)
Inductive CellNetRef : Type := TheCellNet.

Record Cell : Type := mkCell {
  isAlive : bool;
  location : Z * Z;
  neighbors : list CellRef;
  product_rules : gmap Z (gmap Z (list ProductRule));
  product_netrules : gmap (Z * Z) ProductNetRule;
  products : gmap Z (list Product);
  count_rules : Z;
  active_rule : option ProductRule;
  id : nat;
  repro_type : string;
  intel : bool;
  topology : string;
  cellNet : option CellNetRef
}.

Definition set_product_rules (v : gmap Z (gmap Z (list ProductRule))) (c : Cell) : Cell :=
  mkCell (isAlive c) (location c) (neighbors c) v (product_netrules c)
         (products c) (count_rules c) (active_rule c) (id c) (repro_type c)
         (intel c) (topology c) (cellNet c).

Definition set_product_netrules (v : gmap (Z * Z) ProductNetRule) (c : Cell) : Cell :=
  mkCell (isAlive c) (location c) (neighbors c) (product_rules c) v
         (products c) (count_rules c) (active_rule c) (id c) (repro_type c)
         (intel c) (topology c) (cellNet c).

Definition set_products (v : gmap Z (list Product)) (c : Cell) : Cell :=
  mkCell (isAlive c) (location c) (neighbors c) (product_rules c)
         (product_netrules c) v (count_rules c) (active_rule c) (id c)
         (repro_type c) (intel c) (topology c) (cellNet c).

Definition set_count_rules (v : Z) (c : Cell) : Cell :=
  mkCell (isAlive c) (location c) (neighbors c) (product_rules c)
         (product_netrules c) (products c) v (active_rule c) (id c)
         (repro_type c) (intel c) (topology c) (cellNet c).

Definition set_active (v : option ProductRule) (c : Cell) : Cell :=
  mkCell (isAlive c) (location c) (neighbors c) (product_rules c)
         (product_netrules c) (products c) (count_rules c) v (id c)
         (repro_type c) (intel c) (topology c) (cellNet c).

Definition set_neighbors (v : list CellRef) (c : Cell) : Cell :=
  mkCell (isAlive c) (location c) v (product_rules c)
         (product_netrules c) (products c) (count_rules c) (active_rule c)
         (id c) (repro_type c) (intel c) (topology c) (cellNet c).

Definition set_cellNet (v : option CellNetRef) (c : Cell) : Cell :=
  mkCell (isAlive c) (location c) (neighbors c) (product_rules c)
         (product_netrules c) (products c) (count_rules c) (active_rule c)
         (id c) (repro_type c) (intel c) (topology c) v.

(** [Cell.__init__]: a fresh cell. *)
Definition new_Cell (ident : nat) (selective_intelligence : bool)
    (reproduction_type topo : string) : Cell :=
  mkCell true (-1, -1) [] ∅ ∅ ∅ 0 None ident reproduction_type
         selective_intelligence topo None.

(** Modelled from the spec: the product-rule net (the global registry,
    class of AC_ProductRules) is not part of the sources at hand.  The cell
    only talks to it through two calls; the registry is represented by the
    calls it has received, in the order they were made. *)
Inductive RegistryCall : Type :=
  | Reg_add_ProductNetRule (n : ProductNetRule)
  | Reg_remove_ProductNetRule (n : option ProductNetRule) (step : Z).

(** Modelled from the spec: the random number generator is handed to the
    cell from outside (one seedable source for the whole run).  It is an
    endless sequence of raw draws and the position of the next one. *)
Record RNGState : Type := mkRNG {
  rng_draws : nat → nat;
  rng_pos : nat
}.

Record World : Type := mkWorld {
  cells : gmap nat Cell;
  master_count : Z;
  last_added_rule : Z;
  productRule_Net : list RegistryCall;
  urn : list Product;
  RNG : RNGState;
  next_ident : nat
}.

Definition set_cells (v : gmap nat Cell) (w : World) : World :=
  mkWorld v (master_count w) (last_added_rule w) (productRule_Net w) (urn w) (RNG w) (next_ident w).
Definition set_master_count (v : Z) (w : World) : World :=
  mkWorld (cells w) v (last_added_rule w) (productRule_Net w) (urn w) (RNG w) (next_ident w).
Definition set_last_added_rule (v : Z) (w : World) : World :=
  mkWorld (cells w) (master_count w) v (productRule_Net w) (urn w) (RNG w) (next_ident w).
Definition set_productRule_Net (v : list RegistryCall) (w : World) : World :=
  mkWorld (cells w) (master_count w) (last_added_rule w) v (urn w) (RNG w) (next_ident w).
Definition set_urn (v : list Product) (w : World) : World :=
  mkWorld (cells w) (master_count w) (last_added_rule w) (productRule_Net w) v (RNG w) (next_ident w).
Definition set_RNG (v : RNGState) (w : World) : World :=
  mkWorld (cells w) (master_count w) (last_added_rule w) (productRule_Net w) (urn w) v (next_ident w).
Definition set_next_ident (v : nat) (w : World) : World :=
  mkWorld (cells w) (master_count w) (last_added_rule w) (productRule_Net w) (urn w) (RNG w) v.

(** ** The state-and-exception monad *)

Inductive Result (A : Type) : Type :=
  | Ok (a : A)
  | Raise (e : exn).
Arguments Ok {A} a.
Arguments Raise {A} e.

Definition M (A : Type) : Type := World → Result (A * World).

Definition ret {A} (a : A) : M A := λ w, Ok (a, w).
Definition raise {A} (e : exn) : M A := λ _, Raise e.
Definition bind {A B} (m : M A) (f : A → M B) : M B :=
  λ w, match m w with
       | Ok (a, w') => f a w'
       | Raise e => Raise e
       end.

Declare Scope py_scope.
Delimit Scope py_scope with py.
Notation "x <- m ;; k" := (bind m (λ x, k))
  (at level 100, m at next level, right associativity) : py_scope.
Notation "m ;; k" := (bind m (λ _, k))
  (at level 100, right associativity) : py_scope.
Local Open Scope py_scope.

Definition get_world : M World := λ w, Ok (w, w).
Definition modify_world (f : World → World) : M unit := λ w, Ok (tt, f w).

(** Reading and writing the object behind a cell reference.  A reference
    that is not in the store has no Python counterpart; it is reported as
    an [AttributeError]. *)
Definition get_cell (self : CellRef) : M Cell :=
  λ w, match cells w !! self with
       | Some c => Ok (c, w)
       | None => Raise AttributeError
       end.

Definition put_cell (self : CellRef) (c : Cell) : M unit :=
  modify_world (λ w, set_cells (<[self := c]> (cells w)) w).

(** [try: body except: handler] with a bare [except].  Every [try] body of
    the module raises, if at all, before it has written anything, so the
    handler starts from the world in which the [try] was entered. *)
Definition try_except {A} (body handler : M A) : M A :=
  λ w, match body w with
       | Ok r => Ok r
       | Raise _ => handler w
       end.

(** [d[k]] on a dictionary: [KeyError] when the key is absent. *)
Definition getitem `{Countable K} {V} (d : gmap K V) (k : K) : M V :=
  match d !! k with
  | Some v => ret v
  | None => raise KeyError
  end.

(** [d.keys()]: the keys in the dictionary's iteration order.  The order
    of a [gmap] is a fixed order of its own, as arbitrary as the order of a
    Python dictionary; nothing below depends on which order it is. *)
Definition keys `{Countable K} {V} (d : gmap K V) : list K := (map_to_list d).*1.

(** [self.cellNet.attr]: [AttributeError] while the handle is [None]. *)
Definition get_cellNet (self : CellRef) : M CellNetRef :=
  c <- get_cell self ;;
  match cellNet c with
  | Some net => ret net
  | None => raise AttributeError
  end.

(** [RNG.sample(population, 1)[0]]: [ValueError] on an empty population,
    before anything is drawn; otherwise the element at the drawn index
    (the raw draw reduced to the range of indices), every index being
    equally likely. *)
Definition sample1 {A} (population : list A) : M A :=
  λ w, match population with
       | [] => Raise ValueError
       | x :: _ =>
           let g := RNG w in
           let j := (rng_draws g (rng_pos g) `mod` length population)%nat in
           Ok (nth j population x, set_RNG (mkRNG (rng_draws g) (S (rng_pos g))) w)
       end.

(** ** Location and wiring *)

Definition set_location (v : Z * Z) (c : Cell) : Cell :=
  mkCell (isAlive c) v (neighbors c) (product_rules c)
         (product_netrules c) (products c) (count_rules c) (active_rule c)
         (id c) (repro_type c) (intel c) (topology c) (cellNet c).

(** [Cell.set_location], written [set_location_xy] next to the field
    update of the same name. *)
Definition set_location_xy (self : CellRef) (x y : Z) : M unit :=
  c <- get_cell self ;;
  put_cell self (set_location (x, y) c).

Definition get_location (self : CellRef) : M (Z * Z) :=
  c <- get_cell self ;;
  ret (location c).

Definition add_cellNet (self : CellRef) (net : CellNetRef) : M unit :=
  c <- get_cell self ;;
  put_cell self (set_cellNet (Some net) c).

(** ** Token inventory *)

(** [add_Product]: push the product on the stack of its type; the
    [except] branch runs when the type has no key yet. *)
Definition add_Product (self : CellRef) (product : Product) : M unit :=
  try_except
    (c <- get_cell self ;;
     stack <- getitem (products c) (get_type product) ;;
     put_cell self (set_products (<[get_type product := stack ++ [product]]> (products c)) c))
    (c <- get_cell self ;;
     put_cell self (set_products (<[get_type product := [product]]> (products c)) c)).

(** [list.pop()] on a non-empty list: the last element and the rest. *)
Definition list_pop {A} (l : list A) : option (A * list A) :=
  match last l with
  | Some x => Some (x, removelast l)
  | None => None
  end.

(** [remove_Product]: pop a product of the requested type, if any. *)
Definition remove_Product (self : CellRef) (type : Z) : M (option Product) :=
  c <- get_cell self ;;
  match products c !! type with
  | Some stack =>
      match list_pop stack with
      | Some (p, rest) =>
          put_cell self (set_products (<[type := rest]> (products c)) c) ;;
          ret (Some p)
      | None => ret None
      end
  | None => ret None
  end.

(** The loop of [has_Product] over the stored types: stacks of types that
    still have a rule are collected, the stack of any other type is reset
    to the empty list (the key stays). *)
Fixpoint has_Product_loop (rules : gmap Z (gmap Z (list ProductRule)))
    (contents : list Z) (has : list Product) (prods : gmap Z (list Product))
    : list Product * gmap Z (list Product) :=
  match contents with
  | [] => (has, prods)
  | content :: rest =>
      if bool_decide (is_Some (rules !! content))
      then has_Product_loop rules rest (has ++ default [] (prods !! content)) prods
      else has_Product_loop rules rest has (<[content := []]> prods)
  end.

(** [has_Product]: the type of a stored product that a rule can still
    use, or [None]. *)
Definition has_Product (self : CellRef) : M (option Z) :=
  c <- get_cell self ;;
  let '(has, prods) :=
    has_Product_loop (product_rules c) (keys (products c)) [] (products c) in
  put_cell self (set_products prods c) ;;
  try_except
    (p <- sample1 has ;; ret (Some (get_type p)))
    (ret None).

(** [has_rule]: the argument is an integer type or a product. *)
Definition has_rule (self : CellRef) (product : Z + Product) : M bool :=
  c <- get_cell self ;;
  match product with
  | inl t => ret (bool_decide (is_Some (product_rules c !! t)))
  | inr p => ret (bool_decide (is_Some (product_rules c !! get_type p)))
  end.

(** ** Rule bookkeeping *)

(** A call to the product-rule net. *)
Definition registry_call (call : RegistryCall) : M unit :=
  modify_world (λ w, set_productRule_Net (productRule_Net w ++ [call]) w).

(** [add_ProductNetRule]: count one more instance on the aggregate of the
    rule's type, creating and registering the aggregate when the cell has
    none. *)
Definition add_ProductNetRule (self : CellRef) (a_ProductRule : PyObject) : M unit :=
  match a_ProductRule with
  | ObjProductRule r =>
      try_except
        (c <- get_cell self ;;
         n <- getitem (product_netrules c) (get_name r) ;;
         put_cell self
           (set_product_netrules (<[get_name r := add_to_count n]> (product_netrules c)) c))
        (let new :=
           set_owner self (mkProductNetRule (get_input r) (get_output r) 1 None) in
         c <- get_cell self ;;
         put_cell self
           (set_product_netrules (<[get_name r := new]> (product_netrules c)) c) ;;
         registry_call (Reg_add_ProductNetRule new))
  | ObjOther => raise TypeError
  end.

(** [add_ProductRule]: append the rule to its (input, output) bucket,
    creating the levels that are missing, count it on the aggregate and on
    the cell. *)
Definition add_ProductRule (self : CellRef) (aProductRule : PyObject) : M unit :=
  match aProductRule with
  | ObjProductRule r =>
      let input := get_input r in
      let output := get_output r in
      try_except
        (c <- get_cell self ;;
         inner <- getitem (product_rules c) input ;;
         bucket <- getitem inner output ;;
         put_cell self
           (set_product_rules
              (<[input := <[output := bucket ++ [r]]> inner]> (product_rules c)) c))
        (try_except
           (c <- get_cell self ;;
            inner <- getitem (product_rules c) input ;;
            put_cell self
              (set_product_rules
                 (<[input := <[output := [r]]> inner]> (product_rules c)) c))
           (c <- get_cell self ;;
            put_cell self
              (set_product_rules
                 (<[input := <[output := [r]]> ∅]> (product_rules c)) c))) ;;
      try_except
        (c <- get_cell self ;;
         n <- getitem (product_netrules c) (get_name r) ;;
         put_cell self
           (set_product_netrules (<[get_name r := add_to_count n]> (product_netrules c)) c))
        (add_ProductNetRule self aProductRule) ;;
      c <- get_cell self ;;
      put_cell self (set_count_rules (count_rules c + 1) c)
  | ObjOther => raise TypeError
  end.

(** [list.remove(x)]: the list without the first element equal to [x];
    nothing when there is none (Python raises [ValueError]). *)
Fixpoint list_remove (x : ProductRule) (l : list ProductRule) : option (list ProductRule) :=
  match l with
  | [] => None
  | y :: l' =>
      if decide (y = x) then Some l'
      else match list_remove x l' with
           | Some k => Some (y :: k)
           | None => None
           end
  end.

(** [remove_ProductRule]: take the instance out of its bucket, count it
    off the aggregate and the cell; when the bucket is left empty, drop
    the aggregate, tell the product-rule net, and drop the emptied levels
    of the index. *)
Definition remove_ProductRule (self : CellRef) (a_ProductRule : ProductRule) : M unit :=
  let input := get_input a_ProductRule in
  let output := get_output a_ProductRule in
  c <- get_cell self ;;
  inner <- getitem (product_rules c) input ;;
  bucket <- getitem inner output ;;
  match list_remove a_ProductRule bucket with
  | None => raise ValueError
  | Some bucket' =>
      put_cell self
        (set_product_rules (<[input := <[output := bucket']> inner]> (product_rules c)) c)
  end ;;
  c <- get_cell self ;;
  n <- getitem (product_netrules c) (get_name a_ProductRule) ;;
  put_cell self
    (set_product_netrules
       (<[get_name a_ProductRule := subtract_from_count n]> (product_netrules c)) c) ;;
  c <- get_cell self ;;
  put_cell self (set_count_rules (count_rules c - 1) c) ;;
  c <- get_cell self ;;
  inner <- getitem (product_rules c) input ;;
  bucket <- getitem inner output ;;
  if bool_decide (bucket = [])
  then
    let rule := product_netrules c !! get_name a_ProductRule in
    put_cell self
      (set_product_netrules (delete (get_name a_ProductRule) (product_netrules c)) c) ;;
    get_cellNet self ;;
    w <- get_world ;;
    registry_call (Reg_remove_ProductNetRule rule (master_count w)) ;;
    c <- get_cell self ;;
    inner <- getitem (product_rules c) input ;;
    getitem inner output ;;
    put_cell self
      (set_product_rules (<[input := delete output inner]> (product_rules c)) c) ;;
    c <- get_cell self ;;
    inner <- getitem (product_rules c) input ;;
    if bool_decide (inner = ∅)
    then put_cell self (set_product_rules (delete input (product_rules c)) c)
    else ret tt
  else ret tt.

(** [set_active_rule].  The name [InstanceError] is bound nowhere, so
    evaluating the [raise] statement of the [else] branch raises
    [NameError]. *)
Definition set_active_rule (self : CellRef) (rule : ProductRule) : M unit :=
  c <- get_cell self ;;
  inner <- getitem (product_rules c) (get_input rule) ;;
  bucket <- getitem inner (get_output rule) ;;
  if bool_decide (rule ∈ bucket)
  then put_cell self (set_active (Some rule) c)
  else raise NameError.

(** The constructor [ProductRule(input, output)]: a new object. *)
Definition new_ProductRule (input output : Z) : M ProductRule :=
  λ w, Ok (mkProductRule input output (next_ident w),
           set_next_ident (S (next_ident w)) w).

(** ** Random selection *)

(** The candidates of [get_random_rule]: every instance of every bucket. *)
Definition rule_candidates (rules : gmap Z (gmap Z (list ProductRule))) : list ProductRule :=
  flat_map (λ input,
      match rules !! input with
      | Some inner => flat_map (λ output, default [] (inner !! output)) (keys inner)
      | None => []
      end)
    (keys rules).

Definition get_random_rule (self : CellRef) : M ProductRule :=
  c <- get_cell self ;;
  sample1 (rule_candidates (product_rules c)).

Definition get_random_rule_of_type (self : CellRef) (type : Z) : M ProductRule :=
  c <- get_cell self ;;
  inner <- getitem (product_rules c) type ;;
  sample1 (flat_map (λ output, default [] (inner !! output)) (keys inner)).

(** [list.remove] on the copy of the neighbour list. *)
Fixpoint remove_first (x : CellRef) (l : list CellRef) : option (list CellRef) :=
  match l with
  | [] => None
  | y :: l' =>
      if decide (y = x) then Some l'
      else match remove_first x l' with
           | Some k => Some (y :: k)
           | None => None
           end
  end.

Definition add_neighbor (self : CellRef) (neighbor : CellRef) : M unit :=
  c <- get_cell self ;;
  put_cell self (set_neighbors (neighbors c ++ [neighbor]) c).

Definition get_random_neighbor (self : CellRef) (who : option CellRef) : M CellRef :=
  c <- get_cell self ;;
  match who with
  | None => sample1 (neighbors c)
  | Some who' =>
      if bool_decide (who' ∈ neighbors c)
      then
        let copy_neighbors := neighbors c in
        match remove_first who' copy_neighbors with
        | Some copy_neighbors' => sample1 copy_neighbors'
        | None => sample1 copy_neighbors
        end
      else raise TypeError
  end.

(** ** Reproduction and the receive phase *)

(** Every rule instance of the network with the cell that owns it. *)
Definition network_rules (w : World) : list (CellRef * ProductRule) :=
  flat_map (λ owner,
      match cells w !! owner with
      | Some c => map (pair owner) (rule_candidates (product_rules c))
      | None => []
      end)
    (keys (cells w)).

(** Modelled from the spec: [remove_random_rule] of the cell net
    (AC_CellNet) is not part of the sources at hand.  The extinction draw
    removes one rule instance chosen uniformly at random from the entire
    network, on whichever cell holds it (the reproducing cell included),
    and routes the removal through the owner's own [remove_ProductRule]. *)
Definition remove_random_rule : M unit :=
  w <- get_world ;;
  victim <- sample1 (network_rules w) ;;
  remove_ProductRule victim.1 victim.2.

(** [reproduce_active_rule]: copy the active rule onto the cell, note the
    step on the cell net, and have the cell net remove a rule. *)
Definition reproduce_active_rule (self : CellRef) : M unit :=
  c <- get_cell self ;;
  match active_rule c with
  | None => raise AttributeError
  | Some r =>
      new <- new_ProductRule (get_input r) (get_output r) ;;
      add_ProductRule self (ObjProductRule new) ;;
      get_cellNet self ;;
      modify_world (λ w, set_last_added_rule (master_count w) w) ;;
      remove_random_rule
  end.

(** Modelled from the spec: the urn (the external pool of products) is
    not part of the sources at hand.  [urn.return_product] hands a product
    back; the urn is represented by the products it was handed, in order. *)
Definition return_product (product : Product) : M unit :=
  modify_world (λ w, set_urn (urn w ++ [product]) w).

(** [receive_product].  The [print] statements (progress and [debug]
    output) write to the console only and are left out. *)
Definition receive_product (self sender : CellRef) (product : Product)
    (prohibited_return_output : Z) (who : CellRef) (debug : bool) : M unit :=
  get_cellNet self ;;
  modify_world (λ w, set_master_count (master_count w + 1) w) ;;
  let start := get_type product in
  b <- has_rule self (inl start) ;;
  if b : bool
  then
    c <- get_cell self ;;
    (if bool_decide (repro_type c = "target")
     then
       r <- get_random_rule_of_type self start ;;
       c <- get_cell self ;;
       put_cell self (set_active (Some r) c) ;;
       reproduce_active_rule self ;;
       c <- get_cell self ;;
       put_cell self (set_active None c)
     else if bool_decide (repro_type c = "source")
     then
       reproduce_active_rule sender ;;
       s <- get_cell sender ;;
       put_cell sender (set_active None s)
     else ret tt) ;;
    add_Product self product
  else
    return_product product.

(** ** Sums over dictionaries *)

(** The sum of [f] over the values of a dictionary. *)
Definition map_sum `{Countable K} {V} (f : V → Z) (d : gmap K V) : Z :=
  foldr (λ kv acc, f kv.2 + acc) 0 (map_to_list d).

(** Sum of the lengths of all buckets of a rule index. *)
Definition bucket_total (rules : gmap Z (gmap Z (list ProductRule))) : Z :=
  map_sum (map_sum (λ bucket : list ProductRule, Z.of_nat (length bucket))) rules.

(** Sum of the counts of all aggregates. *)
Definition netrule_total (netrules : gmap (Z * Z) ProductNetRule) : Z :=
  map_sum nr_count netrules.

(** Number of instances in the bucket of a pair, 0 when there is none. *)
Definition bucket_len (rules : gmap Z (gmap Z (list ProductRule))) (i o : Z) : Z :=
  match rules !! i with
  | Some inner =>
      match inner !! o with
      | Some bucket => Z.of_nat (length bucket)
      | None => 0
      end
  | None => 0
  end.

(** The bucket of a pair, empty when there is none. *)
Definition bucket_of (rules : gmap Z (gmap Z (list ProductRule))) (i o : Z) : list ProductRule :=
  match rules !! i with
  | Some inner => default [] (inner !! o)
  | None => []
  end.

(** Total number of rule instances held by the cells of the network. *)
Definition total_rule_count (w : World) : Z :=
  map_sum (λ c, bucket_total (product_rules c)) (cells w).


(** ** Sampling outcomes *)

(** The index the generator draws next for a population of [n] elements,
    and the world after the draw. *)
Definition next_index (w : World) (n : nat) : nat :=
  (rng_draws (RNG w) (rng_pos (RNG w)) `mod` n)%nat.

Definition advance_RNG (w : World) : World :=
  set_RNG (mkRNG (rng_draws (RNG w)) (S (rng_pos (RNG w)))) w.

(** The world [w] with a generator whose next raw draw is [j]. *)
Definition with_next_draw (j : nat) (w : World) : World :=
  set_RNG (mkRNG (λ _, j) 0) w.

(** The results of a computation for each of the [n] equally likely
    indices [0 .. n-1] the generator can draw next. *)
Definition outcomes {A} (m : M A) (w : World) (n : nat) : list (option A) :=
  map (λ j, match m (with_next_draw j w) with
            | Ok (a, _) => Some a
            | Raise _ => None
            end) (seq 0 n).


(** ** The outcome of the bookkeeping methods

    What [add_ProductRule] and [remove_ProductRule] leave in the cell,
    written as functions on the dictionaries; the lemmas
    [add_ProductRule_ok] and [remove_ProductRule_ok] show that the methods
    compute exactly these. *)

Definition rules_add (r : ProductRule) (rules : gmap Z (gmap Z (list ProductRule)))
    : gmap Z (gmap Z (list ProductRule)) :=
  <[get_input r :=
      <[get_output r := bucket_of rules (get_input r) (get_output r) ++ [r]]>
        (default ∅ (rules !! get_input r))]> rules.

Definition new_netrule (self : CellRef) (r : ProductRule) : ProductNetRule :=
  mkProductNetRule (get_input r) (get_output r) 1 (Some self).

Definition netrules_add (self : CellRef) (r : ProductRule)
    (netrules : gmap (Z * Z) ProductNetRule) : gmap (Z * Z) ProductNetRule :=
  match netrules !! get_name r with
  | Some n => <[get_name r := add_to_count n]> netrules
  | None => <[get_name r := new_netrule self r]> netrules
  end.

Definition cell_add (self : CellRef) (r : ProductRule) (c : Cell) : Cell :=
  set_count_rules (count_rules c + 1)
    (set_product_netrules (netrules_add self r (product_netrules c))
       (set_product_rules (rules_add r (product_rules c)) c)).

Definition registry_after_add (self : CellRef) (r : ProductRule) (c : Cell)
    (log : list RegistryCall) : list RegistryCall :=
  match product_netrules c !! get_name r with
  | Some _ => log
  | None => log ++ [Reg_add_ProductNetRule (new_netrule self r)]
  end.


Definition rules_remove (r : ProductRule) (bucket' : list ProductRule)
    (rules : gmap Z (gmap Z (list ProductRule))) : gmap Z (gmap Z (list ProductRule)) :=
  match rules !! get_input r with
  | Some inner =>
      if bool_decide (bucket' = [])
      then if bool_decide (delete (get_output r) inner = ∅)
           then delete (get_input r) rules
           else <[get_input r := delete (get_output r) inner]> rules
      else <[get_input r := <[get_output r := bucket']> inner]> rules
  | None => rules
  end.

Definition netrules_remove (r : ProductRule) (bucket' : list ProductRule)
    (netrules : gmap (Z * Z) ProductNetRule) : gmap (Z * Z) ProductNetRule :=
  match netrules !! get_name r with
  | Some n =>
      if bool_decide (bucket' = [])
      then delete (get_name r) netrules
      else <[get_name r := subtract_from_count n]> netrules
  | None => netrules
  end.

Definition cell_remove (r : ProductRule) (bucket' : list ProductRule) (c : Cell) : Cell :=
  set_count_rules (count_rules c - 1)
    (set_product_netrules (netrules_remove r bucket' (product_netrules c))
       (set_product_rules (rules_remove r bucket' (product_rules c)) c)).

Definition registry_after_remove (r : ProductRule) (bucket' : list ProductRule)
    (c : Cell) (step : Z) (log : list RegistryCall) : list RegistryCall :=
  if bool_decide (bucket' = [])
  then log ++ [Reg_remove_ProductNetRule
                 (subtract_from_count <$> product_netrules c !! get_name r) step]
  else log.


(** ** Invariants *)

(** The invariant of the claim. *)
Definition sum_invariant (c : Cell) : Prop :=
  count_rules c = bucket_total (product_rules c) ∧
  count_rules c = netrule_total (product_netrules c).

(** Every aggregate counts the instances of its bucket, every non-empty
    bucket has its aggregate, and the totals agree. *)
Definition cell_consistent (c : Cell) : Prop :=
  map_Forall (λ k n, nr_count n = bucket_len (product_rules c) k.1 k.2)
             (product_netrules c) ∧
  map_Forall (λ i inner,
      map_Forall (λ o (bucket : list ProductRule),
          bucket ≠ [] → is_Some (product_netrules c !! (i, o))) inner)
    (product_rules c) ∧
  sum_invariant c.

#[global] Instance cell_consistent_dec c : Decision (cell_consistent c).
Proof. unfold cell_consistent, sum_invariant. apply _. Defined.


#[global] Instance CellNetRef_eq_dec : EqDecision CellNetRef.
Proof. solve_decision. Defined.

(** Every instance sits in the bucket of its own (input, output) pair. *)
Definition index_keyed (rules : gmap Z (gmap Z (list ProductRule))) : Prop :=
  map_Forall (λ i inner,
      map_Forall (λ o (bucket : list ProductRule),
          Forall (λ r, get_name r = (i, o)) bucket) inner)
    rules.

(** The index holds no empty bucket and no empty inner dictionary. *)
Definition index_tight (rules : gmap Z (gmap Z (list ProductRule))) : Prop :=
  map_Forall (λ _ inner,
      inner ≠ ∅ ∧ map_Forall (λ _ (bucket : list ProductRule), bucket ≠ []) inner)
    rules.

(** A cell in working order: consistent bookkeeping, a keyed index without
    empty levels, and a handle on the cell net. *)
Definition cell_wf (c : Cell) : Prop :=
  cell_consistent c ∧ index_keyed (product_rules c) ∧
  index_tight (product_rules c) ∧ cellNet c = Some TheCellNet.

Definition world_wf (w : World) : Prop :=
  map_Forall (λ _ c, cell_wf c) (cells w).

#[global] Instance cell_wf_dec c : Decision (cell_wf c).
Proof. unfold cell_wf, index_keyed, index_tight. apply _. Defined.

#[global] Instance world_wf_dec w : Decision (world_wf w).
Proof. unfold world_wf. apply _. Defined.

(** The world after an instance was added to, or removed from, a cell. *)
Definition world_after_add (self : CellRef) (new : ProductRule) (c : Cell)
    (w : World) : World :=
  set_productRule_Net (registry_after_add self new c (productRule_Net w))
    (set_cells (<[self := cell_add self new c]> (cells w)) w).

Definition world_after_remove (owner : CellRef) (victim : ProductRule)
    (bucket' : list ProductRule) (co : Cell) (w : World) : World :=
  set_productRule_Net
    (registry_after_remove victim bucket' co (master_count w) (productRule_Net w))
    (set_cells (<[owner := cell_remove victim bucket' co]> (cells w)) w).

(** ** Selection probabilities *)

(** Number of elements of a list that satisfy a test. *)
Definition cnt {B} (p : B → bool) (l : list B) : nat := length (List.filter p l).

(** Number of results of a list of outcomes that satisfy an event. *)
Definition count_outcomes {A} (event : A → bool) (results : list (option A)) : nat :=
  length (List.filter (λ res, from_option event false res) results).

(** Probability of an event when the outcomes of the list are equally
    likely. *)
Definition probability {A} (event : A → bool) (results : list (option A)) : Q :=
  Z.of_nat (count_outcomes event results) # Pos.of_nat (length results).

(** The event "the selected rule is of the pair [t]". *)
Definition of_pair (t : Z * Z) (r : ProductRule) : bool :=
  bool_decide (get_name r = t).

(** ** The outcome of [has_Product] *)

(** The stored products a rule of the cell can still use, in the order
    [has_Product] collects them. *)
Definition stored_usable (c : Cell) : list Product :=
  flat_map (λ content,
      if bool_decide (is_Some (product_rules c !! content))
      then default [] (products c !! content)
      else [])
    (keys (products c)).

(** The inventory as [has_Product] leaves it. *)
Definition pruned_products (c : Cell) : gmap Z (list Product) :=
  (has_Product_loop (product_rules c) (keys (products c)) [] (products c)).2.

(** Every stored product sits on the stack of its own type. *)
Definition inventory_keyed (prods : gmap Z (list Product)) : Prop :=
  map_Forall (λ t (stack : list Product), Forall (λ p, get_type p = t) stack) prods.

#[global] Instance inventory_keyed_dec prods : Decision (inventory_keyed prods).
Proof. unfold inventory_keyed. apply _. Defined.

(** The event "the returned type is [t]". *)
Definition returns_type (t : Z) (res : option Z) : bool :=
  match res with
  | Some t' => bool_decide (t' = t)
  | None => false
  end.
(** ** Example networks *)

(** The world of the running examples: two cells wired to the cell net,
    no rules, no products. *)
Definition cell_a : Cell := set_cellNet (Some TheCellNet) (new_Cell 0 false "source" "spatial").
Definition cell_b : Cell := set_cellNet (Some TheCellNet) (new_Cell 1 false "source" "spatial").
Definition world0 : World :=
  mkWorld {[ 0%nat := cell_a; 1%nat := cell_b ]} 0 0 [] [] (mkRNG (λ n, n) 0) 0.

(** A populated network: cell 0 holds two instances of the rule 1 -> 2 and
    has one of them active, cell 1 holds one instance of the rule 2 -> 3;
    they are neighbours of each other. *)
Definition rule_12a : ProductRule := mkProductRule 1 2 100.
Definition rule_12b : ProductRule := mkProductRule 1 2 101.
Definition rule_23 : ProductRule := mkProductRule 2 3 102.

Definition cell_s : Cell :=
  mkCell true (0, 0) [1%nat]
         {[ 1 := {[ 2 := [rule_12a; rule_12b] ]} ]}
         {[ (1, 2) := mkProductNetRule 1 2 2 (Some 0%nat) ]}
         ∅ 2 (Some rule_12a) 0 "source" false "spatial" (Some TheCellNet).

Definition cell_t : Cell :=
  mkCell true (0, 1) [0%nat]
         {[ 2 := {[ 3 := [rule_23] ]} ]}
         {[ (2, 3) := mkProductNetRule 2 3 1 (Some 1%nat) ]}
         ∅ 1 None 1 "source" false "spatial" (Some TheCellNet).

Definition world1 : World :=
  mkWorld {[ 0%nat := cell_s; 1%nat := cell_t ]} 10 0 [] [] (mkRNG (λ n, n) 0) 200.


(** A cell with three instances of the rule 1 -> 2 (type A) and one
    instance of the rule 2 -> 3 (type B). *)
Definition cell_ab : Cell :=
  mkCell true (0, 0) []
         {[ 1 := {[ 2 := [rule_12a; rule_12b; mkProductRule 1 2 103] ]};
            2 := {[ 3 := [rule_23] ]} ]}
         {[ (1, 2) := mkProductNetRule 1 2 3 (Some 0%nat);
            (2, 3) := mkProductNetRule 2 3 1 (Some 0%nat) ]}
         ∅ 4 None 0 "target" false "spatial" (Some TheCellNet).

Definition world_ab : World :=
  mkWorld {[ 0%nat := cell_ab ]} 0 0 [] [] (mkRNG (λ n, n) 0) 200.

(** A cell that stores three products of type 1, one of type 2 and one of
    type 5, and has rules for the types 1 and 2 only. *)
Definition cell_inv : Cell :=
  mkCell true (0, 0) []
         {[ 1 := {[ 2 := [rule_12a] ]}; 2 := {[ 3 := [rule_23] ]} ]}
         {[ (1, 2) := mkProductNetRule 1 2 1 (Some 0%nat);
            (2, 3) := mkProductNetRule 2 3 1 (Some 0%nat) ]}
         {[ 1 := [mkProduct 1 10; mkProduct 1 11; mkProduct 1 12];
            2 := [mkProduct 2 13];
            5 := [mkProduct 5 14] ]}
         2 None 0 "source" false "spatial" (Some TheCellNet).

Definition world_inv : World :=
  mkWorld {[ 0%nat := cell_inv ]} 0 0 [] [] (mkRNG (λ n, n) 0) 200.

(** The populated network with a product of type 1 stored on cell 0. *)
Definition cell_sp : Cell :=
  set_products {[ 1 := [mkProduct 1 50] ]} cell_s.

Definition world2 : World :=
  mkWorld {[ 0%nat := cell_sp; 1%nat := cell_t ]} 10 0 [] [] (mkRNG (λ n, n) 0) 200.

(** ** The initiating phase *)

(** Modelled from the spec: [Product.apply_ProductRule] (AC_Products) is
    not part of the sources at hand.  Applying a rule to a product sets
    the product's type to the rule's output type. *)
Definition apply_ProductRule (rule : ProductRule) (product : Product) : Product :=
  mkProduct (get_output rule) (p_ident product).

(** [self.active_rule.m()]: [AttributeError] when the active rule is
    [None]. *)
Definition get_active_rule (self : CellRef) : M ProductRule :=
  c <- get_cell self ;;
  match active_rule c with
  | Some rule => ret rule
  | None => raise AttributeError
  end.

(** [chain_step].  The urn's [request_product] and the cell net's
    [get_random_cell] are outside the module and are parameters of the
    step.  Of the [print] statements only what can fail is kept: the
    message of a step without product reads the active rule's input. *)
Definition chain_step (request_product : Z → bool → M (option Product))
    (get_random_cell : CellRef → M CellRef) (self : CellRef) (debug : bool) : M unit :=
  get_cellNet self ;;
  modify_world (λ w, set_master_count (master_count w + 1) w) ;;
  rule <- get_active_rule self ;;
  product <- remove_Product self (get_input rule) ;;
  product <- match product with
             | None =>
                 rule <- get_active_rule self ;;
                 c <- get_cell self ;;
                 request_product (get_input rule) (intel c)
             | Some p => ret (Some p)
             end ;;
  match product with
  | Some p =>
      rule <- get_active_rule self ;;
      let p' := apply_ProductRule rule p in
      c <- get_cell self ;;
      random_neighbor <-
        (if bool_decide (topology c = "spatial")
         then get_random_neighbor self None
         else get_random_cell self) ;;
      receive_product random_neighbor self p' (get_type p') self debug
  | None => if debug then get_active_rule self ;; ret tt else ret tt
  end.

(** ** Assertions on computations *)

(** Whenever [m] returns from a world satisfying [P], the result and the
    world it leaves satisfy [Q]. *)
Definition hoare {A} (P : World → Prop) (m : M A) (Q : A → World → Prop) : Prop :=
  ∀ w a w', P w → m w = Ok (a, w') → Q a w'.

(** The network is in working order, holds [n] rule instances and the
    step counter stands at [k]. *)
Definition tick_inv (n k : Z) (w : World) : Prop :=
  world_wf w ∧ total_rule_count w = n ∧ master_count w = k.

(** Two states of a cell with the same rule bookkeeping and wiring. *)
Definition same_bookkeeping (c c' : Cell) : Prop :=
  product_rules c' = product_rules c ∧
  product_netrules c' = product_netrules c ∧
  count_rules c' = count_rules c ∧
  cellNet c' = cellNet c.

(** The inventories of all cells. *)
Definition inventories (w : World) : gmap nat (gmap Z (list Product)) :=
  products <$> cells w.

(** [tick_inv] together with the inventories of the network. *)
Definition net_inv (n k : Z) (inv : gmap nat (gmap Z (list Product))) (w : World) : Prop :=
  tick_inv n k w ∧ inventories w = inv.

(** ** The product-rule net and the aggregates *)

(** The entry an aggregate stands for in the product-rule net: its owning
    cell and its pair. *)
Definition netrule_key (n : ProductNetRule) : option (CellRef * (Z * Z)) :=
  match nr_owner n with
  | Some owner => Some (owner, (nr_input n, nr_output n))
  | None => None
  end.

(** The aggregates held by the cells: the pairs for which a cell has a
    key in its aggregate index, each with its cell. *)
Definition aggregate_keys (cs : gmap nat Cell) : gset (CellRef * (Z * Z)) :=
  list_to_set
    (flat_map (λ kc : nat * Cell, map (pair kc.1) (keys (product_netrules kc.2)))
       (map_to_list cs)).

(** One call received by the product-rule net, applied to the entries in
    force: a registration is in order for an aggregate that has no entry,
    and adds its entry; a retirement is in order for an aggregate that has
    an entry, and drops it.  A call out of order gives [None]. *)
Definition registry_step (call : RegistryCall) (live : gset (CellRef * (Z * Z)))
    : option (gset (CellRef * (Z * Z))) :=
  match call with
  | Reg_add_ProductNetRule n =>
      match netrule_key n with
      | Some k => if decide (k ∈ live) then None else Some ({[ k ]} ∪ live)
      | None => None
      end
  | Reg_remove_ProductNetRule (Some n) _ =>
      match netrule_key n with
      | Some k => if decide (k ∈ live) then Some (live ∖ {[ k ]}) else None
      | None => None
      end
  | Reg_remove_ProductNetRule None _ => None
  end.

(** The calls replayed in the order in which they were received. *)
Fixpoint registry_replay (calls : list RegistryCall) (live : gset (CellRef * (Z * Z)))
    : option (gset (CellRef * (Z * Z))) :=
  match calls with
  | [] => Some live
  | call :: calls =>
      match registry_step call live with
      | Some live' => registry_replay calls live'
      | None => None
      end
  end.

(** Every aggregate sits under the key of its own pair in the aggregate
    index of the cell that owns it. *)
Definition aggregates_labelled (cs : gmap nat Cell) : Prop :=
  map_Forall (λ k c,
      map_Forall (λ name n, netrule_key n = Some (k, name)) (product_netrules c))
    cs.

#[global] Instance aggregates_labelled_dec cs : Decision (aggregates_labelled cs).
Proof. unfold aggregates_labelled. apply _. Defined.

(** From [w] to [w']: the product-rule net has received further calls,
    and these calls, replayed from the aggregates the cells held in [w],
    are all in order and end in the aggregates the cells hold in [w']. *)
Definition registry_tracks (w w' : World) : Prop :=
  aggregates_labelled (cells w') ∧
  ∃ calls,
    productRule_Net w' = productRule_Net w ++ calls ∧
    registry_replay calls (aggregate_keys (cells w)) = Some (aggregate_keys (cells w')).
(** * Properties *)

(** ** Sums over dictionaries *)

Section map_sum.
Context `{Countable K} {V : Type} (f : V → Z).

Lemma sum_foldr_perm (l1 l2 : list (K * V)) :
  l1 ≡ₚ l2 →
  foldr (λ kv acc, f kv.2 + acc) 0 l1 = foldr (λ kv acc, f kv.2 + acc) 0 l2.
Proof. induction 1; simpl; lia. Qed.

Lemma map_sum_empty : map_sum f (∅ : gmap K V) = 0.
Proof. unfold map_sum. by rewrite map_to_list_empty. Qed.

Lemma map_sum_insert_None (d : gmap K V) k v :
  d !! k = None → map_sum f (<[k := v]> d) = f v + map_sum f d.
Proof.
  intros Hk. unfold map_sum.
  by rewrite (sum_foldr_perm _ _ (map_to_list_insert d k v Hk)).
Qed.

Lemma map_sum_delete (d : gmap K V) k v :
  d !! k = Some v → map_sum f (delete k d) = map_sum f d - f v.
Proof.
  intros Hk. unfold map_sum.
  rewrite <- (sum_foldr_perm _ _ (map_to_list_delete d k v Hk)). simpl. lia.
Qed.

Lemma map_sum_insert_Some (d : gmap K V) k v v' :
  d !! k = Some v → map_sum f (<[k := v']> d) = map_sum f d - f v + f v'.
Proof.
  intros Hk. rewrite <- insert_delete_eq.
  rewrite map_sum_insert_None by apply lookup_delete_eq.
  rewrite (map_sum_delete d k v Hk). lia.
Qed.

Lemma map_sum_singleton k v : map_sum f ({[k := v]} : gmap K V) = f v.
Proof.
  rewrite <- insert_empty, map_sum_insert_None by apply lookup_empty.
  rewrite map_sum_empty. lia.
Qed.
End map_sum.

(** ** Stepping through the monad *)

Lemma bind_get_cell {A} self c (k : Cell → M A) w :
  cells w !! self = Some c → bind (get_cell self) k w = k c w.
Proof. intros Hc. unfold bind, get_cell. by rewrite Hc. Qed.

Lemma bind_put_cell {A} self c (k : unit → M A) w :
  bind (put_cell self c) k w = k tt (set_cells (<[self := c]> (cells w)) w).
Proof. reflexivity. Qed.

Lemma bind_ret {A B} (a : A) (k : A → M B) w : bind (ret a) k w = k a w.
Proof. reflexivity. Qed.

Lemma bind_assoc {A B C} (m : M A) (f : A → M B) (g : B → M C) w :
  bind (bind m f) g w = bind m (λ a, bind (f a) g) w.
Proof. unfold bind. destruct (m w) as [[a w']|e]; reflexivity. Qed.

Lemma bind_ok {A B} (m : M A) (k : A → M B) w a w' :
  m w = Ok (a, w') → bind m k w = k a w'.
Proof. intros Hm. unfold bind. by rewrite Hm. Qed.

Lemma bind_raise {A B} (m : M A) (k : A → M B) w e :
  m w = Raise e → bind m k w = Raise e.
Proof. intros Hm. unfold bind. by rewrite Hm. Qed.

(** ** Token inventory *)

Lemma list_pop_snoc {A} (l : list A) x : list_pop (l ++ [x]) = Some (x, l).
Proof. unfold list_pop. by rewrite last_snoc, removelast_last. Qed.

Lemma list_pop_singleton {A} (x : A) : list_pop [x] = Some (x, []).
Proof. reflexivity. Qed.

(** What [add_Product] leaves in the world. *)
Lemma add_Product_ok self product w c :
  cells w !! self = Some c →
  add_Product self product w =
    Ok (tt, set_cells
              (<[self := set_products
                   (<[get_type product :=
                        default [] (products c !! get_type product) ++ [product]]>
                      (products c)) c]> (cells w)) w).
Proof.
  intros Hc. unfold add_Product, try_except.
  rewrite !(bind_get_cell _ _ _ _ Hc). unfold getitem.
  destruct (products c !! get_type product) as [stack|]; reflexivity.
Qed.

(** [remove_Product] on a type whose stack ends with [p]. *)
Lemma remove_Product_top self t w c stack p :
  cells w !! self = Some c →
  products c !! t = Some (stack ++ [p]) →
  remove_Product self t w =
    Ok (Some p, set_cells (<[self := set_products (<[t := stack]> (products c)) c]> (cells w)) w).
Proof.
  intros Hc Ht. unfold remove_Product.
  rewrite (bind_get_cell _ _ _ _ Hc), Ht, list_pop_snoc. reflexivity.
Qed.

(** [remove_Product] when nothing of the type is stored. *)
Lemma remove_Product_none self t w c :
  cells w !! self = Some c →
  products c !! t = None ∨ products c !! t = Some [] →
  remove_Product self t w = Ok (None, w).
Proof.
  intros Hc Ht. unfold remove_Product.
  rewrite (bind_get_cell _ _ _ _ Hc). by destruct Ht as [-> | ->].
Qed.

Lemma set_products_id c : set_products (products c) c = c.
Proof. by destruct c. Qed.

(** C9, as stated, fails: storing a product of a type the cell has no key
    for and taking it back leaves the key behind with an empty stack, so the
    inventory is not the dictionary it was before. *)
Lemma store_take_leaves_key :
  ∃ w1 w2 c2,
    add_Product 0%nat (mkProduct 5 7) world0 = Ok (tt, w1) ∧
    remove_Product 0%nat 5 w1 = Ok (Some (mkProduct 5 7), w2) ∧
    cells w2 !! 0%nat = Some c2 ∧
    products c2 ≠ products cell_a ∧
    products c2 !! 5 = Some [] ∧ products cell_a !! 5 = None.
Proof.
  eexists _, _, _. do 3 (split; [reflexivity|]).
  match goal with
  | |- ?a ≠ _ ∧ _ => assert (Hl : a !! 5 = Some []) by (vm_compute; reflexivity)
  end.
  split; [|split; [exact Hl | reflexivity]].
  intros Heq. rewrite Heq in Hl. discriminate Hl.
Qed.

(** C9 (amended): [add_Product p] followed by [remove_Product] of [p]'s
    type returns exactly [p] (the stack of a type is last in, first out)
    and changes nothing of the cell but the inventory, which is the one
    before the two calls with the stack of [p]'s type as it was, except
    that a type without a key before now has a key with the empty stack
    (when the key was there before, the inventory is equal to the one
    before); [remove_Product] never raises and returns [None] both when
    the key is absent and when the stack is empty, leaving the world as it
    is. *)
Theorem store_then_take (w : World) (self : CellRef) (c : Cell) (p : Product) :
  cells w !! self = Some c →
  (∃ w1 c2,
     add_Product self p w = Ok (tt, w1) ∧
     remove_Product self (get_type p) w1 =
       Ok (Some p, set_cells (<[self := c2]> (cells w)) w) ∧
     c2 = set_products
            (<[get_type p := default [] (products c !! get_type p)]> (products c)) c ∧
     (∀ t, t ≠ get_type p → products c2 !! t = products c !! t) ∧
     products c2 !! get_type p = Some (default [] (products c !! get_type p)) ∧
     (is_Some (products c !! get_type p) → c2 = c)) ∧
  (∀ t, ∃ r w', remove_Product self t w = Ok (r, w') ∧
     (products c !! t = None ∨ products c !! t = Some [] → r = None ∧ w' = w) ∧
     (∀ stack q, products c !! t = Some (stack ++ [q]) → r = Some q)).
Proof.
  intros Hc. split.
  - eexists _, _. split; [by apply add_Product_ok|].
    split; [|split; [reflexivity|]].
    + erewrite remove_Product_top;
        [| simpl; apply lookup_insert_eq | simpl; apply lookup_insert_eq].
      simpl. unfold set_cells, set_products. simpl.
      by rewrite !insert_insert_eq.
    + split; [|split].
      * intros t Ht. simpl. by rewrite lookup_insert_ne.
      * simpl. apply lookup_insert_eq.
      * intros [stack Hs]. rewrite Hs. simpl.
        rewrite insert_id by done. apply set_products_id.
  - intros t. destruct (products c !! t) as [stack|] eqn:Ht.
    + destruct stack as [|x stack'] using rev_ind.
      * eexists _, _. split; [apply (remove_Product_none _ _ _ c); auto|].
        split; [done|]. intros stack q Hq. by destruct stack.
      * eexists _, _. split; [by eapply remove_Product_top|].
        split.
        -- intros [?|Hq]; [done|]. inversion Hq as [Hq']. by destruct stack'.
        -- intros stack q Hq. inversion Hq as [Hq']. by apply app_inj_tail in Hq' as [_ ->].
    + eexists _, _. split; [apply (remove_Product_none _ _ _ c); auto|].
      split; [done|]. intros stack q Hq. discriminate.
Qed.

Lemma store_then_take_witness :
  cells world0 !! 0%nat = Some cell_a ∧
  ∃ w1 c2,
    add_Product 0%nat (mkProduct 5 7) world0 = Ok (tt, w1) ∧
    remove_Product 0%nat 5 w1 =
      Ok (Some (mkProduct 5 7), set_cells (<[0%nat := c2]> (cells world0)) world0).
Proof.
  split; [reflexivity|].
  destruct (store_then_take world0 0%nat cell_a (mkProduct 5 7) eq_refl)
    as [(w1 & c2 & H1 & H2 & _) _].
  exists w1, c2. split; assumption.
Defined.

(** ** Sampling *)

Lemma sample1_nil {A} w : sample1 (@nil A) w = Raise ValueError.
Proof. reflexivity. Qed.

Lemma sample1_ok {A} (l : list A) w :
  l ≠ [] →
  ∃ x, l !! next_index w (length l) = Some x ∧ sample1 l w = Ok (x, advance_RNG w).
Proof.
  intros Hl. destruct l as [|y l]; [done|].
  assert (Hlt : (next_index w (length (y :: l)) < length (y :: l))%nat)
    by (apply Nat.mod_upper_bound; simpl; lia).
  destruct (lookup_lt_is_Some_2 _ _ Hlt) as [x Hx].
  exists x. split; [done|]. unfold sample1.
  fold (next_index w (length (y :: l))).
  by rewrite (nth_lookup_Some _ _ y _ Hx).
Qed.

Lemma sample1_with_next_draw {A} (l : list A) w j x :
  l !! j = Some x →
  sample1 l (with_next_draw j w) = Ok (x, advance_RNG (with_next_draw j w)).
Proof.
  intros Hx. destruct l as [|y l]; [done|].
  unfold sample1. simpl rng_draws.
  rewrite Nat.mod_small by (by apply lookup_lt_Some in Hx).
  by rewrite (nth_lookup_Some _ _ y _ Hx).
Qed.

(** ** [set_active_rule] *)

(** C10: for a rule contained in the bucket of its (input, output) pair,
    [set_active_rule] raises nothing and makes the rule the cell's active
    rule: afterwards the cell's [active_rule] is that rule, whatever it was
    before, and nothing else of the cell or of the world has changed; when
    the bucket exists and does not contain the rule the call ends in a
    [NameError] (the exception class it means to raise is not defined);
    when the input key or the output key is absent it ends in a
    [KeyError]. *)
Theorem set_active_rule_cases (w : World) (self : CellRef) (c : Cell) (rule : ProductRule) :
  cells w !! self = Some c →
  (∀ inner bucket,
     product_rules c !! get_input rule = Some inner →
     inner !! get_output rule = Some bucket →
     (rule ∈ bucket →
        ∃ w' c',
          set_active_rule self rule w = Ok (tt, w') ∧
          cells w' !! self = Some c' ∧
          active_rule c' = Some rule ∧
          c' = set_active (Some rule) c ∧
          product_rules c' = product_rules c ∧
          product_netrules c' = product_netrules c ∧
          count_rules c' = count_rules c ∧
          products c' = products c ∧
          neighbors c' = neighbors c ∧
          (∀ k, k ≠ self → cells w' !! k = cells w !! k) ∧
          w' = set_cells (<[self := c']> (cells w)) w) ∧
     (rule ∉ bucket → set_active_rule self rule w = Raise NameError)) ∧
  (product_rules c !! get_input rule = None →
     set_active_rule self rule w = Raise KeyError) ∧
  (∀ inner,
     product_rules c !! get_input rule = Some inner →
     inner !! get_output rule = None →
     set_active_rule self rule w = Raise KeyError).
Proof.
  intros Hc. unfold set_active_rule. rewrite (bind_get_cell _ _ _ _ Hc).
  unfold bind, getitem, ret, raise. split; [|split].
  - intros inner bucket -> ->. split; intros Hin.
    + rewrite bool_decide_eq_true_2 by done.
      eexists _, (set_active (Some rule) c). split; [reflexivity|].
      split; [simpl; apply lookup_insert_eq|].
      do 7 (split; [reflexivity|]).
      split; [|reflexivity].
      intros k Hk. simpl. by rewrite lookup_insert_ne.
    + by rewrite bool_decide_eq_false_2.
  - intros ->. reflexivity.
  - intros inner -> ->. reflexivity.
Qed.

Lemma set_active_rule_cases_witness :
  cells world1 !! 0%nat = Some cell_s ∧
  active_rule cell_s = Some rule_12a ∧
  ∃ w' c',
    set_active_rule 0%nat rule_12b world1 = Ok (tt, w') ∧
    cells w' !! 0%nat = Some c' ∧
    active_rule c' = Some rule_12b.
Proof.
  split; [reflexivity|]. split; [reflexivity|].
  destruct (proj1 (proj1 (set_active_rule_cases world1 0%nat cell_s rule_12b eq_refl)
                     {[ 2 := [rule_12a; rule_12b] ]} [rule_12a; rule_12b] eq_refl eq_refl))
    as (w' & c' & Hrun & Hc' & Hact & _).
  { apply elem_of_cons. right. apply elem_of_cons. by left. }
  by exists w', c'.
Defined.

(** ** The rejection path of [receive_product] *)

(** C6: when the recipient (wired to the cell net) has no rule accepting
    the product's type, [receive_product] hands exactly that product, its
    type as it was, to the urn; no cell changes, so the recipient's
    inventory, rule index, aggregate index, rule counter and active rule
    are what they were.  Only the step counter of the net advances. *)
Theorem receive_product_rejects (w : World) (self sender who : CellRef) (c : Cell)
    (product : Product) (prohibited : Z) (debug : bool) :
  cells w !! self = Some c →
  cellNet c = Some TheCellNet →
  product_rules c !! get_type product = None →
  ∃ w',
    receive_product self sender product prohibited who debug w = Ok (tt, w') ∧
    urn w' = urn w ++ [product] ∧
    cells w' = cells w ∧
    cells w' !! self = Some c ∧
    master_count w' = master_count w + 1 ∧
    productRule_Net w' = productRule_Net w ∧
    RNG w' = RNG w.
Proof.
  intros Hc Hnet Hno. eexists. split.
  - unfold receive_product, get_cellNet, has_rule.
    rewrite bind_assoc, (bind_get_cell _ _ _ _ Hc), Hnet.
    unfold bind at 1. simpl.
    unfold bind at 1. simpl.
    rewrite bind_assoc. erewrite bind_get_cell by exact Hc.
    rewrite bind_ret, Hno.
    rewrite bool_decide_eq_false_2 by (by intros [? ?]).
    reflexivity.
  - simpl. by repeat split.
Qed.

Lemma receive_product_rejects_witness :
  cells world1 !! 1%nat = Some cell_t ∧
  cellNet cell_t = Some TheCellNet ∧
  product_rules cell_t !! get_type (mkProduct 5 7) = None ∧
  ∃ w', receive_product 1%nat 0%nat (mkProduct 5 7) 4 0%nat false world1 = Ok (tt, w') ∧
        urn w' = urn world1 ++ [mkProduct 5 7].
Proof.
  split; [reflexivity|]. split; [reflexivity|]. split; [reflexivity|].
  destruct (receive_product_rejects world1 1%nat 0%nat 0%nat cell_t (mkProduct 5 7) 4 false
              eq_refl eq_refl eq_refl) as (w' & H1 & H2 & _).
  exists w'. by split.
Defined.

(** ** [get_random_neighbor] *)

Lemma remove_first_elem (x : CellRef) (l : list CellRef) :
  x ∈ l →
  ∃ l1 l2, l = l1 ++ x :: l2 ∧ (x ∉ l1) ∧ remove_first x l = Some (l1 ++ l2).
Proof.
  induction l as [|y l IH]; intros Hin; [by apply elem_of_nil in Hin|].
  simpl. destruct (decide (y = x)) as [->|Hne].
  - exists [], l. split; [done|]. split; [apply not_elem_of_nil | done].
  - apply elem_of_cons in Hin as [->|Hin]; [done|].
    destruct (IH Hin) as (l1 & l2 & -> & Hnot & ->).
    exists (y :: l1), l2. split; [done|]. split; [|done].
    rewrite elem_of_cons. intros [->|?]; done.
Qed.

(** C8, as stated, fails: an exclusion argument that is not among the
    neighbours makes the call raise [TypeError], although sampling over
    the full neighbour list would have produced a neighbour. *)
Lemma absent_exclusion_raises :
  neighbors cell_s ≠ [] ∧ (7%nat ∉ neighbors cell_s) ∧
  get_random_neighbor 0%nat (Some 7%nat) world1 = Raise TypeError ∧
  get_random_neighbor 0%nat None world1 = Ok (1%nat, advance_RNG world1).
Proof.
  split; [done|]. split; [simpl; by rewrite list_elem_of_singleton|]. split; reflexivity.
Qed.

(** C8 (amended): with an exclusion argument that is among the neighbours,
    [get_random_neighbor] samples uniformly (the element at the drawn
    index, every index being drawn by some draw) from the neighbour list
    without the first occurrence of that cell, and raises [ValueError]
    when nothing is left; with an exclusion argument that is not among the
    neighbours it raises [TypeError]; without an exclusion argument it
    samples from the full list. *)
Theorem get_random_neighbor_cases (w : World) (self : CellRef) (c : Cell) :
  cells w !! self = Some c →
  (∀ who, who ∈ neighbors c →
     ∃ l1 l2, neighbors c = l1 ++ who :: l2 ∧ (who ∉ l1) ∧
       ((l1 ++ l2) ≠ [] →
          (∃ x, (l1 ++ l2) !! next_index w (length (l1 ++ l2)) = Some x ∧
                get_random_neighbor self (Some who) w = Ok (x, advance_RNG w)) ∧
          (∀ j x, (l1 ++ l2) !! j = Some x →
                get_random_neighbor self (Some who) (with_next_draw j w) =
                  Ok (x, advance_RNG (with_next_draw j w)))) ∧
       (l1 ++ l2 = [] → get_random_neighbor self (Some who) w = Raise ValueError)) ∧
  (∀ who, who ∉ neighbors c →
     get_random_neighbor self (Some who) w = Raise TypeError) ∧
  (neighbors c ≠ [] →
     ∃ x, neighbors c !! next_index w (length (neighbors c)) = Some x ∧
          get_random_neighbor self None w = Ok (x, advance_RNG w)).
Proof.
  intros Hc. split; [|split].
  - intros who Hin.
    destruct (remove_first_elem who (neighbors c) Hin) as (l1 & l2 & Heq & Hnot & Hrm).
    exists l1, l2. split; [done|]. split; [done|].
    assert (Hrun : ∀ w', cells w' !! self = Some c →
              get_random_neighbor self (Some who) w' = sample1 (l1 ++ l2) w').
    { intros w' Hc'. unfold get_random_neighbor.
      rewrite (bind_get_cell _ _ _ _ Hc').
      by rewrite bool_decide_eq_true_2, Hrm. }
    split.
    + intros Hne. split.
      * destruct (sample1_ok (l1 ++ l2) w Hne) as (x & Hx & Hs).
        exists x. split; [done|]. by rewrite Hrun.
      * intros j x Hx. rewrite Hrun by exact Hc.
        by apply sample1_with_next_draw.
    + intros Hnil. rewrite Hrun by done. by rewrite Hnil.
  - intros who Hnot. unfold get_random_neighbor.
    rewrite (bind_get_cell _ _ _ _ Hc).
    by rewrite bool_decide_eq_false_2.
  - intros Hne. destruct (sample1_ok (neighbors c) w Hne) as (x & Hx & Hs).
    exists x. split; [done|]. unfold get_random_neighbor.
    by rewrite (bind_get_cell _ _ _ _ Hc).
Qed.

Lemma get_random_neighbor_cases_witness :
  cells world1 !! 0%nat = Some cell_s ∧
  get_random_neighbor 0%nat (Some 7%nat) world1 = Raise TypeError.
Proof.
  split; [reflexivity|].
  apply (proj1 (proj2 (get_random_neighbor_cases world1 0%nat cell_s eq_refl))).
  simpl. by rewrite list_elem_of_singleton.
Defined.

(** ** Rule bookkeeping *)

Lemma add_ProductRule_ok self r w c :
  cells w !! self = Some c →
  add_ProductRule self (ObjProductRule r) w =
    Ok (tt, set_productRule_Net (registry_after_add self r c (productRule_Net w))
              (set_cells (<[self := cell_add self r c]> (cells w)) w)).
Proof.
  intros Hc.
  unfold add_ProductRule, add_ProductNetRule, try_except, bind, get_cell, put_cell,
    getitem, modify_world, registry_call, ret, raise.
  unfold cell_add, registry_after_add, netrules_add, rules_add, bucket_of.
  rewrite Hc. simpl.
  destruct (product_rules c !! get_input r) as [inner|] eqn:Hi; simpl.
  - destruct (inner !! get_output r) as [bucket|] eqn:Ho; simpl;
      rewrite !lookup_insert_eq; simpl;
      destruct (product_netrules c !! get_name r) as [n|] eqn:Hn; simpl;
      rewrite ?lookup_insert_eq; simpl; unfold set_cells, set_productRule_Net; simpl;
      rewrite ?insert_insert_eq; destruct w; reflexivity.
  - rewrite !lookup_insert_eq; simpl;
      destruct (product_netrules c !! get_name r) as [n|] eqn:Hn; simpl;
      rewrite ?lookup_insert_eq; simpl; unfold set_cells, set_productRule_Net; simpl;
      rewrite ?insert_insert_eq; destruct w; reflexivity.
Qed.

Lemma remove_ProductRule_ok self r w c inner bucket bucket' n :
  cells w !! self = Some c →
  product_rules c !! get_input r = Some inner →
  inner !! get_output r = Some bucket →
  list_remove r bucket = Some bucket' →
  product_netrules c !! get_name r = Some n →
  (bucket' = [] → cellNet c = Some TheCellNet) →
  remove_ProductRule self r w =
    Ok (tt, set_productRule_Net
              (registry_after_remove r bucket' c (master_count w) (productRule_Net w))
              (set_cells (<[self := cell_remove r bucket' c]> (cells w)) w)).
Proof.
  intros Hc Hi Ho Hrm Hn Hnet.
  unfold remove_ProductRule, get_cellNet, try_except, bind, get_cell, put_cell,
    getitem, modify_world, registry_call, get_world, ret, raise.
  unfold cell_remove, registry_after_remove, netrules_remove, rules_remove.
  rewrite Hc. simpl. rewrite Hi. simpl. rewrite Ho. simpl. rewrite Hrm. simpl.
  rewrite !lookup_insert_eq. simpl. rewrite Hn. simpl.
  rewrite !lookup_insert_eq. simpl. rewrite !lookup_insert_eq. simpl.
  case_bool_decide as Hb; simpl.
  - rewrite !lookup_insert_eq. simpl. rewrite (Hnet Hb). simpl.
    rewrite !lookup_insert_eq. simpl. rewrite !lookup_insert_eq. simpl.
    rewrite !lookup_insert_eq. simpl. rewrite delete_insert_eq.
    case_bool_decide as He; simpl; unfold set_cells, set_productRule_Net; simpl;
      rewrite ?insert_insert_eq, ?delete_insert_eq, ?insert_insert_eq;
      destruct w; reflexivity.
  - unfold set_cells, set_productRule_Net; simpl.
    rewrite ?insert_insert_eq. destruct w; reflexivity.
Qed.

Lemma list_remove_length x l l' :
  list_remove x l = Some l' → length l = S (length l').
Proof.
  revert l'. induction l as [|y l IH]; intros l' Hrm; [done|].
  simpl in Hrm. destruct (decide (y = x)).
  - by inversion Hrm.
  - destruct (list_remove x l) as [k|] eqn:Hk; [|done].
    inversion Hrm. simpl. by rewrite (IH k).
Qed.

Lemma list_remove_elem x l : x ∈ l → is_Some (list_remove x l).
Proof.
  induction l as [|y l IH]; intros Hin; [by apply elem_of_nil in Hin|].
  simpl. destruct (decide (y = x)); [by eexists|].
  apply elem_of_cons in Hin as [->|Hin]; [done|].
  destruct (IH Hin) as [k ->]. by eexists.
Qed.

Lemma list_remove_sub x l l' y :
  list_remove x l = Some l' → y ∈ l' → y ∈ l.
Proof.
  revert l'. induction l as [|z l IH]; intros l' Hrm Hy; [done|].
  simpl in Hrm. destruct (decide (z = x)).
  - inversion Hrm; subst. by apply elem_of_cons; right.
  - destruct (list_remove x l) as [k|] eqn:Hk; [|done].
    inversion Hrm; subst. apply elem_of_cons in Hy as [->|Hy].
    + apply elem_of_cons; by left.
    + apply elem_of_cons; right. by apply (IH k).
Qed.


Lemma bucket_len_rules_add r rules i o :
  bucket_len (rules_add r rules) i o =
    bucket_len rules i o + (if decide ((i, o) = get_name r) then 1 else 0).
Proof.
  unfold rules_add, bucket_len, bucket_of, get_name, get_input, get_output.
  destruct (decide (i = rule_input r)) as [->|Hi].
  - rewrite lookup_insert_eq.
    destruct (decide (o = rule_output r)) as [->|Ho].
    + rewrite lookup_insert_eq, decide_True by done.
      destruct (rules !! rule_input r) as [inner|]; simpl.
      * destruct (inner !! rule_output r); simpl; rewrite ?length_app; simpl; lia.
      * lia.
    + rewrite lookup_insert_ne, decide_False by congruence.
      destruct (rules !! rule_input r) as [inner|]; simpl; [lia|].
      rewrite lookup_empty. lia.
  - rewrite lookup_insert_ne, decide_False by congruence. lia.
Qed.

Lemma bucket_total_rules_add r rules :
  bucket_total (rules_add r rules) = bucket_total rules + 1.
Proof.
  unfold rules_add, bucket_total, bucket_of.
  destruct (rules !! get_input r) as [inner|] eqn:Hi; simpl.
  - rewrite (map_sum_insert_Some _ _ _ _ _ Hi).
    destruct (inner !! get_output r) as [bucket|] eqn:Ho; simpl.
    + rewrite (map_sum_insert_Some _ _ _ _ _ Ho), length_app. simpl. lia.
    + rewrite (map_sum_insert_None _ _ _ _ Ho). simpl. lia.
  - rewrite (map_sum_insert_None _ _ _ _ Hi).
    rewrite (map_sum_insert_None _ _ _ _ (lookup_empty _)), map_sum_empty.
    simpl. lia.
Qed.

Lemma netrule_total_add self r netrules :
  netrule_total (netrules_add self r netrules) = netrule_total netrules + 1.
Proof.
  unfold netrules_add, netrule_total.
  destruct (netrules !! get_name r) as [n|] eqn:Hn.
  - rewrite (map_sum_insert_Some _ _ _ _ _ Hn). simpl. lia.
  - rewrite (map_sum_insert_None _ _ _ _ Hn). simpl. lia.
Qed.

Lemma bucket_len_rules_remove r rules inner bucket bucket' i o :
  rules !! get_input r = Some inner →
  inner !! get_output r = Some bucket →
  list_remove r bucket = Some bucket' →
  bucket_len (rules_remove r bucket' rules) i o =
    bucket_len rules i o - (if decide ((i, o) = get_name r) then 1 else 0).
Proof.
  intros Hi Ho Hrm. apply list_remove_length in Hrm.
  unfold rules_remove, bucket_len, get_name. rewrite Hi.
  unfold get_input, get_output in *.
  destruct (decide (i = rule_input r)) as [->|Hne].
  - rewrite Hi.
    destruct (decide (o = rule_output r)) as [->|Hno].
    + rewrite Ho, decide_True by done.
      case_bool_decide as Hb; [case_bool_decide as He|]; subst;
        rewrite ?lookup_delete_eq, ?lookup_insert_eq; simpl;
        rewrite ?lookup_delete_eq, ?lookup_insert_eq; simpl in *; lia.
    + rewrite decide_False by congruence.
      case_bool_decide as Hb; [case_bool_decide as He|]; subst;
        rewrite ?lookup_delete_eq, ?lookup_insert_eq; simpl;
        rewrite ?lookup_delete_ne, ?lookup_insert_ne by done; try lia.
      assert (Hl : delete (rule_output r) inner !! o = None)
        by (rewrite He; apply lookup_empty).
      rewrite lookup_delete_ne in Hl by done. rewrite Hl. lia.
  - rewrite decide_False by congruence.
    case_bool_decide as Hb; [case_bool_decide as He|];
      rewrite ?lookup_delete_ne, ?lookup_insert_ne by done; lia.
Qed.

Lemma bucket_total_rules_remove r rules inner bucket bucket' :
  rules !! get_input r = Some inner →
  inner !! get_output r = Some bucket →
  list_remove r bucket = Some bucket' →
  bucket_total (rules_remove r bucket' rules) = bucket_total rules - 1.
Proof.
  intros Hi Ho Hrm. apply list_remove_length in Hrm.
  unfold rules_remove, bucket_total. rewrite Hi.
  case_bool_decide as Hb; [case_bool_decide as He|]; subst.
  - rewrite (map_sum_delete _ _ _ _ Hi).
    pose proof (map_sum_delete (λ b : list ProductRule, Z.of_nat (length b)) _ _ _ Ho) as Hd.
    rewrite He, map_sum_empty in Hd. simpl in *. lia.
  - rewrite (map_sum_insert_Some _ _ _ _ _ Hi).
    rewrite (map_sum_delete _ _ _ _ Ho). simpl in *. lia.
  - rewrite (map_sum_insert_Some _ _ _ _ _ Hi).
    rewrite (map_sum_insert_Some _ _ _ _ _ Ho). lia.
Qed.

Lemma netrule_total_remove r bucket' netrules n :
  netrules !! get_name r = Some n →
  netrule_total (netrules_remove r bucket' netrules) =
    if bool_decide (bucket' = [])
    then netrule_total netrules - nr_count n
    else netrule_total netrules - 1.
Proof.
  intros Hn. unfold netrules_remove, netrule_total. rewrite Hn.
  case_bool_decide.
  - by rewrite (map_sum_delete _ _ _ _ Hn).
  - rewrite (map_sum_insert_Some _ _ _ _ _ Hn). simpl. lia.
Qed.

Lemma bucket_len_nonneg rules i o : 0 ≤ bucket_len rules i o.
Proof.
  unfold bucket_len. destruct (rules !! i) as [inner|]; [|lia].
  destruct (inner !! o); lia.
Qed.

Lemma cell_consistent_alt c :
  cell_consistent c ↔
    (∀ i o n, product_netrules c !! (i, o) = Some n →
              nr_count n = bucket_len (product_rules c) i o) ∧
    (∀ i o, 0 < bucket_len (product_rules c) i o →
            is_Some (product_netrules c !! (i, o))) ∧
    sum_invariant c.
Proof.
  unfold cell_consistent. split.
  - intros (Hcount & Hpres & Hsum). split; [|split; [|done]].
    + intros i o n Hn. apply (Hcount (i, o) n Hn).
    + intros i o Hpos. unfold bucket_len in Hpos.
      destruct (product_rules c !! i) as [inner|] eqn:Hi; [|lia].
      destruct (inner !! o) as [bucket|] eqn:Ho; [|lia].
      apply (Hpres i inner Hi o bucket Ho). intros ->. simpl in Hpos. lia.
  - intros (Hcount & Hpres & Hsum). split; [|split; [|done]].
    + intros [i o] n Hn. by apply Hcount.
    + intros i inner Hi o bucket Ho Hne. apply Hpres.
      unfold bucket_len. rewrite Hi, Ho. destruct bucket; [done|]. simpl. lia.
Qed.

Lemma cell_add_consistent self r c :
  cell_consistent c → cell_consistent (cell_add self r c).
Proof.
  rewrite !cell_consistent_alt. intros (Hcount & Hpres & Hrules & Hnet).
  unfold cell_add, sum_invariant in *. simpl. split; [|split; [|split]].
  - intros i o n. rewrite bucket_len_rules_add. unfold netrules_add.
    destruct (decide ((i, o) = get_name r)) as [Heq|Hne].
    + rewrite <- Heq.
      destruct (product_netrules c !! (i, o)) as [n0|] eqn:Hn0.
      * rewrite lookup_insert_eq. intros [= <-]. simpl.
        rewrite (Hcount i o n0 Hn0). lia.
      * rewrite lookup_insert_eq. intros [= <-]. simpl.
        pose proof (bucket_len_nonneg (product_rules c) i o) as Hge.
        destruct (decide (0 < bucket_len (product_rules c) i o)) as [Hpos|Hz]; [|lia].
        apply Hpres in Hpos as [? Hs]. congruence.
    + destruct (product_netrules c !! get_name r);
        rewrite lookup_insert_ne by done; intros Hn;
        rewrite (Hcount i o n Hn); lia.
  - intros i o. rewrite bucket_len_rules_add. unfold netrules_add.
    destruct (decide ((i, o) = get_name r)) as [Heq|Hne].
    + rewrite <- Heq. intros _.
      destruct (product_netrules c !! (i, o)); rewrite lookup_insert_eq; by eexists.
    + intros Hpos.
      destruct (product_netrules c !! get_name r);
        rewrite lookup_insert_ne by done; apply Hpres; lia.
  - rewrite bucket_total_rules_add. lia.
  - rewrite netrule_total_add. lia.
Qed.

Lemma cell_remove_consistent r c inner bucket bucket' n :
  product_rules c !! get_input r = Some inner →
  inner !! get_output r = Some bucket →
  list_remove r bucket = Some bucket' →
  product_netrules c !! get_name r = Some n →
  cell_consistent c → cell_consistent (cell_remove r bucket' c).
Proof.
  intros Hi Ho Hrm Hn. rewrite !cell_consistent_alt.
  intros (Hcount & Hpres & Hrules & Hnet).
  assert (Hlen : bucket_len (product_rules c) (rule_input r) (rule_output r)
                 = Z.of_nat (length bucket)).
  { unfold bucket_len. unfold get_input, get_output in Hi, Ho. by rewrite Hi, Ho. }
  pose proof (list_remove_length _ _ _ Hrm) as Hl.
  pose proof (Hcount _ _ _ Hn) as Hcn. rewrite Hlen in Hcn.
  unfold cell_remove, sum_invariant in *. simpl. split; [|split; [|split]].
  - intros i o m. rewrite (bucket_len_rules_remove _ _ _ _ _ _ _ Hi Ho Hrm).
    unfold netrules_remove. rewrite Hn.
    destruct (decide ((i, o) = get_name r)) as [Heq|Hne].
    + rewrite Heq. case_bool_decide.
      * by rewrite lookup_delete_eq.
      * rewrite lookup_insert_eq. intros [= <-]. simpl.
        unfold get_name in Heq. inversion Heq; subst.
        rewrite (Hcount _ _ _ Hn). lia.
    + case_bool_decide;
        rewrite ?lookup_delete_ne, ?lookup_insert_ne by done; intros Hm;
        rewrite (Hcount i o m Hm); lia.
  - intros i o. rewrite (bucket_len_rules_remove _ _ _ _ _ _ _ Hi Ho Hrm).
    unfold netrules_remove. rewrite Hn.
    destruct (decide ((i, o) = get_name r)) as [Heq|Hne].
    + rewrite Heq. unfold get_name in Heq. inversion Heq; subst.
      rewrite Hlen. intros Hpos. case_bool_decide as Hb.
      * subst. simpl in *. lia.
      * rewrite lookup_insert_eq. by eexists.
    + intros Hpos. case_bool_decide;
        rewrite ?lookup_delete_ne, ?lookup_insert_ne by done; apply Hpres; lia.
  - rewrite (bucket_total_rules_remove _ _ _ _ _ Hi Ho Hrm). lia.
  - rewrite (netrule_total_remove _ _ _ _ Hn).
    case_bool_decide as Hb; [|lia]. subst. simpl in *. lia.
Qed.

(** A successful [remove_ProductRule] found the rule in the bucket of its
    pair, found the aggregate, and needed the cell net only when the
    bucket was emptied. *)
Lemma remove_ProductRule_inv self r w w' c :
  cells w !! self = Some c →
  remove_ProductRule self r w = Ok (tt, w') →
  ∃ inner bucket bucket' n,
    product_rules c !! get_input r = Some inner ∧
    inner !! get_output r = Some bucket ∧
    list_remove r bucket = Some bucket' ∧
    product_netrules c !! get_name r = Some n ∧
    (bucket' = [] → cellNet c = Some TheCellNet).
Proof.
  intros Hc Hrun.
  unfold remove_ProductRule, get_cellNet, bind, get_cell, put_cell,
    getitem, modify_world, registry_call, get_world, ret, raise in Hrun.
  rewrite Hc in Hrun. simpl in Hrun.
  destruct (product_rules c !! get_input r) as [inner|] eqn:Hi; [|done].
  simpl in Hrun.
  destruct (inner !! get_output r) as [bucket|] eqn:Ho; [|done].
  simpl in Hrun.
  destruct (list_remove r bucket) as [bucket'|] eqn:Hrm; [|done].
  simpl in Hrun. rewrite !lookup_insert_eq in Hrun. simpl in Hrun.
  destruct (product_netrules c !! get_name r) as [n|] eqn:Hn; [|done].
  exists inner, bucket, bucket', n. do 4 (split; [done|]).
  intros ->. simpl in Hrun.
  rewrite !lookup_insert_eq in Hrun. simpl in Hrun.
  rewrite !lookup_insert_eq in Hrun. simpl in Hrun.
  rewrite !lookup_insert_eq in Hrun. simpl in Hrun.
  destruct (cellNet c) as [[]|]; done.
Qed.

Lemma new_Cell_consistent ident si rt topo :
  cell_consistent (new_Cell ident si rt topo).
Proof.
  unfold cell_consistent, sum_invariant, new_Cell. simpl.
  split; [apply map_Forall_empty|]. split; [apply map_Forall_empty|].
  unfold bucket_total, netrule_total. by rewrite !map_sum_empty.
Qed.

Lemma consistent_netrule_present c r inner bucket :
  cell_consistent c →
  product_rules c !! get_input r = Some inner →
  inner !! get_output r = Some bucket →
  bucket ≠ [] →
  is_Some (product_netrules c !! get_name r).
Proof.
  intros (_ & Hpres & _) Hi Ho Hne. by apply (Hpres _ _ Hi _ _ Ho).
Qed.

Lemma list_remove_nil_inv x l : list_remove x l = Some [] → l = [x].
Proof.
  destruct l as [|y l]; [done|]. simpl.
  destruct (decide (y = x)) as [->|]; [by intros [= ->]|].
  by destruct (list_remove x l).
Qed.

(** C2: in a cell whose aggregates count their buckets, the rule counter
    equals the sum of the bucket lengths and the sum of the aggregate
    counts, and both equalities (and the agreement of aggregates and
    buckets) hold again after every call of [add_ProductRule] and
    [remove_ProductRule] that returns; [add_ProductRule] returns for every
    rule, [remove_ProductRule] for every rule found in the bucket of its
    pair on a cell wired to the cell net. *)
Theorem index_aggregate_totals_preserved (w : World) (self : CellRef) (c : Cell) :
  cells w !! self = Some c →
  cell_consistent c →
  sum_invariant c ∧
  (∀ obj w', add_ProductRule self obj w = Ok (tt, w') →
     ∃ c', cells w' !! self = Some c' ∧ cell_consistent c' ∧ sum_invariant c') ∧
  (∀ r w', remove_ProductRule self r w = Ok (tt, w') →
     ∃ c', cells w' !! self = Some c' ∧ cell_consistent c' ∧ sum_invariant c') ∧
  (∀ r, ∃ w', add_ProductRule self (ObjProductRule r) w = Ok (tt, w')) ∧
  (∀ r, r ∈ bucket_of (product_rules c) (get_input r) (get_output r) →
        cellNet c = Some TheCellNet →
        ∃ w', remove_ProductRule self r w = Ok (tt, w')).
Proof.
  intros Hc Hcons. split; [apply Hcons|]. split; [|split; [|split]].
  - intros [r|] w' Hrun; [|done].
    rewrite (add_ProductRule_ok _ _ _ _ Hc) in Hrun. inversion Hrun; subst.
    exists (cell_add self r c). simpl. rewrite lookup_insert_eq.
    pose proof (cell_add_consistent self r c Hcons) as Hc'.
    split; [done|]. split; [done|]. apply Hc'.
  - intros r w' Hrun.
    destruct (remove_ProductRule_inv _ _ _ _ _ Hc Hrun)
      as (inner & bucket & bucket' & n & Hi & Ho & Hrm & Hn & Hnet).
    rewrite (remove_ProductRule_ok _ _ _ _ _ _ _ _ Hc Hi Ho Hrm Hn Hnet) in Hrun.
    inversion Hrun; subst.
    exists (cell_remove r bucket' c). simpl. rewrite lookup_insert_eq.
    pose proof (cell_remove_consistent _ _ _ _ _ _ Hi Ho Hrm Hn Hcons) as Hc'.
    split; [done|]. split; [done|]. apply Hc'.
  - intros r. eexists. by apply add_ProductRule_ok.
  - intros r Hin Hnet. unfold bucket_of in Hin.
    destruct (product_rules c !! get_input r) as [inner|] eqn:Hi;
      [|by apply elem_of_nil in Hin].
    destruct (inner !! get_output r) as [bucket|] eqn:Ho;
      [|by apply elem_of_nil in Hin].
    simpl in Hin. destruct (list_remove_elem _ _ Hin) as [bucket' Hrm].
    destruct (consistent_netrule_present c r inner bucket Hcons Hi Ho) as [n Hn].
    { intros ->. by apply elem_of_nil in Hin. }
    eexists. by eapply remove_ProductRule_ok.
Qed.

Lemma index_aggregate_totals_preserved_witness :
  cells world1 !! 0%nat = Some cell_s ∧ cell_consistent cell_s ∧
  sum_invariant cell_s ∧
  ∃ w' c', remove_ProductRule 0%nat rule_12a world1 = Ok (tt, w') ∧
           cells w' !! 0%nat = Some c' ∧ sum_invariant c'.
Proof.
  assert (Hcons : cell_consistent cell_s) by (apply (bool_decide_unpack _); vm_compute; exact I).
  split; [reflexivity|]. split; [exact Hcons|].
  destruct (index_aggregate_totals_preserved world1 0%nat cell_s eq_refl Hcons)
    as (Hsum & _ & Hrem & _ & Hrun).
  split; [exact Hsum|].
  destruct (Hrun rule_12a) as [w' Hw'].
  - simpl. apply elem_of_cons. by left.
  - reflexivity.
  - destruct (Hrem rule_12a w' Hw') as (c' & Hc' & _ & Hs').
    by exists w', c'.
Defined.

(** C3: removing a rule instance found in the bucket of its pair, on a
    cell that has the aggregate of the pair and is wired to the cell net.
    When it was the last instance of the pair (nothing is left in the
    bucket), the output leaf is deleted from the inner dictionary, the
    input level is deleted too exactly when the inner dictionary is left
    empty, the aggregate of the pair is removed from the aggregate index,
    and the product-rule net receives exactly one more call, the
    retirement of that aggregate at the current step count.  When other
    instances remain, the bucket keeps them, the aggregate stays (counting
    one less) and the product-rule net receives no call. *)
Theorem remove_last_instance_cleanup (w : World) (self : CellRef) (c : Cell)
    (r : ProductRule) (inner : gmap Z (list ProductRule))
    (bucket : list ProductRule) (n : ProductNetRule) :
  cells w !! self = Some c →
  product_rules c !! get_input r = Some inner →
  inner !! get_output r = Some bucket →
  r ∈ bucket →
  product_netrules c !! get_name r = Some n →
  cellNet c = Some TheCellNet →
  ∃ bucket' w' c',
    list_remove r bucket = Some bucket' ∧
    (bucket' = [] ↔ bucket = [r]) ∧
    remove_ProductRule self r w = Ok (tt, w') ∧
    cells w' !! self = Some c' ∧
    (bucket' = [] →
       (∀ inner', product_rules c' !! get_input r = Some inner' →
                  inner' !! get_output r = None) ∧
       (delete (get_output r) inner = ∅ → product_rules c' !! get_input r = None) ∧
       (delete (get_output r) inner ≠ ∅ →
          product_rules c' !! get_input r = Some (delete (get_output r) inner)) ∧
       product_netrules c' !! get_name r = None ∧
       productRule_Net w' =
         productRule_Net w ++
           [Reg_remove_ProductNetRule (Some (subtract_from_count n)) (master_count w)]) ∧
    (bucket' ≠ [] →
       product_rules c' !! get_input r = Some (<[get_output r := bucket']> inner) ∧
       product_netrules c' !! get_name r = Some (subtract_from_count n) ∧
       productRule_Net w' = productRule_Net w).
Proof.
  intros Hc Hi Ho Hin Hn Hnet.
  destruct (list_remove_elem _ _ Hin) as [bucket' Hrm].
  exists bucket'. eexists _, (cell_remove r bucket' c).
  split; [done|]. split.
  { split.
    - intros ->. by apply list_remove_nil_inv.
    - intros ->. simpl in Hrm. rewrite decide_True in Hrm by done. congruence. }
  split; [by eapply remove_ProductRule_ok|].
  split; [simpl; apply lookup_insert_eq|].
  unfold cell_remove, rules_remove, netrules_remove, registry_after_remove. simpl.
  rewrite Hi, Hn. split.
  - intros ->. rewrite !bool_decide_eq_true_2 by done. simpl.
    split; [|split; [|split; [|split]]].
    + intros inner'. case_bool_decide as He.
      * by rewrite lookup_delete_eq.
      * rewrite lookup_insert_eq. intros [= <-]. apply lookup_delete_eq.
    + intros He. rewrite bool_decide_eq_true_2 by done. apply lookup_delete_eq.
    + intros He. rewrite bool_decide_eq_false_2 by done. apply lookup_insert_eq.
    + apply lookup_delete_eq.
    + done.
  - intros Hne. rewrite !bool_decide_eq_false_2 by done. simpl.
    split; [apply lookup_insert_eq|]. split; [apply lookup_insert_eq|done].
Qed.

Lemma remove_last_instance_cleanup_witness :
  cells world1 !! 1%nat = Some cell_t ∧
  ∃ w' c',
    remove_ProductRule 1%nat rule_23 world1 = Ok (tt, w') ∧
    cells w' !! 1%nat = Some c' ∧
    product_rules c' !! 2 = None ∧
    product_netrules c' !! (2, 3) = None ∧
    productRule_Net w' =
      [Reg_remove_ProductNetRule (Some (mkProductNetRule 2 3 0 (Some 1%nat))) 10].
Proof.
  split; [reflexivity|].
  destruct (remove_last_instance_cleanup world1 1%nat cell_t rule_23
              {[ 3 := [rule_23] ]} [rule_23] (mkProductNetRule 2 3 1 (Some 1%nat))
              eq_refl eq_refl eq_refl)
    as (bucket' & w' & c' & Hrm & _ & Hrun & Hc' & Hlast & _);
    [apply elem_of_cons; by left | reflexivity | reflexivity |].
  assert (Hb : bucket' = []) by (vm_compute in Hrm; congruence).
  destruct (Hlast Hb) as (_ & Hlevel & _ & Hagg & Hlog).
  exists w', c'. split; [exact Hrun|]. split; [exact Hc'|].
  split; [apply Hlevel; by vm_compute|]. split; [exact Hagg | exact Hlog].
Defined.

(** ** The keyed index and cells in working order *)

Lemma index_keyed_alt rules :
  index_keyed rules ↔
    ∀ i inner o bucket r,
      rules !! i = Some inner → inner !! o = Some bucket → r ∈ bucket →
      get_name r = (i, o).
Proof.
  unfold index_keyed. split.
  - intros Hk i inner o bucket r Hi Ho Hr.
    pose proof (Hk i inner Hi o bucket Ho) as Hall.
    rewrite Forall_forall in Hall. by apply Hall.
  - intros Hk i inner Hi o bucket Ho. apply Forall_forall.
    intros r Hr. by apply (Hk i inner o bucket r).
Qed.

Lemma index_keyed_rules_add r rules :
  index_keyed rules → index_keyed (rules_add r rules).
Proof.
  rewrite !index_keyed_alt. intros Hk i inner o bucket x.
  unfold rules_add, bucket_of.
  destruct (decide (i = get_input r)) as [->|Hi].
  - rewrite lookup_insert_eq. intros [= <-].
    destruct (decide (o = get_output r)) as [->|Ho].
    + rewrite lookup_insert_eq. intros [= <-]. rewrite elem_of_app.
      intros [Hx | ->%list_elem_of_singleton]; [|done].
      destruct (rules !! get_input r) as [inner0|] eqn:Hi0;
        [|by apply elem_of_nil in Hx].
      destruct (inner0 !! get_output r) as [b0|] eqn:Ho0;
        [|by apply elem_of_nil in Hx].
      by apply (Hk _ inner0 _ b0).
    + rewrite lookup_insert_ne by done.
      destruct (rules !! get_input r) as [inner0|] eqn:Hi0; simpl.
      * intros Ho0 Hx. by apply (Hk _ inner0 _ bucket).
      * by rewrite lookup_empty.
  - rewrite lookup_insert_ne by done. apply Hk.
Qed.

Lemma index_keyed_rules_remove r rules inner bucket bucket' :
  rules !! get_input r = Some inner →
  inner !! get_output r = Some bucket →
  list_remove r bucket = Some bucket' →
  index_keyed rules → index_keyed (rules_remove r bucket' rules).
Proof.
  intros Hi Ho Hrm. rewrite !index_keyed_alt. intros Hk i inner' o b x.
  unfold rules_remove. rewrite Hi.
  destruct (decide (i = get_input r)) as [->|Hne].
  - case_bool_decide as Hb; [case_bool_decide as He|].
    + by rewrite lookup_delete_eq.
    + rewrite lookup_insert_eq. intros [= <-].
      destruct (decide (o = get_output r)) as [->|Hno].
      * by rewrite lookup_delete_eq.
      * rewrite lookup_delete_ne by done. intros Ho' Hx.
        by apply (Hk _ inner _ b).
    + rewrite lookup_insert_eq. intros [= <-].
      destruct (decide (o = get_output r)) as [->|Hno].
      * rewrite lookup_insert_eq. intros [= <-] Hx.
        apply (Hk _ inner _ bucket); [done..|].
        by apply (list_remove_sub _ _ _ _ Hrm).
      * rewrite lookup_insert_ne by done. intros Ho' Hx.
        by apply (Hk _ inner _ b).
  - case_bool_decide as Hb; [case_bool_decide as He|];
      rewrite ?lookup_delete_ne, ?lookup_insert_ne by done; apply Hk.
Qed.

Lemma index_tight_rules_add r rules :
  index_tight rules → index_tight (rules_add r rules).
Proof.
  intros Ht i inner. unfold rules_add, bucket_of.
  destruct (decide (i = get_input r)) as [->|Hi].
  - rewrite lookup_insert_eq. intros [= <-].
    split; [apply insert_non_empty|].
    intros o bucket. destruct (decide (o = get_output r)) as [->|Ho].
    + rewrite lookup_insert_eq. intros [= <-]. by intros [_ ?]%app_eq_nil.
    + rewrite lookup_insert_ne by done.
      destruct (rules !! get_input r) as [inner0|] eqn:Hi0; simpl.
      * intros Ho0. by apply (proj2 (Ht _ inner0 Hi0) o).
      * by rewrite lookup_empty.
  - rewrite lookup_insert_ne by done. apply Ht.
Qed.

Lemma index_tight_rules_remove r rules inner bucket' :
  rules !! get_input r = Some inner →
  index_tight rules → index_tight (rules_remove r bucket' rules).
Proof.
  intros Hi Ht i inner'. unfold rules_remove. rewrite Hi.
  destruct (Ht _ inner Hi) as [_ Hb].
  destruct (decide (i = get_input r)) as [->|Hne].
  - case_bool_decide as Hnil; [case_bool_decide as He|].
    + by rewrite lookup_delete_eq.
    + rewrite lookup_insert_eq. intros [= <-]. split; [done|].
      intros o b Ho. apply lookup_delete_Some in Ho as [_ Ho]. by apply (Hb o).
    + rewrite lookup_insert_eq. intros [= <-].
      split; [apply insert_non_empty|].
      intros o b. destruct (decide (o = get_output r)) as [->|Hno].
      * rewrite lookup_insert_eq. by intros [= <-].
      * rewrite lookup_insert_ne by done. apply Hb.
  - case_bool_decide as Hnil; [case_bool_decide as He|];
      rewrite ?lookup_delete_ne, ?lookup_insert_ne by done; apply Ht.
Qed.

Lemma cell_add_wf self r c : cell_wf c → cell_wf (cell_add self r c).
Proof.
  intros (Hcons & Hkey & Htight & Hnet). split; [by apply cell_add_consistent|].
  split; [by apply index_keyed_rules_add|].
  split; [by apply index_tight_rules_add | done].
Qed.

Lemma cell_remove_wf r c inner bucket bucket' n :
  product_rules c !! get_input r = Some inner →
  inner !! get_output r = Some bucket →
  list_remove r bucket = Some bucket' →
  product_netrules c !! get_name r = Some n →
  cell_wf c → cell_wf (cell_remove r bucket' c).
Proof.
  intros Hi Ho Hrm Hn (Hcons & Hkey & Htight & Hnet).
  split; [by eapply cell_remove_consistent|].
  split; [by eapply index_keyed_rules_remove|].
  split; [by eapply index_tight_rules_remove | done].
Qed.

(** ** The instances of a cell and of the network *)

Lemma elem_of_flat_map {A B} (f : A → list B) (l : list A) (y : B) :
  y ∈ flat_map f l ↔ ∃ x, x ∈ l ∧ y ∈ f x.
Proof.
  rewrite list_elem_of_In, in_flat_map. split.
  - intros (x & Hx & Hy). exists x. by rewrite !list_elem_of_In.
  - intros (x & Hx & Hy). exists x. by rewrite <- !list_elem_of_In.
Qed.

Lemma elem_of_keys `{Countable K} {V} (d : gmap K V) (k : K) :
  k ∈ keys d ↔ is_Some (d !! k).
Proof.
  unfold keys. rewrite list_elem_of_fmap. split.
  - intros ([k' v] & -> & Hin). apply elem_of_map_to_list in Hin. by exists v.
  - intros [v Hv]. exists (k, v). split; [done|]. by apply elem_of_map_to_list.
Qed.

Lemma elem_of_rule_candidates rules r :
  r ∈ rule_candidates rules ↔
    ∃ i inner o bucket,
      rules !! i = Some inner ∧ inner !! o = Some bucket ∧ r ∈ bucket.
Proof.
  unfold rule_candidates. rewrite elem_of_flat_map. split.
  - intros (i & _ & Hr). destruct (rules !! i) as [inner|] eqn:Hi;
      [|by apply elem_of_nil in Hr].
    apply elem_of_flat_map in Hr as (o & _ & Hr).
    destruct (inner !! o) as [bucket|] eqn:Ho; [|by apply elem_of_nil in Hr].
    by exists i, inner, o, bucket.
  - intros (i & inner & o & bucket & Hi & Ho & Hr). exists i.
    split; [apply elem_of_keys; by eexists|]. rewrite Hi.
    apply elem_of_flat_map. exists o.
    split; [apply elem_of_keys; by eexists|]. by rewrite Ho.
Qed.

Lemma elem_of_network_rules w owner r :
  (owner, r) ∈ network_rules w ↔
    ∃ c, cells w !! owner = Some c ∧ r ∈ rule_candidates (product_rules c).
Proof.
  unfold network_rules. rewrite elem_of_flat_map. split.
  - intros (k & _ & Hr). destruct (cells w !! k) as [c|] eqn:Hk;
      [|by apply elem_of_nil in Hr].
    apply list_elem_of_fmap in Hr as (r' & [= -> ->] & Hr'). by exists c.
  - intros (c & Hc & Hr). exists owner.
    split; [apply elem_of_keys; by eexists|]. rewrite Hc.
    apply list_elem_of_fmap. by exists r.
Qed.

(** The new instance is among the instances of the cell it was added to. *)
Lemma rule_candidates_rules_add r rules : r ∈ rule_candidates (rules_add r rules).
Proof.
  apply elem_of_rule_candidates. unfold rules_add.
  eexists (get_input r), _, (get_output r), _.
  split; [apply lookup_insert_eq|]. split; [apply lookup_insert_eq|].
  apply elem_of_app. right. by apply list_elem_of_singleton.
Qed.

(** ** The total over the network *)

Lemma total_rule_count_insert w k c c' cs :
  cells w !! k = Some c →
  total_rule_count (set_cells (<[k := c']> (cells w)) cs) =
    total_rule_count w - bucket_total (product_rules c) + bucket_total (product_rules c').
Proof.
  intros Hk. unfold total_rule_count. simpl.
  by rewrite (map_sum_insert_Some _ _ _ _ _ Hk).
Qed.

(** ** Reproduction and extinction *)

Lemma world_after_add_wf self new c w :
  world_wf w → cells w !! self = Some c →
  world_wf (world_after_add self new c w).
Proof.
  intros Hwf Hc. unfold world_wf, world_after_add. simpl.
  apply map_Forall_insert_2; [|done]. apply cell_add_wf. by apply (Hwf self).
Qed.

Lemma world_after_add_total self new c w :
  cells w !! self = Some c →
  total_rule_count (world_after_add self new c w) = total_rule_count w + 1.
Proof.
  intros Hc. unfold world_after_add, total_rule_count. simpl.
  rewrite (map_sum_insert_Some _ _ _ _ _ Hc). simpl.
  rewrite bucket_total_rules_add. lia.
Qed.

Lemma world_after_remove_wf owner victim co inner bucket bucket' n w :
  world_wf w → cells w !! owner = Some co →
  product_rules co !! get_input victim = Some inner →
  inner !! get_output victim = Some bucket →
  list_remove victim bucket = Some bucket' →
  product_netrules co !! get_name victim = Some n →
  world_wf (world_after_remove owner victim bucket' co w).
Proof.
  intros Hwf Hc Hi Ho Hrm Hn. unfold world_wf, world_after_remove. simpl.
  apply map_Forall_insert_2; [|done].
  eapply cell_remove_wf; [done..|]. by apply (Hwf owner).
Qed.

Lemma world_after_remove_total owner victim co inner bucket bucket' w :
  cells w !! owner = Some co →
  product_rules co !! get_input victim = Some inner →
  inner !! get_output victim = Some bucket →
  list_remove victim bucket = Some bucket' →
  total_rule_count (world_after_remove owner victim bucket' co w) =
    total_rule_count w - 1.
Proof.
  intros Hc Hi Ho Hrm. unfold world_after_remove, total_rule_count. simpl.
  rewrite (map_sum_insert_Some _ _ _ _ _ Hc). simpl.
  rewrite (bucket_total_rules_remove _ _ _ _ _ Hi Ho Hrm). lia.
Qed.

(** In a network in working order every instance can be removed through
    its owner. *)
Lemma network_rule_removable w owner victim :
  world_wf w → (owner, victim) ∈ network_rules w →
  ∃ co inner bucket bucket' n,
    cells w !! owner = Some co ∧
    product_rules co !! get_input victim = Some inner ∧
    inner !! get_output victim = Some bucket ∧
    victim ∈ bucket ∧
    list_remove victim bucket = Some bucket' ∧
    product_netrules co !! get_name victim = Some n ∧
    cellNet co = Some TheCellNet.
Proof.
  intros Hwf Hin. apply elem_of_network_rules in Hin as (co & Hco & Hr).
  destruct (Hwf owner co Hco) as (Hcons & Hkey & _ & Hnet).
  apply elem_of_rule_candidates in Hr as (i & inner & o & bucket & Hi & Ho & Hr).
  pose proof (proj1 (index_keyed_alt _) Hkey i inner o bucket victim Hi Ho Hr) as Hname.
  unfold get_name in Hname. inversion Hname; subst.
  destruct (list_remove_elem _ _ Hr) as [bucket' Hrm].
  destruct (consistent_netrule_present co victim inner bucket Hcons Hi Ho) as [n Hn].
  { intros ->. by apply elem_of_nil in Hr. }
  by exists co, inner, bucket, bucket', n.
Qed.

(** The extinction draw on a network in working order that holds at least
    one instance: the instance at the drawn index is removed through its
    owner. *)
Lemma remove_random_rule_ok w :
  world_wf w → network_rules w ≠ [] →
  ∃ owner victim co inner bucket bucket',
    network_rules w !! next_index w (length (network_rules w)) = Some (owner, victim) ∧
    cells w !! owner = Some co ∧
    product_rules co !! get_input victim = Some inner ∧
    inner !! get_output victim = Some bucket ∧
    victim ∈ bucket ∧
    list_remove victim bucket = Some bucket' ∧
    is_Some (product_netrules co !! get_name victim) ∧
    remove_random_rule w =
      Ok (tt, world_after_remove owner victim bucket' co (advance_RNG w)).
Proof.
  intros Hwf Hne.
  destruct (sample1_ok _ w Hne) as ([owner victim] & Hidx & Hs).
  assert (Hin : (owner, victim) ∈ network_rules w)
    by (apply list_elem_of_lookup; eauto).
  destruct (network_rule_removable w owner victim Hwf Hin)
    as (co & inner & bucket & bucket' & n & Hco & Hi & Ho & Hr & Hrm & Hn & Hnet).
  exists owner, victim, co, inner, bucket, bucket'.
  do 6 (split; [done|]). split; [by eexists|].
  unfold remove_random_rule, get_world. unfold bind at 1.
  rewrite (bind_ok _ _ _ _ _ Hs). simpl.
  by apply (remove_ProductRule_ok _ _ _ _ inner bucket bucket' n).
Qed.

(** [reproduce_active_rule] on a cell with an active rule, in a network in
    working order: a new object of the rule's pair is added to the cell,
    the step is noted, and the extinction draw removes one instance. *)
Lemma reproduce_active_rule_ok w self c r :
  world_wf w → cells w !! self = Some c → active_rule c = Some r →
  let new := mkProductRule (get_input r) (get_output r) (next_ident w) in
  let w1 := set_last_added_rule (master_count w)
              (world_after_add self new c (set_next_ident (S (next_ident w)) w)) in
  world_wf w1 ∧
  total_rule_count w1 = total_rule_count w + 1 ∧
  ∃ owner victim co inner bucket bucket',
    network_rules w1 !! next_index w1 (length (network_rules w1)) = Some (owner, victim) ∧
    cells w1 !! owner = Some co ∧
    product_rules co !! get_input victim = Some inner ∧
    inner !! get_output victim = Some bucket ∧
    victim ∈ bucket ∧
    list_remove victim bucket = Some bucket' ∧
    is_Some (product_netrules co !! get_name victim) ∧
    remove_random_rule w1 =
      Ok (tt, world_after_remove owner victim bucket' co (advance_RNG w1)) ∧
    reproduce_active_rule self w =
      Ok (tt, world_after_remove owner victim bucket' co (advance_RNG w1)).
Proof.
  intros Hwf Hc Hr new w1.
  assert (Hwf1 : world_wf w1).
  { apply (world_after_add_wf self new c (set_next_ident (S (next_ident w)) w)); done. }
  assert (Hne : network_rules w1 ≠ []).
  { assert (Hin : (self, new) ∈ network_rules w1).
    { apply elem_of_network_rules. exists (cell_add self new c).
      split; [simpl; apply lookup_insert_eq|]. apply rule_candidates_rules_add. }
    intros Hnil. rewrite Hnil in Hin. by apply elem_of_nil in Hin. }
  split; [done|]. split.
  { apply (world_after_add_total self new c (set_next_ident (S (next_ident w)) w)); done. }
  destruct (remove_random_rule_ok w1 Hwf1 Hne)
    as (owner & victim & co & inner & bucket & bucket' & Hidx & Hco & Hi & Ho & Hv & Hrm & Hn & Hrun).
  exists owner, victim, co, inner, bucket, bucket'. do 8 (split; [done|]).
  unfold reproduce_active_rule. rewrite (bind_get_cell _ _ _ _ Hc), Hr.
  unfold new_ProductRule. unfold bind at 1.
  erewrite bind_ok; [|by apply (add_ProductRule_ok self new _ c)].
  unfold get_cellNet. rewrite bind_assoc.
  erewrite bind_get_cell; [|simpl; apply lookup_insert_eq].
  simpl. destruct (Hwf self c Hc) as (_ & _ & _ & ->).
  rewrite bind_ret. unfold bind at 1. simpl. exact Hrun.
Qed.






(** ** The accepting path of [receive_product] *)

(** What [reproduce_active_rule] does to each cell: the reproducing cell
    gains an instance of the active rule's pair, the owner of the victim
    loses one of the victim's pair, nothing else changes. *)
Lemma reproduce_active_rule_effect w self c r :
  world_wf w → cells w !! self = Some c → active_rule c = Some r →
  ∃ w2 owner victim,
    reproduce_active_rule self w = Ok (tt, w2) ∧
    world_wf w2 ∧
    total_rule_count w2 = total_rule_count w ∧
    master_count w2 = master_count w ∧
    urn w2 = urn w ∧
    ∀ k ck, cells w !! k = Some ck →
      ∃ ck2, cells w2 !! k = Some ck2 ∧
        products ck2 = products ck ∧
        active_rule ck2 = active_rule ck ∧
        repro_type ck2 = repro_type ck ∧
        (k ≠ self → k ≠ owner → ck2 = ck) ∧
        ∀ i o, bucket_len (product_rules ck2) i o =
                 bucket_len (product_rules ck) i o
                 + (if decide (k = self ∧ (i, o) = get_name r) then 1 else 0)
                 - (if decide (k = owner ∧ (i, o) = get_name victim) then 1 else 0).
Proof.
  intros Hwf Hc Hr.
  destruct (reproduce_active_rule_ok w self c r Hwf Hc Hr)
    as (Hwf1 & Htot1 & owner & victim & co & inner & bucket & bucket'
        & Hidx & Hco & Hi & Ho & Hv & Hrm & [n Hn] & Hext & Hrun).
  set (new := mkProductRule (get_input r) (get_output r) (next_ident w)) in *.
  set (w1 := set_last_added_rule (master_count w)
               (world_after_add self new c (set_next_ident (S (next_ident w)) w))) in *.
  exists (world_after_remove owner victim bucket' co (advance_RNG w1)), owner, victim.
  split; [done|]. split.
  { by apply (world_after_remove_wf owner victim co inner bucket bucket' n (advance_RNG w1)). }
  split.
  { rewrite (world_after_remove_total owner victim co inner bucket bucket' (advance_RNG w1))
      by done.
    change (total_rule_count (advance_RNG w1)) with (total_rule_count w1). lia. }
  split; [done|]. split; [done|].
  intros k ck Hk.
  assert (H1 : ∃ ck1, cells w1 !! k = Some ck1 ∧
            products ck1 = products ck ∧ active_rule ck1 = active_rule ck ∧
            repro_type ck1 = repro_type ck ∧ (k ≠ self → ck1 = ck) ∧
            ∀ i o, bucket_len (product_rules ck1) i o =
                     bucket_len (product_rules ck) i o
                     + (if decide (k = self ∧ (i, o) = get_name r) then 1 else 0)).
  { simpl. destruct (decide (k = self)) as [->|Hne].
    - rewrite lookup_insert_eq. assert (ck = c) as -> by congruence.
      eexists. split; [done|]. do 3 (split; [done|]). split; [done|].
      intros i o. simpl.
      rewrite (bucket_len_rules_add new (product_rules c) i o).
      change (get_name new) with (get_name r).
      destruct (decide ((i, o) = get_name r)).
      + by rewrite decide_True.
      + by rewrite decide_False by (by intros [_ ?]).
    - rewrite lookup_insert_ne by done. exists ck. split; [done|].
      do 3 (split; [done|]). split; [done|]. intros i o.
      rewrite decide_False by (by intros [? _]). lia. }
  destruct H1 as (ck1 & Hk1 & Hp1 & Ha1 & Ht1 & Hsame1 & Hlen1).
  simpl. destruct (decide (k = owner)) as [->|Hne].
  - rewrite lookup_insert_eq. assert (ck1 = co) as -> by congruence.
    eexists. split; [done|]. do 3 (split; [done|]). split; [done|].
    intros i o. simpl.
    rewrite (bucket_len_rules_remove _ _ _ _ _ _ _ Hi Ho Hrm), Hlen1.
    destruct (decide ((i, o) = get_name victim)).
    + by rewrite (decide_True (P := owner = owner ∧ _)).
    + by rewrite (decide_False (P := owner = owner ∧ _)) by (by intros [_ ?]).
  - rewrite lookup_insert_ne by done. exists ck1. split; [exact Hk1|].
    do 3 (split; [done|]). split; [by intros ? _; apply Hsame1|].
    intros i o. rewrite Hlen1.
    rewrite (decide_False (P := k = owner ∧ _)) by (by intros [? _]). lia.
Qed.

(** C5, as stated, fails: under the "source" policy the recipient's rule
    set can change.  Cell 0 sends a product of type 2 to cell 1, which
    holds one rule 2 -> 3 and therefore accepts; the reproduction on the
    sender triggers the extinction draw, the draw falls on the recipient's
    only rule, and the recipient is left with an empty rule index (and the
    stored product). *)
Lemma source_policy_recipient_loses_rule :
  is_Some (product_rules cell_t !! get_type (mkProduct 2 7)) ∧
  repro_type cell_t = "source" ∧
  active_rule cell_s = Some rule_12a ∧
  ∃ w' t',
    receive_product 1%nat 0%nat (mkProduct 2 7) 2 0%nat false world1 = Ok (tt, w') ∧
    cells w' !! 1%nat = Some t' ∧
    product_rules t' = ∅ ∧
    product_rules t' ≠ product_rules cell_t ∧
    count_rules t' = 0 ∧ count_rules cell_t = 1 ∧
    products t' !! 2 = Some [mkProduct 2 7].
Proof.
  split; [by eexists|]. split; [reflexivity|]. split; [reflexivity|].
  eexists _, _. split; [vm_compute; reflexivity|].
  split; [vm_compute; reflexivity|].
  split; [reflexivity|]. split; [|split; [reflexivity|split; reflexivity]].
  intros Heq. apply (f_equal (λ m, m !! 2)) in Heq. vm_compute in Heq. discriminate.
Qed.

Lemma receive_product_accept_prefix w self sender c product prohibited who debug :
  cells w !! self = Some c → cellNet c = Some TheCellNet →
  is_Some (product_rules c !! get_type product) →
  receive_product self sender product prohibited who debug w =
    bind (if bool_decide (repro_type c = "target")
          then
            r <- get_random_rule_of_type self (get_type product) ;;
            c <- get_cell self ;;
            put_cell self (set_active (Some r) c) ;;
            reproduce_active_rule self ;;
            c <- get_cell self ;;
            put_cell self (set_active None c)
          else if bool_decide (repro_type c = "source")
          then
            reproduce_active_rule sender ;;
            s <- get_cell sender ;;
            put_cell sender (set_active None s)
          else ret tt)
         (λ _, add_Product self product)
         (set_master_count (master_count w + 1) w).
Proof.
  intros Hc Hnet Hhas.
  unfold receive_product, get_cellNet, has_rule.
  rewrite bind_assoc, (bind_get_cell _ _ _ _ Hc), Hnet.
  unfold bind at 1. simpl.
  unfold bind at 1. simpl.
  rewrite bind_assoc. erewrite bind_get_cell by exact Hc.
  rewrite bind_ret, bool_decide_eq_true_2 by done.
  by erewrite bind_get_cell by exact Hc.
Qed.

Lemma total_rule_count_same_rules w k c c' cs :
  cells w !! k = Some c → product_rules c' = product_rules c →
  total_rule_count (set_cells (<[k := c']> (cells w)) cs) = total_rule_count w.
Proof.
  intros Hk Heq. rewrite (total_rule_count_insert w k c c' cs Hk), Heq. lia.
Qed.

(** The "source" policy of the accepting path. *)
Lemma receive_product_source w self sender c s r product prohibited who debug :
  world_wf w → cells w !! self = Some c →
  is_Some (product_rules c !! get_type product) →
  repro_type c = "source" →
  cells w !! sender = Some s → active_rule s = Some r →
  ∃ w' owner victim s' c',
    receive_product self sender product prohibited who debug w = Ok (tt, w') ∧
    total_rule_count w' = total_rule_count w ∧
    master_count w' = master_count w + 1 ∧
    urn w' = urn w ∧
    cells w' !! sender = Some s' ∧
    active_rule s' = None ∧
    (∀ i o, bucket_len (product_rules s') i o =
              bucket_len (product_rules s) i o
              + (if decide ((i, o) = get_name r) then 1 else 0)
              - (if decide (sender = owner ∧ (i, o) = get_name victim) then 1 else 0)) ∧
    cells w' !! self = Some c' ∧
    products c' =
      <[get_type product := default [] (products c !! get_type product) ++ [product]]>
        (products c) ∧
    (sender ≠ self →
       (∀ i o, bucket_len (product_rules c') i o =
                 bucket_len (product_rules c) i o
                 - (if decide (self = owner ∧ (i, o) = get_name victim) then 1 else 0)) ∧
       (owner ≠ self →
          product_rules c' = product_rules c ∧
          product_netrules c' = product_netrules c ∧
          count_rules c' = count_rules c)).
Proof.
  intros Hwf Hc Hhas Hsrc Hs Hr.
  destruct (Hwf self c Hc) as (_ & _ & _ & Hnet).
  set (w0 := set_master_count (master_count w + 1) w).
  assert (Hwf0 : world_wf w0) by exact Hwf.
  destruct (reproduce_active_rule_effect w0 sender s r Hwf0 Hs Hr)
    as (w2 & owner & victim & Hrun & Hwf2 & Htot2 & Hmc2 & Hurn2 & Heff).
  destruct (Heff sender s Hs) as (s2 & Hs2 & Hps2 & _ & _ & _ & Hlens).
  destruct (Heff self c Hc) as (c2 & Hc2 & Hpc2 & _ & _ & Hsamec & Hlenc).
  set (w3 := set_cells (<[sender := set_active None s2]> (cells w2)) w2).
  assert (H3 : ∃ c3, cells w3 !! self = Some c3 ∧ products c3 = products c ∧
                     product_rules c3 = product_rules c2 ∧
                     product_netrules c3 = product_netrules c2 ∧
                     count_rules c3 = count_rules c2 ∧
                     (sender = self → active_rule c3 = None)).
  { simpl. destruct (decide (sender = self)) as [->|Hne].
    - rewrite lookup_insert_eq. eexists. split; [done|].
      assert (s2 = c2) as -> by congruence. by repeat split.
    - rewrite lookup_insert_ne by done. exists c2. by repeat split. }
  destruct H3 as (c3 & Hc3 & Hp3 & Hr3 & Hn3 & Hcnt3 & Hact3).
  set (c4 := set_products
                (<[get_type product :=
                     default [] (products c3 !! get_type product) ++ [product]]>
                   (products c3)) c3).
  set (w4 := set_cells (<[self := c4]> (cells w3)) w3).
  assert (Hrecv : receive_product self sender product prohibited who debug w = Ok (tt, w4)).
  { rewrite (receive_product_accept_prefix _ _ _ _ _ _ _ _ Hc Hnet Hhas).
    rewrite Hsrc. rewrite bool_decide_eq_false_2 by done.
    rewrite bool_decide_eq_true_2 by done.
    rewrite bind_assoc. rewrite (bind_ok _ _ _ _ _ Hrun).
    rewrite bind_assoc. rewrite (bind_get_cell _ _ _ _ Hs2).
    rewrite bind_put_cell. fold w3.
    apply (add_Product_ok self product w3 c3 Hc3). }
  assert (Htot4 : total_rule_count w4 = total_rule_count w).
  { unfold w4. rewrite (total_rule_count_same_rules w3 self c3 _ w3 Hc3) by done.
    unfold w3. rewrite (total_rule_count_same_rules w2 sender s2 _ w2 Hs2) by done.
    exact Htot2. }
  assert (Hc4 : cells w4 !! self = Some c4) by (simpl; apply lookup_insert_eq).
  assert (Hp4 : products c4 =
                <[get_type product := default [] (products c !! get_type product) ++ [product]]>
                  (products c)) by (simpl; by rewrite Hp3).
  destruct (decide (sender = self)) as [Heq|Hne].
  - subst sender.
    assert (s = c) by congruence. subst s.
    assert (s2 = c2) by congruence. subst s2.
    exists w4, owner, victim, c4, c4.
    do 4 (split; [done|]). split; [done|]. split; [simpl; by apply Hact3|].
    split.
    { intros i o. simpl. rewrite Hr3, Hlens.
      destruct (decide ((i, o) = get_name r)).
      - by rewrite (decide_True (P := self = self ∧ _)).
      - by rewrite (decide_False (P := self = self ∧ _)) by (by intros [_ ?]). }
    split; [done|]. split; [done|]. done.
  - exists w4, owner, victim, (set_active None s2), c4.
    do 4 (split; [done|]).
    split; [simpl; rewrite lookup_insert_ne by done; apply lookup_insert_eq|].
    split; [done|].
    split.
    { intros i o. simpl. rewrite Hlens.
      destruct (decide ((i, o) = get_name r)).
      - by rewrite (decide_True (P := sender = sender ∧ _)).
      - by rewrite (decide_False (P := sender = sender ∧ _)) by (by intros [_ ?]). }
    split; [done|]. split; [done|].
    intros _. split.
    + intros i o. simpl. rewrite Hr3, Hlenc.
      rewrite (decide_False (P := self = sender ∧ _)) by (by intros [? _]). lia.
    + intros Hown. simpl. rewrite Hr3, Hn3, Hcnt3.
      by rewrite (Hsamec (not_eq_sym Hne) (not_eq_sym Hown)).
Qed.

(** The instances a cell in working order holds for an input type it has
    a key for: there is at least one, and each has that input type. *)
Lemma candidates_of_type c t inner :
  cell_wf c → product_rules c !! t = Some inner →
  flat_map (λ output, default [] (inner !! output)) (keys inner) ≠ [] ∧
  ∀ r, r ∈ flat_map (λ output, default [] (inner !! output)) (keys inner) →
       get_input r = t ∧ r ∈ rule_candidates (product_rules c).
Proof.
  intros (_ & Hkey & Htight & _) Hi. split.
  - destruct (Htight t inner Hi) as [Hne Hb].
    apply map_choose in Hne as (o & bucket & Ho).
    pose proof (Hb o bucket Ho) as Hbne.
    destruct bucket as [|x bucket]; [done|].
    assert (Hx : x ∈ flat_map (λ output, default [] (inner !! output)) (keys inner)).
    { apply elem_of_flat_map. exists o. split; [apply elem_of_keys; by eexists|].
      rewrite Ho. simpl. apply elem_of_cons. by left. }
    intros Hnil. rewrite Hnil in Hx. by apply elem_of_nil in Hx.
  - intros r (o & _ & Hr)%elem_of_flat_map.
    destruct (inner !! o) as [bucket|] eqn:Ho; [|by apply elem_of_nil in Hr].
    simpl in Hr.
    pose proof (proj1 (index_keyed_alt _) Hkey t inner o bucket r Hi Ho Hr) as Hname.
    split; [by inversion Hname|].
    apply elem_of_rule_candidates. by exists t, inner, o, bucket.
Qed.

(** The "target" policy of the accepting path. *)
Lemma receive_product_target w self sender c product prohibited who debug :
  world_wf w → cells w !! self = Some c →
  is_Some (product_rules c !! get_type product) →
  repro_type c = "target" →
  ∃ w' r owner victim c',
    receive_product self sender product prohibited who debug w = Ok (tt, w') ∧
    r ∈ rule_candidates (product_rules c) ∧
    get_input r = get_type product ∧
    total_rule_count w' = total_rule_count w ∧
    master_count w' = master_count w + 1 ∧
    urn w' = urn w ∧
    cells w' !! self = Some c' ∧
    active_rule c' = None ∧
    products c' =
      <[get_type product := default [] (products c !! get_type product) ++ [product]]>
        (products c) ∧
    ∀ i o, bucket_len (product_rules c') i o =
             bucket_len (product_rules c) i o
             + (if decide ((i, o) = get_name r) then 1 else 0)
             - (if decide (self = owner ∧ (i, o) = get_name victim) then 1 else 0).
Proof.
  intros Hwf Hc [inner Hi] Htgt.
  pose proof (Hwf self c Hc) as Hcwf.
  destruct (candidates_of_type c _ inner Hcwf Hi) as [Hne Hcand].
  destruct Hcwf as (Hcons & Hkey & Htight & Hnet).
  set (w0 := set_master_count (master_count w + 1) w).
  destruct (sample1_ok _ w0 Hne) as (r & Hidx & Hs).
  assert (Hrin : r ∈ flat_map (λ output, default [] (inner !! output)) (keys inner))
    by (apply list_elem_of_lookup; eauto).
  destruct (Hcand r Hrin) as [Hrt Hrc].
  set (cA := set_active (Some r) c).
  set (wA := set_cells (<[self := cA]> (cells (advance_RNG w0))) (advance_RNG w0)).
  assert (HwfA : world_wf wA).
  { unfold world_wf, wA. simpl. apply map_Forall_insert_2; [|exact Hwf].
    by split; [|split; [|split]]. }
  assert (HcA : cells wA !! self = Some cA) by (simpl; apply lookup_insert_eq).
  destruct (reproduce_active_rule_effect wA self cA r HwfA HcA eq_refl)
    as (w2 & owner & victim & Hrun & Hwf2 & Htot2 & Hmc2 & Hurn2 & Heff).
  destruct (Heff self cA HcA) as (c2 & Hc2 & Hpc2 & _ & _ & _ & Hlenc).
  set (w3 := set_cells (<[self := set_active None c2]> (cells w2)) w2).
  assert (Hc3 : cells w3 !! self = Some (set_active None c2))
    by (simpl; apply lookup_insert_eq).
  set (c4 := set_products
                (<[get_type product :=
                     default [] (products (set_active None c2) !! get_type product)
                       ++ [product]]>
                   (products (set_active None c2))) (set_active None c2)).
  set (w4 := set_cells (<[self := c4]> (cells w3)) w3).
  exists w4, r, owner, victim, c4. split.
  { rewrite (receive_product_accept_prefix _ _ _ _ _ _ _ _ Hc Hnet (ex_intro _ _ Hi)).
    rewrite Htgt. rewrite bool_decide_eq_true_2 by done.
    unfold get_random_rule_of_type. rewrite !bind_assoc.
    erewrite bind_get_cell by exact Hc.
    unfold getitem. rewrite Hi. rewrite bind_assoc, bind_ret.
    rewrite (bind_ok _ _ _ _ _ Hs).
    rewrite bind_assoc. erewrite bind_get_cell by exact Hc.
    rewrite bind_assoc, bind_put_cell. fold cA. fold wA.
    rewrite bind_assoc, (bind_ok _ _ _ _ _ Hrun).
    rewrite bind_assoc, (bind_get_cell _ _ _ _ Hc2).
    rewrite bind_put_cell. fold w3.
    apply (add_Product_ok self product w3 _ Hc3). }
  split; [done|]. split; [done|]. split.
  { unfold w4. rewrite (total_rule_count_same_rules w3 self _ c4 w3 Hc3) by done.
    unfold w3. rewrite (total_rule_count_same_rules w2 self c2 _ w2 Hc2) by done.
    rewrite Htot2. unfold wA.
    apply (total_rule_count_same_rules (advance_RNG w0) self c cA _ Hc). done. }
  split; [done|]. split; [done|].
  split; [simpl; apply lookup_insert_eq|]. split; [done|].
  split; [simpl; by rewrite Hpc2|].
  intros i o. simpl. rewrite Hlenc. simpl.
  destruct (decide ((i, o) = get_name r)).
  - by rewrite (decide_True (P := self = self ∧ _)).
  - by rewrite (decide_False (P := self = self ∧ _)) by (by intros [_ ?]).
Qed.

(** Under the "source" policy a cell that delivers to itself is the sender
    as well as the recipient, and gains the reproduced instance: cell 0
    holds one rule 1 -> 2, which is active, and receives a product of type
    1 from itself; the extinction draw falls on the rule of cell 1, and
    cell 0 is left with two instances of the rule, no active rule, and the
    stored product. *)
Lemma source_policy_self_delivery_gains_rule :
  let c0 := mkCell true (0, 0) [] {[ 1 := {[ 2 := [rule_12a] ]} ]}
              {[ (1, 2) := mkProductNetRule 1 2 1 (Some 0%nat) ]}
              ∅ 1 (Some rule_12a) 0 "source" false "spatial" (Some TheCellNet) in
  let w := mkWorld {[ 0%nat := c0; 1%nat := cell_t ]} 10 0 [] [] (mkRNG (λ n, n) 0) 200 in
  ∃ w' c',
    receive_product 0%nat 0%nat (mkProduct 1 7) 1 0%nat false w = Ok (tt, w') ∧
    cells w' !! 0%nat = Some c' ∧
    bucket_of (product_rules c') 1 2 = [rule_12a; mkProductRule 1 2 200] ∧
    count_rules c' = 2 ∧ count_rules c0 = 1 ∧
    active_rule c' = None ∧
    products c' !! 1 = Some [mkProduct 1 7].
Proof.
  intros c0 w. eexists _, _. split; [vm_compute; reflexivity|].
  split; [vm_compute; reflexivity|].
  split; [vm_compute; reflexivity|]. by repeat split.
Qed.

(** C5 (amended): [receive_product] on a network in working order, for a
    recipient that has a rule accepting the product's type.  Under the
    "source" policy the sender's active rule is reproduced (the sender
    gains one instance of its pair, and the extinction draw that belongs
    to the reproduction removes one instance from the cell that owns it),
    the sender's active rule is set to [None], and the product is pushed
    on the recipient's inventory.  When the sender is another cell than
    the recipient, the recipient itself reproduces nothing: it gains no
    instance, and its rule set is as before unless the extinction draw
    falls on it, in which case it loses that one instance.  When a cell
    delivers to itself it is the sender: it is the cell that gains the
    reproduced instance and whose active rule is set to [None].
    Under the "target" policy the recipient reproduces a rule of its own
    that accepts the product's type (it gains one instance of that rule's
    pair, with the same extinction draw), its active rule ends as [None],
    and the product is pushed on its inventory likewise.  In both cases
    the total number of instances of the network is as before. *)
Theorem receive_product_accepts (w : World) (self sender who : CellRef) (c : Cell)
    (product : Product) (prohibited : Z) (debug : bool) :
  world_wf w → cells w !! self = Some c →
  is_Some (product_rules c !! get_type product) →
  (repro_type c = "source" →
   ∀ s r, cells w !! sender = Some s → active_rule s = Some r →
   ∃ w' owner victim s' c',
     receive_product self sender product prohibited who debug w = Ok (tt, w') ∧
     total_rule_count w' = total_rule_count w ∧
     cells w' !! sender = Some s' ∧
     active_rule s' = None ∧
     (∀ i o, bucket_len (product_rules s') i o =
               bucket_len (product_rules s) i o
               + (if decide ((i, o) = get_name r) then 1 else 0)
               - (if decide (sender = owner ∧ (i, o) = get_name victim) then 1 else 0)) ∧
     cells w' !! self = Some c' ∧
     products c' =
       <[get_type product := default [] (products c !! get_type product) ++ [product]]>
         (products c) ∧
     (sender ≠ self →
        (∀ i o, bucket_len (product_rules c') i o =
                  bucket_len (product_rules c) i o
                  - (if decide (self = owner ∧ (i, o) = get_name victim) then 1 else 0)) ∧
        (owner ≠ self →
           product_rules c' = product_rules c ∧
           product_netrules c' = product_netrules c ∧
           count_rules c' = count_rules c)) ∧
     (sender = self →
        c' = s' ∧ s = c ∧ active_rule c' = None ∧
        ∀ i o, bucket_len (product_rules c') i o =
                 bucket_len (product_rules c) i o
                 + (if decide ((i, o) = get_name r) then 1 else 0)
                 - (if decide (self = owner ∧ (i, o) = get_name victim) then 1 else 0))) ∧
  (repro_type c = "target" →
   ∃ w' r owner victim c',
     receive_product self sender product prohibited who debug w = Ok (tt, w') ∧
     r ∈ rule_candidates (product_rules c) ∧
     get_input r = get_type product ∧
     total_rule_count w' = total_rule_count w ∧
     cells w' !! self = Some c' ∧
     active_rule c' = None ∧
     products c' =
       <[get_type product := default [] (products c !! get_type product) ++ [product]]>
         (products c) ∧
     ∀ i o, bucket_len (product_rules c') i o =
              bucket_len (product_rules c) i o
              + (if decide ((i, o) = get_name r) then 1 else 0)
              - (if decide (self = owner ∧ (i, o) = get_name victim) then 1 else 0)).
Proof.
  intros Hwf Hc Hhas. split.
  - intros Hsrc s r Hs Hr.
    destruct (receive_product_source w self sender c s r product prohibited who debug
                Hwf Hc Hhas Hsrc Hs Hr)
      as (w' & owner & victim & s' & c' & Hrun & Htot & _ & _ & Hs' & Hact & Hlens
          & Hc' & Hprod & Hrec).
    exists w', owner, victim, s', c'. do 8 (split; [done|]).
    intros ->. assert (c' = s') as -> by congruence.
    assert (s = c) as -> by congruence.
    by repeat split.
  - intros Htgt.
    destruct (receive_product_target w self sender c product prohibited who debug
                Hwf Hc Hhas Htgt)
      as (w' & r & owner & victim & c' & Hrun & Hrc & Hrt & Htot & _ & _ & Hc' & Hact
          & Hprod & Hlen).
    exists w', r, owner, victim, c'. by repeat (split; [done|]).
Qed.

Lemma receive_product_accepts_witness :
  world_wf world1 ∧ cells world1 !! 1%nat = Some cell_t ∧
  is_Some (product_rules cell_t !! get_type (mkProduct 2 7)) ∧
  repro_type cell_t = "source" ∧
  ∃ w' s' c',
    receive_product 1%nat 0%nat (mkProduct 2 7) 2 0%nat false world1 = Ok (tt, w') ∧
    total_rule_count w' = total_rule_count world1 ∧
    cells w' !! 0%nat = Some s' ∧ active_rule s' = None ∧
    cells w' !! 1%nat = Some c' ∧
    products c' = <[2 := [mkProduct 2 7]]> (products cell_t).
Proof.
  assert (Hwf : world_wf world1) by (apply (bool_decide_unpack _); vm_compute; exact I).
  assert (Hhas : is_Some (product_rules cell_t !! get_type (mkProduct 2 7)))
    by (by eexists).
  split; [exact Hwf|]. split; [reflexivity|]. split; [exact Hhas|].
  split; [reflexivity|].
  destruct (proj1 (receive_product_accepts world1 1%nat 0%nat 0%nat cell_t (mkProduct 2 7)
                     2 false Hwf eq_refl Hhas) eq_refl cell_s rule_12a eq_refl eq_refl)
    as (w' & owner & victim & s' & c' & Hrun & Htot & Hs' & Hact & _ & Hc' & Hprod & _).
  exists w', s', c'. by repeat (split; [done|]).
Defined.

(** ** Counting candidates *)

Section counting.
Context {B : Type} (p : B → bool).

Lemma cnt_app l1 l2 : cnt p (l1 ++ l2) = (cnt p l1 + cnt p l2)%nat.
Proof. unfold cnt. by rewrite List.filter_app, length_app. Qed.

Lemma cnt_all l : Forall (λ x, p x = true) l → cnt p l = length l.
Proof.
  unfold cnt. induction 1 as [|x l Hx _ IH]; simpl; [done|].
  rewrite Hx. simpl. by rewrite IH.
Qed.

Lemma cnt_none l : Forall (λ x, p x = false) l → cnt p l = 0%nat.
Proof.
  unfold cnt. induction 1 as [|x l Hx _ IH]; simpl; [done|]. by rewrite Hx.
Qed.

Lemma cnt_flat_map {A} (f : A → list B) (l : list A) :
  cnt p (flat_map f l) = sum_list_with (λ x, cnt p (f x)) l.
Proof. induction l as [|x l IH]; simpl; [done|]. by rewrite cnt_app, IH. Qed.

End counting.

Lemma sum_list_with_ext {A} (f g : A → nat) (l : list A) :
  Forall (λ x, f x = g x) l → sum_list_with f l = sum_list_with g l.
Proof. induction 1 as [|x l Hx _ IH]; simpl; [done|]. by rewrite Hx, IH. Qed.

Lemma sum_list_with_keys `{Countable K} {V} (d : gmap K V) (f : K → option V → nat) :
  sum_list_with (λ k, f k (d !! k)) (keys d) =
    sum_list_with (λ kv, f kv.1 (Some kv.2)) (map_to_list d).
Proof.
  unfold keys.
  assert (Hall : Forall (λ kv : K * V, d !! kv.1 = Some kv.2) (map_to_list d)).
  { apply Forall_forall. by intros [k v] Hin%elem_of_map_to_list. }
  induction Hall as [|kv l Hkv _ IH]; csimpl; [done|]. by rewrite Hkv, IH.
Qed.

(** A sum over a dictionary in which only the entry of one key counts. *)
Lemma sum_list_with_select `{Countable K} {V} (d : gmap K V) (k : K) (g : V → nat) :
  sum_list_with (λ kv, if decide (kv.1 = k) then g kv.2 else 0%nat) (map_to_list d) =
    from_option g 0%nat (d !! k).
Proof.
  induction d as [|j x d Hj IH] using map_ind.
  - by rewrite map_to_list_empty, lookup_empty.
  - rewrite (map_to_list_insert d j x Hj). simpl. rewrite IH.
    destruct (decide (j = k)) as [->|Hne].
    + rewrite lookup_insert_eq, Hj. simpl. lia.
    + by rewrite lookup_insert_ne.
Qed.




(** ** [get_random_rule] *)

Lemma map_seq_lookup {A C} (g : nat → C) (h : A → C) (l : list A) (start : nat) :
  (∀ j x, l !! j = Some x → g (start + j)%nat = h x) →
  map g (seq start (length l)) = map h l.
Proof.
  revert start. induction l as [|x l IH]; intros start Hg; simpl; [done|].
  rewrite <- (Hg 0%nat x eq_refl), Nat.add_0_r. f_equal.
  apply IH. intros j y Hj. rewrite Nat.add_succ_l, <- Nat.add_succ_r. by apply Hg.
Qed.

(** A computation that, whatever index [j] the generator draws, returns
    [f] of the [j]-th element of [l] has the images of the elements of [l]
    as its equally likely outcomes. *)
Lemma outcomes_drawn {A B} (m : M B) (f : A → B) (l : list A) w :
  (∀ j x, l !! j = Some x → ∃ w', m (with_next_draw j w) = Ok (f x, w')) →
  outcomes m w (length l) = map (λ x, Some (f x)) l.
Proof.
  intros Hm. unfold outcomes. apply map_seq_lookup. intros j x Hj. simpl.
  by destruct (Hm j x Hj) as [w' ->].
Qed.

Lemma outcomes_sample1 {A} (m : M A) (l : list A) w :
  (∀ j, m (with_next_draw j w) = sample1 l (with_next_draw j w)) →
  outcomes m w (length l) = map Some l.
Proof.
  intros Hm. apply (outcomes_drawn m (λ x, x)). intros j x Hj.
  eexists. by rewrite Hm, (sample1_with_next_draw l w j x Hj).
Qed.

Lemma count_outcomes_map {A B} (event : B → bool) (f : A → B) (l : list A) :
  count_outcomes event (map (λ x, Some (f x)) l) = cnt (λ x, event (f x)) l.
Proof.
  unfold count_outcomes, cnt. induction l as [|x l IH]; simpl; [done|].
  destruct (event (f x)); simpl; by rewrite IH.
Qed.



(** ** [has_Product] *)

Lemma has_Product_loop_has rules ks has prods :
  (has_Product_loop rules ks has prods).1 =
    has ++ flat_map (λ content,
               if bool_decide (is_Some (rules !! content))
               then default [] (prods !! content) else []) ks.
Proof.
  revert has prods. induction ks as [|k ks IH]; intros has prods; simpl.
  - by rewrite app_nil_r.
  - case_bool_decide as Hk.
    + by rewrite IH, app_assoc.
    + rewrite IH. simpl. f_equal. apply flat_map_ext. intros k'.
      case_bool_decide as Hk'; [|done].
      rewrite lookup_insert_ne; [done|]. by intros ->.
Qed.

Lemma has_Product_loop_prune rules ks has prods t :
  (has_Product_loop rules ks has prods).2 !! t =
    if bool_decide (t ∈ ks ∧ rules !! t = None) then Some [] else prods !! t.
Proof.
  revert has prods.
  induction ks as [|k ks IH]; intros has prods; cbn [has_Product_loop snd].
  - rewrite bool_decide_eq_false_2; [done|]. intros [Hin _]. by apply elem_of_nil in Hin.
  - destruct (decide (t ∈ ks ∧ rules !! t = None)) as [H1|H1].
    + pose proof H1 as [Hin Hn].
      rewrite (bool_decide_eq_true_2 (t ∈ k :: ks ∧ _))
        by (split; [apply elem_of_cons; by right | done]).
      destruct (bool_decide (is_Some (rules !! k)));
        by rewrite IH, bool_decide_eq_true_2.
    + destruct (decide (is_Some (rules !! k))) as [Hk|Hk];
        [rewrite (bool_decide_eq_true_2 _ Hk) | rewrite (bool_decide_eq_false_2 _ Hk)].
      * rewrite IH, (bool_decide_eq_false_2 _ H1).
        rewrite bool_decide_eq_false_2; [done|].
        intros [[->|Hin]%elem_of_cons Hnone]; [|by destruct H1].
        destruct Hk as [v Hv]. congruence.
      * rewrite IH, (bool_decide_eq_false_2 _ H1).
        assert (Hnone : rules !! k = None).
        { destruct (rules !! k) eqn:E; [|done]. destruct Hk. by eexists. }
        destruct (decide (t = k)) as [->|Hne].
        -- rewrite lookup_insert_eq, bool_decide_eq_true_2; [done|].
           split; [apply elem_of_cons; by left | done].
        -- rewrite lookup_insert_ne by done.
           rewrite bool_decide_eq_false_2; [done|].
           intros [[->|Hin]%elem_of_cons Hn]; [done|by destruct H1].
Qed.

Lemma stored_usable_loop c :
  has_Product_loop (product_rules c) (keys (products c)) [] (products c) =
    (stored_usable c, pruned_products c).
Proof.
  unfold stored_usable, pruned_products.
  pose proof (has_Product_loop_has (product_rules c) (keys (products c)) [] (products c))
    as Hhas.
  rewrite app_nil_l in Hhas. rewrite <- Hhas.
  by destruct (has_Product_loop _ _ _ _).
Qed.

(** The pruning of [has_Product]: a stack of a type without a rule becomes
    the empty list and its key stays; nothing else changes. *)
Lemma pruned_products_lookup c t :
  pruned_products c !! t =
    (λ stack, if bool_decide (is_Some (product_rules c !! t)) then stack else [])
      <$> (products c !! t).
Proof.
  unfold pruned_products. rewrite has_Product_loop_prune.
  destruct (decide (is_Some (product_rules c !! t))) as [Hr|Hr].
  - rewrite (bool_decide_eq_true_2 _ Hr).
    rewrite bool_decide_eq_false_2.
    + by destruct (products c !! t).
    + intros [_ Hn]. destruct Hr as [? Hr]. congruence.
  - rewrite (bool_decide_eq_false_2 _ Hr).
    assert (Hn : product_rules c !! t = None).
    { destruct (product_rules c !! t) eqn:E; [|done]. destruct Hr. by eexists. }
    destruct (products c !! t) as [stack|] eqn:Ht.
    + rewrite bool_decide_eq_true_2; [done|].
      split; [apply elem_of_keys; by eexists | done].
    + rewrite bool_decide_eq_false_2; [done|].
      intros [[? Hs]%elem_of_keys _]. congruence.
Qed.

Lemma elem_of_stored_usable c p :
  inventory_keyed (products c) →
  p ∈ stored_usable c ↔
    is_Some (product_rules c !! get_type p) ∧
    p ∈ default [] (products c !! get_type p).
Proof.
  intros Hkey. unfold stored_usable. rewrite elem_of_flat_map. split.
  - intros (t & [stack Ht]%elem_of_keys & Hp).
    case_bool_decide as Hr; [|by apply elem_of_nil in Hp].
    rewrite Ht in Hp. simpl in Hp.
    pose proof (Hkey t stack Ht) as Hall. rewrite Forall_forall in Hall.
    rewrite (Hall p Hp). by rewrite Ht.
  - intros [Hr Hp]. exists (get_type p).
    destruct (products c !! get_type p) as [stack|] eqn:Ht;
      [|by apply elem_of_nil in Hp].
    split; [apply elem_of_keys; by eexists|].
    by rewrite bool_decide_eq_true_2.
Qed.

(** The usable stored products of a type are the whole stack of the type
    when the type has a rule, and none otherwise. *)
Lemma cnt_stored_usable c t :
  inventory_keyed (products c) →
  cnt (λ p, bool_decide (get_type p = t)) (stored_usable c) =
    if bool_decide (is_Some (product_rules c !! t))
    then length (default [] (products c !! t)) else 0%nat.
Proof.
  intros Hkey. unfold stored_usable. rewrite cnt_flat_map.
  rewrite (sum_list_with_keys (products c)
             (λ k v, cnt (λ p, bool_decide (get_type p = t))
                       (if bool_decide (is_Some (product_rules c !! k))
                        then default [] v else []))).
  simpl.
  rewrite (sum_list_with_ext _
             (λ kv, if decide (kv.1 = t)
                    then (if bool_decide (is_Some (product_rules c !! t))
                          then length kv.2 else 0%nat)
                    else 0%nat)).
  - rewrite (sum_list_with_select (products c) t
               (λ stack, if bool_decide (is_Some (product_rules c !! t))
                         then length stack else 0%nat)).
    destruct (products c !! t); simpl; [done|]. by case_bool_decide.
  - apply Forall_forall. intros [k stack] Hk%elem_of_map_to_list. simpl.
    pose proof (Hkey k stack Hk) as Hall.
    destruct (decide (k = t)) as [->|Hne].
    + case_bool_decide; [|done]. apply cnt_all.
      eapply Forall_impl; [exact Hall|]. intros p Hp. by rewrite bool_decide_eq_true_2.
    + case_bool_decide; [|done]. apply cnt_none.
      eapply Forall_impl; [exact Hall|]. intros p Hp.
      rewrite bool_decide_eq_false_2; [done|]. by rewrite Hp.
Qed.

Lemma has_Product_run w self c :
  cells w !! self = Some c →
  has_Product self w =
    try_except (p <- sample1 (stored_usable c) ;; ret (Some (get_type p))) (ret None)
      (set_cells (<[self := set_products (pruned_products c) c]> (cells w)) w).
Proof.
  intros Hc. unfold has_Product.
  rewrite (bind_get_cell _ _ _ _ Hc), stored_usable_loop. reflexivity.
Qed.

(** C7, as stated, fails: the choice is not uniform among the eligible
    types.  The cell stores three products of type 1 and one of type 2 and
    has rules for both types; of the four equally likely draws three
    return type 1 and one returns type 2, so type 1 is returned with
    probability 3/4 and not 1/2. *)
Lemma has_Product_weights_by_stored_products :
  is_Some (product_rules cell_inv !! 1) ∧ is_Some (product_rules cell_inv !! 2) ∧
  length (default [] (products cell_inv !! 1)) = 3%nat ∧
  length (default [] (products cell_inv !! 2)) = 1%nat ∧
  outcomes (has_Product 0%nat) world_inv 4 =
    [Some (Some 2); Some (Some 1); Some (Some 1); Some (Some 1)] ∧
  Qeq (probability (returns_type 1) (outcomes (has_Product 0%nat) world_inv 4)) (3 # 4) ∧
  Qeq (probability (returns_type 2) (outcomes (has_Product 0%nat) world_inv 4)) (1 # 4) ∧
  ¬ Qeq (probability (returns_type 1) (outcomes (has_Product 0%nat) world_inv 4)) (1 # 2).
Proof.
  split; [by eexists|]. split; [by eexists|].
  split; [reflexivity|]. split; [reflexivity|].
  split; [vm_compute; reflexivity|].
  split; [vm_compute; reflexivity|]. split; [vm_compute; reflexivity|].
  vm_compute. discriminate.
Qed.

(** C7 (amended): [has_Product] on a cell whose stored products sit on the
    stacks of their own types.  It resets the stack of every stored type
    without a rule to the empty list, keeping the key, and leaves every
    other stack as it is.  It then draws uniformly among the stored
    products whose type still has a rule (not among the types): it returns
    the type of the product at the drawn index, a type the cell holds a
    product of and has a rule for, and over the equally likely draws a
    type is returned with probability proportional to the number of
    products stored of it.  It returns [None] when there is no such
    product, in particular when no stored type has a rule. *)
Theorem has_Product_cases (w : World) (self : CellRef) (c : Cell) :
  cells w !! self = Some c → inventory_keyed (products c) →
  let has := stored_usable c in
  let w' := set_cells (<[self := set_products (pruned_products c) c]> (cells w)) w in
  (∀ t, pruned_products c !! t =
          (λ stack, if bool_decide (is_Some (product_rules c !! t)) then stack else [])
            <$> (products c !! t)) ∧
  (∀ p, p ∈ has ↔
          is_Some (product_rules c !! get_type p) ∧
          p ∈ default [] (products c !! get_type p)) ∧
  (has ≠ [] →
     (∃ p, has !! next_index w (length has) = Some p ∧
           has_Product self w = Ok (Some (get_type p), advance_RNG w')) ∧
     outcomes (has_Product self) w (length has) =
       map (λ p, Some (Some (get_type p))) has ∧
     ∀ t, Qeq (probability (returns_type t) (outcomes (has_Product self) w (length has)))
              (Z.of_nat (if bool_decide (is_Some (product_rules c !! t))
                         then length (default [] (products c !! t)) else 0%nat)
               # Pos.of_nat (length has))) ∧
  (has = [] → has_Product self w = Ok (None, w')) ∧
  ((∀ t, is_Some (products c !! t) → product_rules c !! t = None) → has = []).
Proof.
  intros Hc Hkey has w'.
  split; [apply pruned_products_lookup|].
  split; [intros p; by apply elem_of_stored_usable|].
  assert (Hout : outcomes (has_Product self) w (length has) =
                 map (λ p, Some (Some (get_type p))) has).
  { apply (outcomes_drawn (has_Product self) (λ p, Some (get_type p))).
    intros j p Hj. eexists.
    rewrite (has_Product_run (with_next_draw j w) self c Hc).
    change (set_cells _ (with_next_draw j w)) with (with_next_draw j w').
    unfold try_except.
    by rewrite (bind_ok _ _ _ _ _ (sample1_with_next_draw has w' j p Hj)). }
  split; [|split].
  - intros Hne. split; [|split; [exact Hout|]].
    + destruct (sample1_ok has w' Hne) as (p & Hp & Hs).
      exists p. split; [exact Hp|].
      rewrite (has_Product_run w self c Hc). unfold try_except.
      by rewrite (bind_ok _ _ _ _ _ Hs).
    + intros t. unfold probability. rewrite Hout, length_map.
      rewrite (count_outcomes_map (returns_type t) (λ p, Some (get_type p))).
      simpl. unfold has. rewrite (cnt_stored_usable c t Hkey). reflexivity.
  - intros Hnil. rewrite (has_Product_run w self c Hc). unfold try_except.
    fold has. by rewrite Hnil.
  - intros Hno. apply elem_of_nil_inv. intros p Hp.
    apply (elem_of_stored_usable c p Hkey) in Hp as [[inner Hr] Hin].
    destruct (products c !! get_type p) as [stack|] eqn:Ht;
      [|by apply elem_of_nil in Hin].
    rewrite (Hno (get_type p)) in Hr; [done | by eexists].
Qed.

Lemma has_Product_cases_witness :
  cells world_inv !! 0%nat = Some cell_inv ∧ inventory_keyed (products cell_inv) ∧
  pruned_products cell_inv !! 5 = Some [] ∧
  Qeq (probability (returns_type 1) (outcomes (has_Product 0%nat) world_inv 4)) (3 # 4).
Proof.
  assert (Hkey : inventory_keyed (products cell_inv))
    by (apply (bool_decide_unpack _); vm_compute; exact I).
  split; [reflexivity|]. split; [exact Hkey|].
  destruct (has_Product_cases world_inv 0%nat cell_inv eq_refl Hkey)
    as (Hprune & _ & Hpos & _).
  split; [exact (Hprune 5)|].
  destruct (Hpos ltac:(vm_compute; discriminate)) as (_ & _ & Hprob).
  exact (Hprob 1).
Defined.

(** * Further properties of the bookkeeping *)

Lemma list_remove_not_elem x l : x ∉ l → list_remove x l = None.
Proof.
  induction l as [|y l IH]; intros Hx; [done|]. simpl.
  apply not_elem_of_cons in Hx as [Hne Hx].
  rewrite decide_False by done. by rewrite IH.
Qed.

Lemma list_remove_snoc x l : x ∉ l → list_remove x (l ++ [x]) = Some l.
Proof.
  induction l as [|y l IH]; intros Hx; simpl.
  - by rewrite decide_True.
  - apply not_elem_of_cons in Hx as [Hne Hx].
    rewrite decide_False by done. by rewrite IH.
Qed.

(** X1: the ways [remove_ProductRule] fails.  It raises [KeyError] when
    the index has no input level or no output leaf for the rule's pair,
    [ValueError] when the bucket of the pair does not hold the instance,
    [KeyError] when the instance is there but the pair has no aggregate,
    and [AttributeError] when the instance is the last of its pair and the
    cell has no handle on the cell net. *)
Theorem remove_ProductRule_failures (w : World) (self : CellRef) (c : Cell)
    (r : ProductRule) :
  cells w !! self = Some c →
  (product_rules c !! get_input r = None →
     remove_ProductRule self r w = Raise KeyError) ∧
  (∀ inner, product_rules c !! get_input r = Some inner →
     inner !! get_output r = None →
     remove_ProductRule self r w = Raise KeyError) ∧
  (∀ inner bucket, product_rules c !! get_input r = Some inner →
     inner !! get_output r = Some bucket → r ∉ bucket →
     remove_ProductRule self r w = Raise ValueError) ∧
  (∀ inner bucket, product_rules c !! get_input r = Some inner →
     inner !! get_output r = Some bucket → r ∈ bucket →
     product_netrules c !! get_name r = None →
     remove_ProductRule self r w = Raise KeyError) ∧
  (∀ inner n, product_rules c !! get_input r = Some inner →
     inner !! get_output r = Some [r] →
     product_netrules c !! get_name r = Some n →
     cellNet c = None →
     remove_ProductRule self r w = Raise AttributeError).
Proof.
  intros Hc.
  unfold remove_ProductRule, get_cellNet, bind, get_cell, put_cell,
    getitem, modify_world, registry_call, get_world, ret, raise.
  rewrite Hc. simpl. split; [|split; [|split; [|split]]].
  - by intros ->.
  - by intros inner -> ->.
  - intros inner bucket -> -> Hnot. simpl.
    by rewrite (list_remove_not_elem _ _ Hnot).
  - intros inner bucket -> -> Hin Hn. simpl.
    destruct (list_remove_elem _ _ Hin) as [bucket' ->]. simpl.
    rewrite !lookup_insert_eq. simpl. by rewrite Hn.
  - intros inner n -> -> Hn Hnet. simpl.
    rewrite decide_True by done. simpl.
    rewrite !lookup_insert_eq. simpl. rewrite Hn. simpl.
    rewrite !lookup_insert_eq. simpl. rewrite !lookup_insert_eq. simpl.
    rewrite !lookup_insert_eq. simpl. by rewrite Hnet.
Qed.

Lemma remove_ProductRule_failures_witness :
  cells world1 !! 1%nat = Some cell_t ∧
  remove_ProductRule 1%nat rule_12a world1 = Raise KeyError ∧
  remove_ProductRule 1%nat (mkProductRule 2 3 999) world1 = Raise ValueError.
Proof.
  split; [reflexivity|].
  destruct (remove_ProductRule_failures world1 1%nat cell_t rule_12a eq_refl)
    as (Hkey & _).
  destruct (remove_ProductRule_failures world1 1%nat cell_t (mkProductRule 2 3 999) eq_refl)
    as (_ & _ & Hval & _).
  split; [apply Hkey; reflexivity|].
  apply (Hval {[ 3 := [rule_23] ]} [rule_23]); [reflexivity..|].
  by rewrite list_elem_of_singleton.
Defined.

(** ** Adding an instance and taking it out again *)

Lemma bucket_of_tight_absent rules i o inner :
  index_tight rules → rules !! i = Some inner → bucket_of rules i o = [] →
  inner !! o = None.
Proof.
  intros Ht Hi Hb. unfold bucket_of in Hb. rewrite Hi in Hb.
  destruct (inner !! o) as [bucket|] eqn:Ho; [|done]. simpl in Hb. subst.
  by destruct (proj2 (Ht i inner Hi) o [] Ho).
Qed.

Lemma rules_remove_add r rules :
  index_tight rules →
  rules_remove r (bucket_of rules (get_input r) (get_output r)) (rules_add r rules) = rules.
Proof.
  intros Ht. unfold rules_remove, rules_add. rewrite lookup_insert_eq.
  case_bool_decide as Hb.
  - rewrite Hb, delete_insert_eq.
    destruct (rules !! get_input r) as [inner|] eqn:Hi; simpl.
    + pose proof (bucket_of_tight_absent _ _ _ _ Ht Hi Hb) as Ho.
      rewrite (delete_id _ _ Ho).
      rewrite bool_decide_eq_false_2 by apply (Ht _ _ Hi).
      by rewrite insert_insert_eq, insert_id.
    + rewrite delete_empty, bool_decide_eq_true_2 by done.
      by rewrite delete_insert_id.
  - unfold bucket_of in *.
    destruct (rules !! get_input r) as [inner|] eqn:Hi; [|done].
    destruct (inner !! get_output r) as [bucket|] eqn:Ho; [|done]. simpl.
    rewrite !insert_insert_eq. by rewrite (insert_id inner), insert_id.
Qed.

Lemma subtract_add_to_count n : subtract_from_count (add_to_count n) = n.
Proof.
  destruct n as [i o k owner]. unfold subtract_from_count, add_to_count. simpl.
  f_equal. lia.
Qed.

Lemma netrules_remove_add self r bucket netrules :
  (bucket = [] ↔ netrules !! get_name r = None) →
  netrules_remove r bucket (netrules_add self r netrules) = netrules.
Proof.
  intros Hiff. unfold netrules_remove, netrules_add.
  destruct (netrules !! get_name r) as [n|] eqn:Hn.
  - rewrite lookup_insert_eq.
    rewrite bool_decide_eq_false_2 by (intros Hb; by apply Hiff in Hb).
    by rewrite insert_insert_eq, subtract_add_to_count, insert_id.
  - rewrite lookup_insert_eq.
    rewrite bool_decide_eq_true_2 by (by apply Hiff).
    by rewrite delete_insert_id.
Qed.

(** X2: on a cell in working order that has no aggregate without
    instances, adding a new instance with [add_ProductRule] and removing it
    again with [remove_ProductRule] returns and leaves every cell exactly
    as it was (rule index, aggregate index, counter); the product-rule net
    has received the registration of the pair followed by its retirement
    when the pair was new to the cell, and no call otherwise. *)
Theorem add_then_remove_restores (w : World) (self : CellRef) (c : Cell)
    (r : ProductRule) :
  cells w !! self = Some c → cell_wf c →
  r ∉ bucket_of (product_rules c) (get_input r) (get_output r) →
  (bucket_of (product_rules c) (get_input r) (get_output r) = [] →
     product_netrules c !! get_name r = None) →
  ∃ w1 w2,
    add_ProductRule self (ObjProductRule r) w = Ok (tt, w1) ∧
    remove_ProductRule self r w1 = Ok (tt, w2) ∧
    cells w2 = cells w ∧
    master_count w2 = master_count w ∧
    productRule_Net w2 =
      productRule_Net w ++
        (if bool_decide (bucket_of (product_rules c) (get_input r) (get_output r) = [])
         then [Reg_add_ProductNetRule (new_netrule self r);
               Reg_remove_ProductNetRule
                 (Some (subtract_from_count (new_netrule self r))) (master_count w)]
         else []).
Proof.
  intros Hc (Hcons & Hkey & Htight & Hnet) Hnot Hagg.
  set (bucket := bucket_of (product_rules c) (get_input r) (get_output r)) in *.
  assert (Hiff : bucket = [] ↔ product_netrules c !! get_name r = None).
  { split; [exact Hagg|]. intros Hn.
    destruct (cell_consistent_alt c) as [Halt _].
    destruct (Halt Hcons) as (_ & Hpres & _).
    destruct bucket as [|x l] eqn:Hb; [done|].
    destruct (Hpres (get_input r) (get_output r)) as [n' Hn'].
    - unfold bucket_len. unfold bucket, bucket_of in Hb.
      destruct (product_rules c !! get_input r) as [inner|]; [|done].
      destruct (inner !! get_output r) as [b|]; [|done].
      simpl in Hb. subst b. simpl. lia.
    - unfold get_name in Hn. unfold get_input, get_output in Hn'. congruence. }
  set (c1 := cell_add self r c).
  set (w1 := world_after_add self r c w).
  exists w1, (world_after_remove self r bucket c1 w1).
  split; [by apply add_ProductRule_ok|].
  assert (Hrun : remove_ProductRule self r w1 =
                 Ok (tt, world_after_remove self r bucket c1 w1)).
  { assert (Hn1 : ∃ n1, product_netrules c1 !! get_name r = Some n1).
    { simpl. unfold netrules_add.
      destruct (product_netrules c !! get_name r); eexists; apply lookup_insert_eq. }
    destruct Hn1 as [n1 Hn1].
    eapply (remove_ProductRule_ok self r w1 c1 _ (bucket ++ [r]) bucket n1).
    - simpl. apply lookup_insert_eq.
    - simpl. unfold rules_add. apply lookup_insert_eq.
    - apply lookup_insert_eq.
    - by apply list_remove_snoc.
    - exact Hn1.
    - done. }
  split; [exact Hrun|].
  assert (Hback : cell_remove r bucket c1 = c).
  { unfold cell_remove, c1, cell_add. simpl.
    unfold bucket. rewrite (rules_remove_add r _ Htight).
    fold bucket. rewrite (netrules_remove_add self r bucket _ Hiff).
    replace (count_rules c + 1 - 1) with (count_rules c) by lia.
    by destruct c. }
  split; [|split; [done|]].
  - simpl. rewrite Hback, insert_insert_eq. by apply insert_id.
  - simpl. unfold registry_after_remove, registry_after_add. simpl.
    unfold netrules_add.
    destruct (product_netrules c !! get_name r) as [n|] eqn:Hn.
    + rewrite bool_decide_eq_false_2 by (intros Hb; by apply Hiff in Hb).
      by rewrite app_nil_r.
    + rewrite bool_decide_eq_true_2 by (by apply Hiff).
      rewrite lookup_insert_eq. simpl. by rewrite <- app_assoc.
Qed.

Lemma add_then_remove_restores_witness :
  cells world1 !! 1%nat = Some cell_t ∧ cell_wf cell_t ∧
  ∃ w1 w2,
    add_ProductRule 1%nat (ObjProductRule (mkProductRule 7 8 500)) world1 = Ok (tt, w1) ∧
    remove_ProductRule 1%nat (mkProductRule 7 8 500) w1 = Ok (tt, w2) ∧
    cells w2 = cells world1.
Proof.
  assert (Hwf : cell_wf cell_t) by (apply (bool_decide_unpack _); vm_compute; exact I).
  split; [reflexivity|]. split; [exact Hwf|].
  destruct (add_then_remove_restores world1 1%nat cell_t (mkProductRule 7 8 500)
              eq_refl Hwf)
    as (w1 & w2 & H1 & H2 & H3 & _).
  - vm_compute. apply not_elem_of_nil.
  - reflexivity.
  - by exists w1, w2.
Defined.

(** ** [has_rule] and [get_random_rule_of_type] *)

(** X3: on a cell in working order [has_rule] tells whether the cell holds
    at least one rule instance whose input is the given type; it gives the
    same answer for the integer type and for a product of that type, and
    changes nothing. *)
Theorem has_rule_reflects_instances (w : World) (self : CellRef) (c : Cell) (t : Z) :
  cells w !! self = Some c → cell_wf c →
  ∃ b,
    has_rule self (inl t) w = Ok (b, w) ∧
    (∀ p, get_type p = t → has_rule self (inr p) w = Ok (b, w)) ∧
    (b = true ↔ ∃ r, r ∈ rule_candidates (product_rules c) ∧ get_input r = t).
Proof.
  intros Hc Hwf. exists (bool_decide (is_Some (product_rules c !! t))).
  unfold has_rule. rewrite !(bind_get_cell _ _ _ _ Hc).
  split; [done|]. split.
  - intros p <-. by rewrite (bind_get_cell _ _ _ _ Hc).
  - rewrite bool_decide_eq_true. split.
    + intros [inner Hi].
      destruct (candidates_of_type c t inner Hwf Hi) as [Hne Hall].
      destruct (flat_map _ _) as [|r l] eqn:Hl; [done|].
      exists r. destruct (Hall r) as [Hin Hr]; [apply elem_of_cons; by left|]. done.
    + intros (r & Hr & <-).
      apply elem_of_rule_candidates in Hr as (i & inner & o & bucket & Hi & Ho & Hin).
      destruct Hwf as (_ & Hkey & _).
      pose proof (proj1 (index_keyed_alt _) Hkey i inner o bucket r Hi Ho Hin) as Hname.
      inversion Hname; subst. exists inner. exact Hi.
Qed.

Lemma has_rule_reflects_instances_witness :
  cells world1 !! 1%nat = Some cell_t ∧ cell_wf cell_t ∧
  has_rule 1%nat (inl 2) world1 = Ok (true, world1) ∧
  has_rule 1%nat (inl 1) world1 = Ok (false, world1).
Proof.
  assert (Hwf : cell_wf cell_t) by (apply (bool_decide_unpack _); vm_compute; exact I).
  split; [reflexivity|]. split; [exact Hwf|].
  destruct (has_rule_reflects_instances world1 1%nat cell_t 2 eq_refl Hwf)
    as (b2 & H2 & _ & _).
  destruct (has_rule_reflects_instances world1 1%nat cell_t 1 eq_refl Hwf)
    as (b1 & H1 & _ & _).
  split.
  - rewrite H2. vm_compute in H2. by inversion H2.
  - rewrite H1. vm_compute in H1. by inversion H1.
Defined.

Lemma cnt_inner_candidates (inner : gmap Z (list ProductRule)) (i o : Z) :
  map_Forall (λ o' (bucket : list ProductRule),
      Forall (λ r, get_name r = (i, o')) bucket) inner →
  cnt (of_pair (i, o)) (flat_map (λ output, default [] (inner !! output)) (keys inner)) =
    length (default [] (inner !! o)).
Proof.
  intros Hkey. rewrite cnt_flat_map.
  rewrite (sum_list_with_keys inner (λ _ v, cnt (of_pair (i, o)) (default [] v))).
  simpl.
  rewrite (sum_list_with_ext _
             (λ ov, if decide (ov.1 = o) then length ov.2 else 0%nat)).
  - rewrite (sum_list_with_select inner o length). by destruct (inner !! o).
  - apply Forall_forall. intros [o0 bucket] Ho%elem_of_map_to_list. simpl.
    pose proof (Hkey o0 bucket Ho) as Hall.
    destruct (decide (o0 = o)) as [->|Hno].
    + apply cnt_all. eapply Forall_impl; [exact Hall|].
      intros r Hr. unfold of_pair. by rewrite bool_decide_eq_true_2.
    + apply cnt_none. eapply Forall_impl; [exact Hall|].
      intros r Hr. unfold of_pair. rewrite bool_decide_eq_false_2; [done|].
      rewrite Hr. congruence.
Qed.

(** X4: [get_random_rule_of_type] raises [KeyError] when the cell has no
    input level for the type.  On a cell in working order that has one, it
    returns the candidate at the drawn index; the candidates are exactly
    the instances of the cell whose input is the type, each pair
    contributing as many candidates as its bucket holds, and over the
    equally likely draws the outcomes are exactly the candidates. *)
Theorem get_random_rule_of_type_cases (w : World) (self : CellRef) (c : Cell) (t : Z) :
  cells w !! self = Some c →
  (product_rules c !! t = None →
     get_random_rule_of_type self t w = Raise KeyError) ∧
  (cell_wf c →
   ∀ inner, product_rules c !! t = Some inner →
     let candidates := flat_map (λ output, default [] (inner !! output)) (keys inner) in
     (∃ r, candidates !! next_index w (length candidates) = Some r ∧
           get_random_rule_of_type self t w = Ok (r, advance_RNG w)) ∧
     (∀ r, r ∈ candidates ↔
             r ∈ rule_candidates (product_rules c) ∧ get_input r = t) ∧
     (∀ o, cnt (of_pair (t, o)) candidates =
             length (bucket_of (product_rules c) t o)) ∧
     outcomes (get_random_rule_of_type self t) w (length candidates) =
       map Some candidates).
Proof.
  intros Hc. split.
  - intros Hi. unfold get_random_rule_of_type.
    rewrite (bind_get_cell _ _ _ _ Hc). unfold getitem. by rewrite Hi.
  - intros Hwf inner Hi candidates.
    assert (Hrun : ∀ w', cells w' = cells w →
              get_random_rule_of_type self t w' = sample1 candidates w').
    { intros w' Hw'. unfold get_random_rule_of_type.
      erewrite bind_get_cell by (by rewrite Hw').
      unfold getitem. by rewrite Hi. }
    destruct (candidates_of_type c t inner Hwf Hi) as [Hne Hall].
    pose proof Hwf as (_ & Hkey & _).
    split; [|split; [|split]].
    + destruct (sample1_ok candidates w Hne) as (r & Hr & Hs).
      exists r. split; [done|]. by rewrite Hrun.
    + intros r. split.
      * intros Hr. destruct (Hall r Hr). done.
      * intros [Hr Hin].
        apply elem_of_rule_candidates in Hr as (i & inner' & o & bucket & Hi' & Ho & Hb).
        pose proof (proj1 (index_keyed_alt _) Hkey i inner' o bucket r Hi' Ho Hb) as Hname.
        inversion Hname; subst. unfold get_input in Hi. rewrite Hi in Hi'.
        inversion Hi'; subst. apply elem_of_flat_map. exists (rule_output r).
        split; [apply elem_of_keys; by eexists|]. by rewrite Ho.
    + intros o. unfold candidates.
      rewrite (cnt_inner_candidates inner t o (Hkey t inner Hi)).
      unfold bucket_of. by rewrite Hi.
    + apply outcomes_sample1. intros j. by apply Hrun.
Qed.

Lemma get_random_rule_of_type_cases_witness :
  cells world_ab !! 0%nat = Some cell_ab ∧ cell_wf cell_ab ∧
  get_random_rule_of_type 0%nat 9 world_ab = Raise KeyError ∧
  ∃ r, get_random_rule_of_type 0%nat 1 world_ab = Ok (r, advance_RNG world_ab).
Proof.
  assert (Hwf : cell_wf cell_ab) by (apply (bool_decide_unpack _); vm_compute; exact I).
  split; [reflexivity|]. split; [exact Hwf|].
  destruct (get_random_rule_of_type_cases world_ab 0%nat cell_ab 9 eq_refl) as [Hk _].
  destruct (get_random_rule_of_type_cases world_ab 0%nat cell_ab 1 eq_refl) as [_ Hs].
  split; [apply Hk; reflexivity|].
  destruct (Hs Hwf _ eq_refl) as ((r & _ & Hr) & _). by exists r.
Defined.

(** * Invariants of the protocol *)

(** ** Rules for assertions *)

Lemma hoare_ret {A} (P : World → Prop) (a : A) : hoare P (ret a) (λ a' w, a' = a ∧ P w).
Proof. intros w a' w' HP [= <- <-]. done. Qed.

Lemma hoare_raise {A} (P : World → Prop) (e : exn) (Q : A → World → Prop) :
  hoare P (raise e) Q.
Proof. intros w a w' _ Hrun. discriminate Hrun. Qed.

Lemma hoare_bind {A B} (P : World → Prop) (m : M A) (Q : A → World → Prop)
    (f : A → M B) (R : B → World → Prop) :
  hoare P m Q → (∀ a, hoare (Q a) (f a) R) → hoare P (bind m f) R.
Proof.
  intros Hm Hf w b w' HP Hrun. unfold bind in Hrun.
  destruct (m w) as [[a w1]|e] eqn:Hmw; [|done].
  exact (Hf a w1 b w' (Hm w a w1 HP Hmw) Hrun).
Qed.

Lemma hoare_conseq {A} (P P' : World → Prop) (m : M A) (Q Q' : A → World → Prop) :
  (∀ w, P' w → P w) → (∀ a w, Q a w → Q' a w) → hoare P m Q → hoare P' m Q'.
Proof. intros HP HQ Hm w a w' HP' Hrun. apply HQ. eapply Hm; eauto. Qed.

Lemma hoare_try_except {A} (P : World → Prop) (body handler : M A)
    (Q : A → World → Prop) :
  hoare P body Q → hoare P handler Q → hoare P (try_except body handler) Q.
Proof.
  intros Hb Hh w a w' HP Hrun. unfold try_except in Hrun.
  destruct (body w) as [[a1 w1]|e] eqn:Hbw.
  - inversion Hrun; subst. eapply Hb; eauto.
  - eapply Hh; eauto.
Qed.

Lemma hoare_get_cell (P : World → Prop) self :
  hoare P (get_cell self) (λ c w, P w ∧ cells w !! self = Some c).
Proof.
  intros w c w' HP Hrun. unfold get_cell in Hrun.
  destruct (cells w !! self) as [c0|] eqn:Hc; [|done]. by inversion Hrun; subst.
Qed.

Lemma hoare_get_cellNet (P : World → Prop) self :
  hoare P (get_cellNet self) (λ _ w, P w ∧ ∃ c, cells w !! self = Some c).
Proof.
  unfold get_cellNet. eapply hoare_bind; [apply hoare_get_cell|].
  intros c w net w' [HP Hc] Hrun. simpl in Hrun.
  destruct (cellNet c); [|done]. inversion Hrun; subst. eauto.
Qed.

Lemma hoare_get_active_rule (P : World → Prop) self :
  hoare P (get_active_rule self)
        (λ r w, P w ∧ ∃ c, cells w !! self = Some c ∧ active_rule c = Some r).
Proof.
  unfold get_active_rule. eapply hoare_bind; [apply hoare_get_cell|].
  intros c w r w' [HP Hc] Hrun. simpl in Hrun.
  destruct (active_rule c) as [r0|] eqn:Hr; [|done]. inversion Hrun; subst. eauto.
Qed.

Lemma hoare_has_rule (P : World → Prop) self product :
  hoare P (has_rule self product) (λ _ w, P w).
Proof.
  unfold has_rule. eapply hoare_bind; [apply hoare_get_cell|].
  intros c w b w' [HP Hc] Hrun. destruct product; by inversion Hrun; subst.
Qed.

(** ** The invariant across the methods *)

Lemma tick_inv_frame n k w w' :
  cells w' = cells w → master_count w' = master_count w →
  tick_inv n k w → tick_inv n k w'.
Proof.
  intros Hcells Hmc (Hwf & Htot & Hk).
  unfold tick_inv, world_wf, total_rule_count. by rewrite Hcells, Hmc.
Qed.

Lemma net_inv_frame n k inv w w' :
  cells w' = cells w → master_count w' = master_count w →
  net_inv n k inv w → net_inv n k inv w'.
Proof.
  intros Hcells Hmc [HI Hinv]. split; [by apply (tick_inv_frame n k w)|].
  unfold inventories. by rewrite Hcells.
Qed.

Lemma same_bookkeeping_wf c c' : same_bookkeeping c c' → cell_wf c → cell_wf c'.
Proof.
  intros (Hr & Hn & Hcnt & Hnet).
  unfold cell_wf, cell_consistent, sum_invariant. by rewrite Hr, Hn, Hcnt, Hnet.
Qed.

Lemma inventories_insert (cs : gmap nat Cell) k c' :
  products <$> <[k := c']> cs = <[k := products c']> (products <$> cs).
Proof. apply fmap_insert. Qed.

Lemma inventories_insert_same (cs : gmap nat Cell) k c c' :
  cs !! k = Some c → products c' = products c →
  products <$> <[k := c']> cs = products <$> cs.
Proof.
  intros Hk Hp. rewrite inventories_insert, Hp.
  apply insert_id. by rewrite lookup_fmap, Hk.
Qed.

(** Writing back a cell whose rule bookkeeping is as before. *)
Lemma hoare_put_cell n k inv self c c' :
  same_bookkeeping c c' →
  hoare (λ w, net_inv n k inv w ∧ cells w !! self = Some c) (put_cell self c')
        (λ _, net_inv n k (<[self := products c']> inv)).
Proof.
  intros Hsame w [] w' [[(Hwf & Htot & Hk) Hinv] Hc] Hrun. inversion Hrun; subst.
  split; [split; [|split; [|done]]|].
  - unfold world_wf. simpl. apply map_Forall_insert_2; [|done].
    eapply same_bookkeeping_wf; [done|]. by apply (Hwf self).
  - apply (total_rule_count_same_rules w self c c' w Hc). apply Hsame.
  - unfold inventories. simpl. apply inventories_insert.
Qed.

Lemma hoare_put_cell_same n k inv self c c' :
  same_bookkeeping c c' → products c' = products c →
  hoare (λ w, net_inv n k inv w ∧ cells w !! self = Some c) (put_cell self c')
        (λ _, net_inv n k inv).
Proof.
  intros Hsame Hp w [] w' [HI Hc] Hrun.
  pose proof (hoare_put_cell n k inv self c c' Hsame w tt w' (conj HI Hc) Hrun) as [HI' Hinv'].
  split; [done|]. rewrite Hinv', Hp. destruct HI as [_ <-].
  apply insert_id. unfold inventories. by rewrite lookup_fmap, Hc.
Qed.

Lemma hoare_set_active n k inv self v :
  hoare (net_inv n k inv)
        (c <- get_cell self ;; put_cell self (set_active v c))
        (λ _, net_inv n k inv).
Proof.
  eapply hoare_bind; [apply hoare_get_cell|].
  intros c. by apply hoare_put_cell_same.
Qed.

(** [add_Product] changes the inventory of its cell by one push and
    nothing else. *)
Lemma hoare_add_Product n k inv self product :
  hoare (net_inv n k inv) (add_Product self product)
        (λ _ w, ∃ ps, inv !! self = Some ps ∧
           net_inv n k
             (<[self := <[get_type product :=
                            default [] (ps !! get_type product) ++ [product]]> ps]> inv) w).
Proof.
  intros w [] w' HI Hrun.
  destruct (cells w !! self) as [c|] eqn:Hc.
  - rewrite (add_Product_ok _ _ _ _ Hc) in Hrun.
    exists (products c). split.
    + destruct HI as [_ <-]. unfold inventories. by rewrite lookup_fmap, Hc.
    + inversion Hrun; subst.
      refine (hoare_put_cell n k inv self c (set_products _ c) _ w tt _ (conj HI Hc) eq_refl).
      done.
  - unfold add_Product, try_except, bind, get_cell in Hrun. by rewrite Hc in Hrun.
Qed.

(** [remove_Product] changes the inventory of its cell by one pop, or not
    at all when it returns [None]. *)
Lemma hoare_remove_Product n k inv self t :
  hoare (net_inv n k inv) (remove_Product self t)
        (λ res w, match res with
                  | Some p =>
                      ∃ ps stack, inv !! self = Some ps ∧ ps !! t = Some (stack ++ [p]) ∧
                        net_inv n k (<[self := <[t := stack]> ps]> inv) w
                  | None => net_inv n k inv w
                  end).
Proof.
  intros w res w' HI Hrun.
  destruct (cells w !! self) as [c|] eqn:Hc.
  - assert (Hps : inv !! self = Some (products c)).
    { destruct HI as [_ <-]. unfold inventories. by rewrite lookup_fmap, Hc. }
    destruct (products c !! t) as [stack|] eqn:Ht.
    + destruct stack as [|p stack _] using rev_ind.
      * rewrite (remove_Product_none self t w c Hc) in Hrun by auto.
        by inversion Hrun; subst.
      * rewrite (remove_Product_top self t w c stack p Hc Ht) in Hrun.
        inversion Hrun; subst. exists (products c), stack. do 2 (split; [done|]).
        refine (hoare_put_cell n k inv self c (set_products _ c) _ w tt _ (conj HI Hc) eq_refl).
        done.
    + rewrite (remove_Product_none self t w c Hc) in Hrun by auto.
      by inversion Hrun; subst.
  - unfold remove_Product, bind, get_cell in Hrun. by rewrite Hc in Hrun.
Qed.

Lemma hoare_sample1 {A} n k inv (l : list A) :
  hoare (net_inv n k inv) (sample1 l) (λ x w, net_inv n k inv w ∧ x ∈ l).
Proof.
  intros w x w' HI Hrun. destruct l as [|y l]; [done|].
  destruct (sample1_ok (y :: l) w) as (x' & Hx & Hs); [done|].
  rewrite Hs in Hrun. inversion Hrun; subst. split.
  - by apply (net_inv_frame n k inv w).
  - apply list_elem_of_lookup. eauto.
Qed.

Lemma hoare_get_random_rule_of_type n k inv self t :
  hoare (net_inv n k inv) (get_random_rule_of_type self t) (λ _, net_inv n k inv).
Proof.
  unfold get_random_rule_of_type. eapply hoare_bind; [apply hoare_get_cell|].
  intros c. unfold getitem. destruct (product_rules c !! t) as [inner|].
  - eapply hoare_bind.
    { eapply hoare_conseq; [| |apply hoare_ret]; [by intros ? [? _]|]. intros ? ? [_ H]. exact H. }
    intros inner'. eapply hoare_conseq; [| |apply hoare_sample1]; [done|]. by intros ? ? [? _].
  - eapply (hoare_bind _ _ (λ _ _, False)); [apply hoare_raise|].
    by intros inner' w x w' [].
Qed.

(** [get_random_neighbor] returns one of the neighbours and changes
    nothing but the generator. *)
Lemma hoare_get_random_neighbor n k inv self who :
  hoare (net_inv n k inv) (get_random_neighbor self who)
        (λ nb w, net_inv n k inv w ∧
                 ∃ c, cells w !! self = Some c ∧ nb ∈ neighbors c).
Proof.
  intros w nb w' HI Hrun. unfold get_random_neighbor in Hrun.
  destruct (cells w !! self) as [c|] eqn:Hc;
    [|unfold bind, get_cell in Hrun; by rewrite Hc in Hrun].
  rewrite (bind_get_cell _ _ _ _ Hc) in Hrun.
  assert (Hc' : ∀ (l : list nat) x, sample1 l w = Ok (x, w') →
            net_inv n k inv w' ∧ cells w' !! self = Some c ∧ x ∈ l).
  { intros l x Hs. destruct (hoare_sample1 n k inv l w x w' HI Hs) as [HI' Hx].
    split; [done|]. split; [|done].
    destruct l as [|y l]; [done|].
    destruct (sample1_ok (y :: l) w) as (x' & _ & Hs'); [done|].
    rewrite Hs' in Hs. by inversion Hs; subst. }
  destruct who as [who|].
  - case_bool_decide as Hin; [|done].
    destruct (remove_first_elem who (neighbors c) Hin) as (l1 & l2 & Heq & Hnot & Hrm).
    rewrite Hrm in Hrun.
    destruct (Hc' _ _ Hrun) as (HI' & Hc2 & Hx). split; [done|].
    exists c. split; [done|].
    rewrite Heq. apply elem_of_app in Hx as [Hx|Hx]; apply elem_of_app; [by left|].
    right. apply elem_of_cons. by right.
  - destruct (Hc' _ _ Hrun) as (HI' & Hc2 & Hx). split; [done|]. by exists c.
Qed.

Lemma hoare_add_ProductRule n k inv self obj :
  hoare (net_inv n k inv) (add_ProductRule self obj) (λ _, net_inv (n + 1) k inv).
Proof.
  intros w [] w' [(Hwf & Htot & Hk) Hinv] Hrun. destruct obj as [r|]; [|done].
  destruct (cells w !! self) as [c|] eqn:Hc.
  - rewrite (add_ProductRule_ok _ _ _ _ Hc) in Hrun. inversion Hrun; subst.
    split; [split; [by apply world_after_add_wf|]|].
    + split; [by apply world_after_add_total | done].
    + unfold inventories. simpl. by apply (inventories_insert_same _ _ c).
  - unfold add_ProductRule, try_except, bind, get_cell in Hrun. by rewrite Hc in Hrun.
Qed.

Lemma hoare_remove_ProductRule n k inv self r :
  hoare (net_inv n k inv) (remove_ProductRule self r) (λ _, net_inv (n - 1) k inv).
Proof.
  intros w [] w' [(Hwf & Htot & Hk) Hinv] Hrun.
  destruct (cells w !! self) as [c|] eqn:Hc.
  - destruct (remove_ProductRule_inv _ _ _ _ _ Hc Hrun)
      as (inner & bucket & bucket' & m & Hi & Ho & Hrm & Hn & Hnet).
    rewrite (remove_ProductRule_ok _ _ _ _ _ _ _ _ Hc Hi Ho Hrm Hn Hnet) in Hrun.
    inversion Hrun; subst.
    split; [split; [by eapply world_after_remove_wf|]|].
    + split; [|done].
      by apply (world_after_remove_total self r c inner bucket bucket' w Hc Hi Ho Hrm).
    + unfold inventories. simpl. by apply (inventories_insert_same _ _ c).
  - unfold remove_ProductRule, bind, get_cell in Hrun. by rewrite Hc in Hrun.
Qed.

Lemma hoare_remove_random_rule n k inv :
  hoare (net_inv n k inv) remove_random_rule (λ _, net_inv (n - 1) k inv).
Proof.
  unfold remove_random_rule.
  eapply (hoare_bind _ _ (λ w0 w, net_inv n k inv w)).
  { intros w w0 w' HI Hrun. by inversion Hrun; subst. }
  intros w0. eapply hoare_bind.
  { eapply hoare_conseq; [| |apply hoare_sample1]; [done|]. intros ? ? [H _]. exact H. }
  intros victim. apply hoare_remove_ProductRule.
Qed.

Lemma hoare_reproduce_active_rule n k inv self :
  hoare (net_inv n k inv) (reproduce_active_rule self) (λ _, net_inv n k inv).
Proof.
  unfold reproduce_active_rule. eapply hoare_bind; [apply hoare_get_cell|].
  intros c. destruct (active_rule c) as [r|].
  - eapply (hoare_bind _ _ (λ _, net_inv n k inv)).
    { intros w new w' [HI _] Hrun. inversion Hrun; subst.
      by apply (net_inv_frame n k inv w). }
    intros new. eapply hoare_bind; [apply hoare_add_ProductRule|].
    intros ?. eapply hoare_bind.
    { eapply hoare_conseq; [| |apply hoare_get_cellNet]; [done|]. intros ? ? [H _]. exact H. }
    intros ?. eapply (hoare_bind _ _ (λ _, net_inv (n + 1) k inv)).
    { intros w [] w' HI Hrun. inversion Hrun; subst.
      by apply (net_inv_frame (n + 1) k inv w). }
    intros ?. eapply hoare_conseq; [| |apply hoare_remove_random_rule]; [done|].
    intros ? w. by replace (n + 1 - 1) with n by lia.
  - intros w a w' _ Hrun. done.
Qed.

Lemma hoare_step_counter n k inv :
  hoare (net_inv n k inv)
        (modify_world (λ w, set_master_count (master_count w + 1) w))
        (λ _, net_inv n (k + 1) inv).
Proof.
  intros w [] w' [(Hwf & Htot & Hk) Hinv] Hrun. inversion Hrun; subst.
  split; [|done]. split; [done|]. split; done.
Qed.

Lemma hoare_return_product n k inv product :
  hoare (net_inv n k inv) (return_product product) (λ _, net_inv n k inv).
Proof.
  intros w [] w' HI Hrun. inversion Hrun; subst. by apply (net_inv_frame n k inv w).
Qed.

(** [receive_product] on a network in working order: working order, the
    number of instances, and every inventory but the recipient's stay; the
    counter advances by one; the recipient's inventory stays or gets the
    product pushed. *)
Lemma hoare_receive_product n k inv self sender product prohibited who debug :
  hoare (net_inv n k inv)
        (receive_product self sender product prohibited who debug)
        (λ _ w, net_inv n (k + 1) inv w ∨
                ∃ ps, inv !! self = Some ps ∧
                  net_inv n (k + 1)
                    (<[self := <[get_type product :=
                                   default [] (ps !! get_type product) ++ [product]]> ps]>
                       inv) w).
Proof.
  unfold receive_product.
  eapply hoare_bind.
  { eapply hoare_conseq; [| |apply hoare_get_cellNet]; [done|]. intros ? ? [H _]. exact H. }
  intros ?. eapply hoare_bind; [apply hoare_step_counter|].
  intros ?. eapply hoare_bind; [apply hoare_has_rule|].
  intros [|].
  - eapply hoare_bind.
    { eapply hoare_conseq; [| |apply hoare_get_cell]; [done|]. intros ? ? [H _]. exact H. }
    intros c. eapply (hoare_bind _ _ (λ _, net_inv n (k + 1) inv)).
    2:{ intros ?. eapply hoare_conseq; [| |apply hoare_add_Product]; [done|].
        intros ? w Hps. right. exact Hps. }
    case_bool_decide; [|case_bool_decide].
    + eapply hoare_bind; [apply hoare_get_random_rule_of_type|].
      intros r. eapply hoare_bind; [apply hoare_get_cell|].
      intros c'. eapply hoare_bind; [by apply (hoare_put_cell_same n (k + 1) inv self c')|].
      intros ?. eapply hoare_bind; [apply hoare_reproduce_active_rule|].
      intros ?. apply hoare_set_active.
    + eapply hoare_bind; [apply hoare_reproduce_active_rule|].
      intros ?. apply hoare_set_active.
    + eapply hoare_conseq; [| |apply hoare_ret]; [done|]. by intros ? ? [_ ?].
  - eapply hoare_conseq; [| |apply hoare_return_product]; [done|]. intros ? w HI. by left.
Qed.

(** X5: the rule bookkeeping keeps the network in working order.  From a
    network in working order (consistent aggregates and counters, every
    instance in the bucket of its own pair, no empty bucket or level, every
    cell wired), every call of [add_ProductRule], [remove_ProductRule] or
    [reproduce_active_rule] that returns leaves the network in working
    order; the number of rule instances of the network goes up by one,
    down by one, and stays, respectively; no inventory and not the step
    counter changes. *)
Theorem bookkeeping_keeps_working_order (w w' : World) (self : CellRef) :
  world_wf w →
  (∀ obj, add_ProductRule self obj w = Ok (tt, w') →
     world_wf w' ∧ total_rule_count w' = total_rule_count w + 1 ∧
     master_count w' = master_count w ∧ inventories w' = inventories w) ∧
  (∀ r, remove_ProductRule self r w = Ok (tt, w') →
     world_wf w' ∧ total_rule_count w' = total_rule_count w - 1 ∧
     master_count w' = master_count w ∧ inventories w' = inventories w) ∧
  (reproduce_active_rule self w = Ok (tt, w') →
     world_wf w' ∧ total_rule_count w' = total_rule_count w ∧
     master_count w' = master_count w ∧ inventories w' = inventories w).
Proof.
  intros Hwf.
  assert (HI : net_inv (total_rule_count w) (master_count w) (inventories w) w)
    by done.
  split; [|split].
  - intros obj Hrun.
    by destruct (hoare_add_ProductRule _ _ _ self obj w tt w' HI Hrun) as [(? & ? & ?) ?].
  - intros r Hrun.
    by destruct (hoare_remove_ProductRule _ _ _ self r w tt w' HI Hrun) as [(? & ? & ?) ?].
  - intros Hrun.
    by destruct (hoare_reproduce_active_rule _ _ _ self w tt w' HI Hrun) as [(? & ? & ?) ?].
Qed.

Lemma bookkeeping_keeps_working_order_witness :
  world_wf world1 ∧
  ∃ w', reproduce_active_rule 0%nat world1 = Ok (tt, w') ∧
        world_wf w' ∧ total_rule_count w' = total_rule_count world1.
Proof.
  assert (Hwf : world_wf world1) by (apply (bool_decide_unpack _); vm_compute; exact I).
  split; [exact Hwf|]. eexists. split; [vm_compute; reflexivity|].
  match goal with
  | |- world_wf ?w' ∧ _ =>
      destruct (bookkeeping_keeps_working_order world1 w' 0%nat Hwf) as (_ & _ & Hrep)
  end.
  destruct Hrep as (H1 & H2 & _); [vm_compute; reflexivity|]. exact (conj H1 H2).
Defined.

(** X6: [receive_product] keeps the network in working order.  From a
    network in working order, every call that returns leaves it in working
    order with the same number of rule instances and the step counter
    advanced by exactly one; the inventories of all cells are as before,
    except that the recipient's may have the product pushed on the stack of
    the product's type. *)
Theorem receive_product_keeps_invariants (w w' : World) (self sender who : CellRef)
    (product : Product) (prohibited : Z) (debug : bool) :
  world_wf w →
  receive_product self sender product prohibited who debug w = Ok (tt, w') →
  world_wf w' ∧
  total_rule_count w' = total_rule_count w ∧
  master_count w' = master_count w + 1 ∧
  (inventories w' = inventories w ∨
   ∃ ps, inventories w !! self = Some ps ∧
     inventories w' =
       <[self := <[get_type product :=
                     default [] (ps !! get_type product) ++ [product]]> ps]>
         (inventories w)).
Proof.
  intros Hwf Hrun.
  assert (HI : net_inv (total_rule_count w) (master_count w) (inventories w) w)
    by done.
  destruct (hoare_receive_product _ _ _ self sender product prohibited who debug
              w tt w' HI Hrun) as [[(? & ? & ?) ?] | (ps & Hps & (? & ? & ?) & ?)].
  - do 3 (split; [done|]). by left.
  - do 3 (split; [done|]). right. by exists ps.
Qed.

Lemma receive_product_keeps_invariants_witness :
  world_wf world1 ∧
  ∃ w', receive_product 1%nat 0%nat (mkProduct 2 7) 2 0%nat false world1 = Ok (tt, w') ∧
        world_wf w' ∧ total_rule_count w' = total_rule_count world1 ∧
        master_count w' = master_count world1 + 1.
Proof.
  assert (Hwf : world_wf world1) by (apply (bool_decide_unpack _); vm_compute; exact I).
  split; [exact Hwf|]. eexists. split; [vm_compute; reflexivity|].
  match goal with
  | |- world_wf ?w' ∧ _ =>
      destruct (receive_product_keeps_invariants world1 w' 1%nat 0%nat 0%nat
                  (mkProduct 2 7) 2 false Hwf) as (H1 & H2 & H3 & _)
  end; [vm_compute; reflexivity|]. exact (conj H1 (conj H2 H3)).
Defined.

(** * The initiating phase *)

Lemma bind_get_active_rule {A} self c r (k : ProductRule → M A) w :
  cells w !! self = Some c → active_rule c = Some r →
  bind (get_active_rule self) k w = k r w.
Proof.
  intros Hc Hr. unfold get_active_rule.
  by rewrite bind_assoc, (bind_get_cell _ _ _ _ Hc), Hr.
Qed.

(** The step up to the search for a product. *)
Lemma chain_step_prefix request_product get_random_cell self debug w c r :
  cells w !! self = Some c → cellNet c = Some TheCellNet → active_rule c = Some r →
  chain_step request_product get_random_cell self debug w =
    bind (remove_Product self (get_input r))
      (λ product,
         bind (match product with
               | None =>
                   rule <- get_active_rule self ;;
                   c <- get_cell self ;;
                   request_product (get_input rule) (intel c)
               | Some p => ret (Some p)
               end)
           (λ product,
              match product with
              | Some p =>
                  rule <- get_active_rule self ;;
                  let p' := apply_ProductRule rule p in
                  c <- get_cell self ;;
                  random_neighbor <-
                    (if bool_decide (topology c = "spatial")
                     then get_random_neighbor self None
                     else get_random_cell self) ;;
                  receive_product random_neighbor self p' (get_type p') self debug
              | None => if debug then get_active_rule self ;; ret tt else ret tt
              end))
      (set_master_count (master_count w + 1) w).
Proof.
  intros Hc Hnet Hr. unfold chain_step, get_cellNet.
  rewrite bind_assoc, (bind_get_cell _ _ _ _ Hc), Hnet.
  unfold bind at 1. simpl. unfold bind at 1. simpl.
  by erewrite (bind_get_active_rule self c r) by done.
Qed.

(** X7: the ways [chain_step] fails before it looks for a product.  It
    raises [AttributeError] on a cell without a handle on the cell net,
    and on a wired cell without an active rule. *)
Theorem chain_step_needs_wiring_and_rule
    (request_product : Z → bool → M (option Product))
    (get_random_cell : CellRef → M CellRef)
    (w : World) (self : CellRef) (c : Cell) (debug : bool) :
  cells w !! self = Some c →
  (cellNet c = None ∨ active_rule c = None) →
  chain_step request_product get_random_cell self debug w = Raise AttributeError.
Proof.
  intros Hc Hbad. unfold chain_step, get_cellNet.
  rewrite bind_assoc, (bind_get_cell _ _ _ _ Hc).
  destruct (cellNet c) as [net|] eqn:Hnet; [|done].
  destruct Hbad as [?|Hr]; [done|].
  unfold bind at 1. simpl. unfold bind at 1. simpl.
  unfold get_active_rule. rewrite bind_assoc.
  erewrite bind_get_cell by exact Hc. by rewrite Hr.
Qed.

Lemma chain_step_needs_wiring_and_rule_witness :
  cells world1 !! 1%nat = Some cell_t ∧
  (cellNet cell_t = None ∨ active_rule cell_t = None) ∧
  chain_step (λ _ _, ret None) (λ s, ret s) 1%nat false world1 = Raise AttributeError.
Proof.
  split; [reflexivity|]. split; [by right|].
  apply (chain_step_needs_wiring_and_rule _ _ world1 1%nat cell_t false eq_refl).
  by right.
Defined.

(** X8: a step that finds no product.  When the cell stores no product
    of the active rule's input type (no key, or an empty stack), the urn is
    asked for one with the cell's intelligence flag, in the world in which
    only the step counter has advanced; when the urn has none, the step
    ends there: nothing is transformed, sent or reproduced, and the world
    is the one the urn left (with [debug] on, the message reads the active
    rule, which the cell must still have).  A failure of the urn is the
    failure of the step. *)
Theorem chain_step_without_product
    (request_product : Z → bool → M (option Product))
    (get_random_cell : CellRef → M CellRef)
    (w : World) (self : CellRef) (c : Cell) (r : ProductRule) (debug : bool) :
  cells w !! self = Some c → cellNet c = Some TheCellNet →
  active_rule c = Some r →
  (products c !! get_input r = None ∨ products c !! get_input r = Some []) →
  let w0 := set_master_count (master_count w + 1) w in
  (∀ w1, request_product (get_input r) (intel c) w0 = Ok (None, w1) →
     (debug = true → ∃ c1, cells w1 !! self = Some c1 ∧ is_Some (active_rule c1)) →
     chain_step request_product get_random_cell self debug w = Ok (tt, w1)) ∧
  (∀ e, request_product (get_input r) (intel c) w0 = Raise e →
     chain_step request_product get_random_cell self debug w = Raise e).
Proof.
  intros Hc Hnet Hr Hnone w0.
  assert (Hstep : chain_step request_product get_random_cell self debug w =
            bind (request_product (get_input r) (intel c))
              (λ product,
                 match product with
                 | Some p =>
                     rule <- get_active_rule self ;;
                     let p' := apply_ProductRule rule p in
                     c <- get_cell self ;;
                     random_neighbor <-
                       (if bool_decide (topology c = "spatial")
                        then get_random_neighbor self None
                        else get_random_cell self) ;;
                     receive_product random_neighbor self p' (get_type p') self debug
                 | None => if debug then get_active_rule self ;; ret tt else ret tt
                 end) w0).
  { rewrite (chain_step_prefix _ _ _ _ _ _ _ Hc Hnet Hr). fold w0.
    rewrite (bind_ok _ _ _ _ _ (remove_Product_none self _ w0 c Hc Hnone)).
    rewrite bind_assoc. erewrite (bind_get_active_rule self c r) by done.
    rewrite bind_assoc. by erewrite bind_get_cell by exact Hc. }
  split.
  - intros w1 Hreq Hdbg. rewrite Hstep, (bind_ok _ _ _ _ _ Hreq).
    destruct debug; [|done].
    destruct (Hdbg eq_refl) as (c1 & Hc1 & r1 & Hr1).
    by rewrite (bind_get_active_rule self c1 r1 _ w1 Hc1 Hr1).
  - intros e Hreq. by rewrite Hstep, (bind_raise _ _ _ _ Hreq).
Qed.

Lemma chain_step_without_product_witness :
  cells world1 !! 0%nat = Some cell_s ∧ cellNet cell_s = Some TheCellNet ∧
  active_rule cell_s = Some rule_12a ∧
  chain_step (λ _ _, ret None) (λ s, ret s) 0%nat true world1 =
    Ok (tt, set_master_count 11 world1).
Proof.
  split; [reflexivity|]. split; [reflexivity|]. split; [reflexivity|].
  refine (proj1 (chain_step_without_product (λ _ _, ret None) (λ s, ret s)
                   world1 0%nat cell_s rule_12a true eq_refl eq_refl eq_refl _) _ _ _).
  - by left.
  - reflexivity.
  - intros _. exists cell_s. split; [reflexivity | by eexists].
Defined.

(** The step from the moment a stored product is found. *)
Lemma chain_step_stored_run request_product get_random_cell w self c r stack p debug :
  cells w !! self = Some c → cellNet c = Some TheCellNet →
  active_rule c = Some r →
  products c !! get_input r = Some (stack ++ [p]) →
  chain_step request_product get_random_cell self debug w =
    bind (if bool_decide (topology c = "spatial")
          then get_random_neighbor self None
          else get_random_cell self)
         (λ random_neighbor,
            receive_product random_neighbor self (apply_ProductRule r p)
              (get_output r) self debug)
         (set_cells
            (<[self := set_products (<[get_input r := stack]> (products c)) c]> (cells w))
            (set_master_count (master_count w + 1) w)).
Proof.
  intros Hc Hnet Hr Hp.
  set (c1 := set_products (<[get_input r := stack]> (products c)) c).
  set (w1 := set_cells (<[self := c1]> (cells w)) (set_master_count (master_count w + 1) w)).
  assert (Hc1 : cells w1 !! self = Some c1) by (simpl; apply lookup_insert_eq).
  rewrite (chain_step_prefix _ _ _ _ _ _ _ Hc Hnet Hr).
  rewrite (bind_ok _ _ _ _ _
             (remove_Product_top self _ (set_master_count (master_count w + 1) w)
                c stack p Hc Hp)).
  fold c1. fold w1. rewrite bind_ret.
  erewrite (bind_get_active_rule self c1 r) by done.
  by erewrite bind_get_cell by exact Hc1.
Qed.

(** X9: a step that finds a stored product.  When the cell stores a
    product of the active rule's input type, the step pops the most
    recently stored one, gives it the rule's output type, draws the
    recipient (a neighbour on a spatial cell, otherwise the cell the net
    picks), and hands the product over with the initiating cell as sender;
    the urn is not asked.  On a spatial cell without neighbours the step
    fails with [ValueError]. *)
Theorem chain_step_uses_stored_product
    (request_product : Z → bool → M (option Product))
    (get_random_cell : CellRef → M CellRef)
    (w : World) (self : CellRef) (c : Cell) (r : ProductRule)
    (stack : list Product) (p : Product) (debug : bool) :
  cells w !! self = Some c → cellNet c = Some TheCellNet →
  active_rule c = Some r →
  products c !! get_input r = Some (stack ++ [p]) →
  let w1 := set_cells
              (<[self := set_products (<[get_input r := stack]> (products c)) c]> (cells w))
              (set_master_count (master_count w + 1) w) in
  chain_step request_product get_random_cell self debug w =
    bind (if bool_decide (topology c = "spatial")
          then get_random_neighbor self None
          else get_random_cell self)
         (λ random_neighbor,
            receive_product random_neighbor self (apply_ProductRule r p)
              (get_output r) self debug) w1 ∧
  (topology c = "spatial" → neighbors c = [] →
     chain_step request_product get_random_cell self debug w = Raise ValueError).
Proof.
  intros Hc Hnet Hr Hp w1.
  pose proof (chain_step_stored_run request_product get_random_cell
                w self c r stack p debug Hc Hnet Hr Hp) as Hstep.
  split; [exact Hstep|].
  intros Htopo Hnb. rewrite Hstep, bool_decide_eq_true_2 by done.
  apply bind_raise. unfold get_random_neighbor.
  erewrite bind_get_cell by (simpl; apply lookup_insert_eq).
  simpl. by rewrite Hnb.
Qed.

Lemma chain_step_uses_stored_product_witness :
  cells world2 !! 0%nat = Some cell_sp ∧ cellNet cell_sp = Some TheCellNet ∧
  active_rule cell_sp = Some rule_12a ∧
  products cell_sp !! get_input rule_12a = Some ([] ++ [mkProduct 1 50]) ∧
  ∃ w', chain_step (λ _ _, raise KeyError) (λ _, raise KeyError) 0%nat false world2 =
          Ok (tt, w') ∧ master_count w' = 12.
Proof.
  split; [reflexivity|]. split; [reflexivity|]. split; [reflexivity|].
  split; [reflexivity|].
  destruct (chain_step_uses_stored_product (λ _ _, raise KeyError) (λ _, raise KeyError)
              world2 0%nat cell_sp rule_12a [] (mkProduct 1 50) false
              eq_refl eq_refl eq_refl eq_refl) as [Hstep _].
  rewrite Hstep. eexists. split; [vm_compute; reflexivity | reflexivity].
Defined.

(** ** The invariant across a step *)

Lemma hoare_tick {A} n k n' k' (m : M A) :
  (∀ inv, hoare (net_inv n k inv) m (λ _ w, ∃ inv', net_inv n' k' inv' w)) →
  hoare (tick_inv n k) m (λ _, tick_inv n' k').
Proof.
  intros Hm w a w' HI Hrun.
  by destruct (Hm (inventories w) w a w' (conj HI eq_refl) Hrun) as [inv' [? _]].
Qed.

Lemma hoare_chain_step request_product get_random_cell n k self debug :
  (∀ t i, hoare (tick_inv n (k + 1)) (request_product t i) (λ _, tick_inv n (k + 1))) →
  (∀ s, hoare (tick_inv n (k + 1)) (get_random_cell s) (λ _, tick_inv n (k + 1))) →
  hoare (tick_inv n k) (chain_step request_product get_random_cell self debug)
        (λ _ w, tick_inv n (k + 1) w ∨ tick_inv n (k + 2) w).
Proof.
  intros Hreq Hgrc. unfold chain_step.
  eapply hoare_bind.
  { eapply hoare_conseq; [| |apply hoare_get_cellNet]; [done|]. intros ? ? [H _]. exact H. }
  intros ?. eapply (hoare_bind _ _ (λ _, tick_inv n (k + 1))).
  { apply hoare_tick. intros inv. eapply hoare_conseq; [| |apply hoare_step_counter]; [done|].
    intros ? w HI. by exists inv. }
  intros ?. eapply hoare_bind.
  { eapply hoare_conseq; [| |apply hoare_get_active_rule]; [done|]. intros ? ? [H _]. exact H. }
  intros rule. eapply (hoare_bind _ _ (λ _, tick_inv n (k + 1))).
  { apply hoare_tick. intros inv.
    eapply hoare_conseq; [| |apply hoare_remove_Product]; [done|].
    intros [p|] w HI; [|by exists inv].
    destruct HI as (ps & stack & _ & _ & HI). eauto. }
  intros product. eapply (hoare_bind _ _ (λ _, tick_inv n (k + 1))).
  { destruct product as [p|].
    - eapply hoare_conseq; [| |apply hoare_ret]; [done|]. by intros ? ? [_ ?].
    - eapply hoare_bind.
      { eapply hoare_conseq; [| |apply hoare_get_active_rule]; [done|].
        intros ? ? [H _]. exact H. }
      intros ?. eapply hoare_bind.
      { eapply hoare_conseq; [| |apply hoare_get_cell]; [done|]. intros ? ? [H _]. exact H. }
      intros ?. apply Hreq. }
  intros [p|].
  - eapply hoare_bind.
    { eapply hoare_conseq; [| |apply hoare_get_active_rule]; [done|]. intros ? ? [H _]. exact H. }
    intros rule'. simpl. eapply hoare_bind.
    { eapply hoare_conseq; [| |apply hoare_get_cell]; [done|]. intros ? ? [H _]. exact H. }
    intros c. eapply (hoare_bind _ _ (λ _, tick_inv n (k + 1))).
    { case_bool_decide; [|apply Hgrc].
      apply hoare_tick. intros inv.
      eapply hoare_conseq; [| |apply hoare_get_random_neighbor]; [done|].
      intros ? w [HI _]. by exists inv. }
    intros nb. eapply hoare_conseq; [done| |].
    2:{ apply (hoare_tick n (k + 1) n (k + 1 + 1)). intros inv.
        eapply hoare_conseq; [| |apply hoare_receive_product]; [done|].
        intros ? w [HI | (ps & _ & HI)]; eauto. }
    intros ? w HI. right. by replace (k + 2) with (k + 1 + 1) by lia.
  - destruct debug.
    + eapply hoare_bind.
      { eapply hoare_conseq; [| |apply hoare_get_active_rule]; [done|].
        intros ? ? [H _]. exact H. }
      intros ?. eapply hoare_conseq; [| |apply hoare_ret]; [done|]. intros ? ? [_ ?]. by left.
    + eapply hoare_conseq; [| |apply hoare_ret]; [done|]. intros ? ? [_ ?]. by left.
Qed.

(** X10: [chain_step] keeps the network in working order.  With an urn
    and a cell picker that leave the rule bookkeeping and the step counter
    alone, every step that returns from a network in working order leaves
    it in working order with the same number of rule instances; the step
    counter has advanced by one (no product was found) or by two (a product
    was handed to a recipient). *)
Theorem chain_step_keeps_invariants
    (request_product : Z → bool → M (option Product))
    (get_random_cell : CellRef → M CellRef)
    (w w' : World) (self : CellRef) (debug : bool) :
  (∀ t i w0 res w1, world_wf w0 → request_product t i w0 = Ok (res, w1) →
     world_wf w1 ∧ total_rule_count w1 = total_rule_count w0 ∧
     master_count w1 = master_count w0) →
  (∀ s w0 res w1, world_wf w0 → get_random_cell s w0 = Ok (res, w1) →
     world_wf w1 ∧ total_rule_count w1 = total_rule_count w0 ∧
     master_count w1 = master_count w0) →
  world_wf w →
  chain_step request_product get_random_cell self debug w = Ok (tt, w') →
  world_wf w' ∧
  total_rule_count w' = total_rule_count w ∧
  (master_count w' = master_count w + 1 ∨ master_count w' = master_count w + 2).
Proof.
  intros Hreq Hgrc Hwf Hrun.
  assert (HI : tick_inv (total_rule_count w) (master_count w) w) by done.
  destruct (hoare_chain_step request_product get_random_cell
              (total_rule_count w) (master_count w) self debug) with (w := w) (a := tt) (w' := w')
    as [(? & ? & ?) | (? & ? & ?)]; try done.
  - intros t i w0 res w1 (Hwf0 & Ht0 & Hk0) Hr.
    destruct (Hreq t i w0 res w1 Hwf0 Hr) as (? & ? & ?).
    split; [done|]. split; congruence.
  - intros s w0 res w1 (Hwf0 & Ht0 & Hk0) Hr.
    destruct (Hgrc s w0 res w1 Hwf0 Hr) as (? & ? & ?).
    split; [done|]. split; congruence.
  - split; [done|]. split; [done|]. by left.
  - split; [done|]. split; [done|]. by right.
Qed.

Lemma chain_step_keeps_invariants_witness :
  world_wf world2 ∧
  ∃ w', chain_step (λ _ _, ret None) (λ s, ret s) 0%nat false world2 = Ok (tt, w') ∧
        world_wf w' ∧ total_rule_count w' = total_rule_count world2.
Proof.
  assert (Hwf : world_wf world2) by (apply (bool_decide_unpack _); vm_compute; exact I).
  split; [exact Hwf|]. eexists. split; [vm_compute; reflexivity|].
  match goal with
  | |- world_wf ?w' ∧ _ =>
      destruct (chain_step_keeps_invariants (λ _ _, ret None) (λ s, ret s)
                  world2 w' 0%nat false) as (H1 & H2 & _)
  end.
  - intros t i w0 res w1 Hw0 [= _ <-]. done.
  - intros s w0 res w1 Hw0 [= _ <-]. done.
  - exact Hwf.
  - vm_compute; reflexivity.
  - exact (conj H1 H2).
Defined.

(** X11: a complete successful step.  On a network in working order, a
    spatial cell with an active rule that stores a product of the rule's
    input type, and whose drawn neighbour is another cell that has a rule
    for the rule's output type and follows the "source" policy: the step
    returns; the network is in working order with as many rule instances
    as before; the step counter has advanced by two; the sender's active
    rule is [None] and its stack has lost the product; the neighbour's
    stack for the output type has gained the product, retyped; no other
    inventory has changed. *)
Theorem chain_step_delivers
    (request_product : Z → bool → M (option Product))
    (get_random_cell : CellRef → M CellRef)
    (w : World) (self nb : CellRef) (c cn : Cell) (r : ProductRule)
    (stack : list Product) (p : Product) (debug : bool) :
  world_wf w → cells w !! self = Some c → active_rule c = Some r →
  products c !! get_input r = Some (stack ++ [p]) →
  topology c = "spatial" →
  neighbors c !! next_index w (length (neighbors c)) = Some nb →
  nb ≠ self → cells w !! nb = Some cn →
  is_Some (product_rules cn !! get_output r) → repro_type cn = "source" →
  ∃ w' s' cn',
    chain_step request_product get_random_cell self debug w = Ok (tt, w') ∧
    world_wf w' ∧
    total_rule_count w' = total_rule_count w ∧
    master_count w' = master_count w + 2 ∧
    cells w' !! self = Some s' ∧ active_rule s' = None ∧
    products s' = <[get_input r := stack]> (products c) ∧
    cells w' !! nb = Some cn' ∧
    products cn' =
      <[get_output r :=
          default [] (products cn !! get_output r) ++ [apply_ProductRule r p]]>
        (products cn) ∧
    (∀ j, j ≠ self → j ≠ nb → inventories w' !! j = inventories w !! j).
Proof.
  intros Hwf Hc Hr Hp Htopo Hnb Hne Hcn Hhas Hsrc.
  pose proof (Hwf self c Hc) as Hcwf. pose proof Hcwf as (_ & _ & _ & Hnet).
  set (c1 := set_products (<[get_input r := stack]> (products c)) c).
  set (w1 := set_cells (<[self := c1]> (cells w)) (set_master_count (master_count w + 1) w)).
  set (w2 := advance_RNG w1).
  assert (Hc1 : cells w2 !! self = Some c1) by (simpl; apply lookup_insert_eq).
  assert (Hcn2 : cells w2 !! nb = Some cn) by (simpl; by rewrite lookup_insert_ne).
  assert (Hwf2 : world_wf w2).
  { unfold world_wf. simpl. apply map_Forall_insert_2; [|done].
    by apply (same_bookkeeping_wf c). }
  assert (Htot2 : total_rule_count w2 = total_rule_count w).
  { apply (total_rule_count_same_rules w self c c1 w Hc). done. }
  assert (Hnbr : get_random_neighbor self None w1 = Ok (nb, w2)).
  { unfold get_random_neighbor. erewrite bind_get_cell by (simpl; apply lookup_insert_eq).
    destruct (sample1_ok (neighbors c) w1) as (x & Hx & Hs).
    { intros Hnil. by rewrite Hnil in Hnb. }
    change (next_index w1 (length (neighbors c)))
      with (next_index w (length (neighbors c))) in Hx.
    rewrite Hnb in Hx. inversion Hx; subst. exact Hs. }
  destruct (receive_product_source w2 nb self cn c1 r (apply_ProductRule r p)
              (get_output r) self debug Hwf2 Hcn2 Hhas Hsrc Hc1 Hr)
    as (w' & owner & victim & s' & cn' & Hrun & Htot & Hmc & _ & Hs' & Hact & _
        & Hcn' & Hprod & _).
  assert (HI : net_inv (total_rule_count w2) (master_count w2) (inventories w2) w2) by done.
  pose proof (hoare_receive_product _ _ _ nb self (apply_ProductRule r p)
                (get_output r) self debug w2 tt w' HI Hrun) as Hinv.
  assert (Hother : ∀ j, j ≠ nb → inventories w' !! j = inventories w2 !! j).
  { intros j Hj. destruct Hinv as [[_ ->] | (ps & _ & [_ ->])]; [done|].
    by rewrite lookup_insert_ne. }
  exists w', s', cn'. split.
  { rewrite (chain_step_stored_run _ _ w self c r stack p debug Hc Hnet Hr Hp).
    rewrite bool_decide_eq_true_2 by done. fold c1. fold w1.
    by rewrite (bind_ok _ _ _ _ _ Hnbr). }
  split; [by destruct Hinv as [[(? & _) _] | (ps & _ & [(? & _) _])]|].
  split; [by rewrite Htot|]. split; [rewrite Hmc; simpl; lia|].
  split; [done|]. split; [done|]. split.
  { pose proof (Hother self (not_eq_sym Hne)) as Hself.
    unfold inventories in Hself. rewrite !lookup_fmap, Hs', Hc1 in Hself.
    by inversion Hself. }
  split; [done|]. split; [done|].
  intros j Hjs Hjn. rewrite (Hother j Hjn). unfold inventories. simpl.
  by rewrite !lookup_fmap, lookup_insert_ne.
Qed.

Lemma chain_step_delivers_witness :
  world_wf world2 ∧ cells world2 !! 0%nat = Some cell_sp ∧
  active_rule cell_sp = Some rule_12a ∧
  ∃ w' cn',
    chain_step (λ _ _, raise KeyError) (λ _, raise KeyError) 0%nat false world2 =
      Ok (tt, w') ∧
    master_count w' = 12 ∧
    cells w' !! 1%nat = Some cn' ∧
    products cn' = <[2 := [mkProduct 2 50]]> (products cell_t).
Proof.
  assert (Hwf : world_wf world2) by (apply (bool_decide_unpack _); vm_compute; exact I).
  split; [exact Hwf|]. split; [reflexivity|]. split; [reflexivity|].
  destruct (chain_step_delivers (λ _ _, raise KeyError) (λ _, raise KeyError)
              world2 0%nat 1%nat cell_sp cell_t rule_12a [] (mkProduct 1 50) false
              Hwf eq_refl eq_refl eq_refl eq_refl eq_refl)
    as (w' & s' & cn' & Hrun & _ & _ & Hmc & _ & _ & _ & Hcn' & Hprod & _).
  - discriminate.
  - reflexivity.
  - by eexists.
  - reflexivity.
  - exists w', cn'. split; [exact Hrun|]. split; [exact Hmc|]. split; [exact Hcn'|].
    exact Hprod.
Defined.

(** * Further properties of the inventory *)

Lemma inventory_keyed_insert prods t stack :
  inventory_keyed prods → Forall (λ p, get_type p = t) stack →
  inventory_keyed (<[t := stack]> prods).
Proof. intros Hk Hs. by apply map_Forall_insert_2. Qed.

Lemma inventory_keyed_pruned c :
  inventory_keyed (products c) → inventory_keyed (pruned_products c).
Proof.
  intros Hk t stack. rewrite pruned_products_lookup.
  destruct (products c !! t) as [stack0|] eqn:Ht; [|done]. simpl. intros [= <-].
  case_bool_decide; [by apply (Hk t)|done].
Qed.

(** X12: the inventory stays keyed by type.  When every stored product
    sits on the stack of its own type, this is so again after
    [add_Product], [remove_Product] and [has_Product], and the product
    [remove_Product] returns has the requested type. *)
Theorem inventory_stays_keyed (w : World) (self : CellRef) (c : Cell) :
  cells w !! self = Some c → inventory_keyed (products c) →
  (∀ p, ∃ w' c', add_Product self p w = Ok (tt, w') ∧
          cells w' !! self = Some c' ∧ inventory_keyed (products c')) ∧
  (∀ t, ∃ res w' c', remove_Product self t w = Ok (res, w') ∧
          cells w' !! self = Some c' ∧ inventory_keyed (products c') ∧
          ∀ p, res = Some p → get_type p = t) ∧
  (∃ res w' c', has_Product self w = Ok (res, w') ∧
          cells w' !! self = Some c' ∧ inventory_keyed (products c')).
Proof.
  intros Hc Hk. split; [|split].
  - intros p. eexists _, _. split; [by apply add_Product_ok|].
    split; [simpl; apply lookup_insert_eq|]. simpl.
    apply inventory_keyed_insert; [done|]. apply Forall_app. split; [|by repeat constructor].
    destruct (products c !! get_type p) as [stack|] eqn:Ht; [|done]. by apply (Hk _ _ Ht).
  - intros t. destruct (products c !! t) as [stack|] eqn:Ht.
    + destruct stack as [|p stack _] using rev_ind.
      * exists None, w, c. split; [apply (remove_Product_none _ _ _ c); auto|]. done.
      * pose proof (Hk t _ Ht) as Hall. apply Forall_app in Hall as [Hs Hp].
        eexists (Some p), _, _. split; [by eapply remove_Product_top|].
        split; [simpl; apply lookup_insert_eq|]. split.
        -- simpl. by apply inventory_keyed_insert.
        -- intros q [= <-]. by inversion Hp.
    + exists None, w, c. split; [apply (remove_Product_none _ _ _ c); auto|]. done.
  - rewrite (has_Product_run w self c Hc). unfold try_except.
    pose proof (inventory_keyed_pruned c Hk) as Hk'.
    destruct (stored_usable c) as [|p0 l] eqn:Hhas.
    + eexists None, _, _. split; [reflexivity|].
      split; [simpl; apply lookup_insert_eq | done].
    + destruct (sample1_ok (p0 :: l)
                  (set_cells (<[self := set_products (pruned_products c) c]> (cells w)) w))
        as (p & _ & Hs); [done|].
      rewrite (bind_ok _ _ _ _ _ Hs).
      eexists _, _, _. split; [reflexivity|].
      split; [simpl; apply lookup_insert_eq | done].
Qed.

Lemma inventory_stays_keyed_witness :
  cells world_inv !! 0%nat = Some cell_inv ∧ inventory_keyed (products cell_inv) ∧
  ∃ res w' c', remove_Product 0%nat 1 world_inv = Ok (res, w') ∧
               cells w' !! 0%nat = Some c' ∧ inventory_keyed (products c').
Proof.
  assert (Hkey : inventory_keyed (products cell_inv))
    by (apply (bool_decide_unpack _); vm_compute; exact I).
  split; [reflexivity|]. split; [exact Hkey|].
  destruct (inventory_stays_keyed world_inv 0%nat cell_inv eq_refl Hkey) as (_ & Hrem & _).
  destruct (Hrem 1) as (res & w' & c' & H1 & H2 & H3 & _).
  by exists res, w', c'.
Defined.

(** X13: a type announced by [has_Product] can be taken.  On a keyed
    inventory, when [has_Product] returns a type, [remove_Product] of that
    type on the world it leaves returns a product, and the product has that
    type. *)
Theorem has_Product_then_remove_Product (w w' : World) (self : CellRef) (c : Cell) (t : Z) :
  cells w !! self = Some c → inventory_keyed (products c) →
  has_Product self w = Ok (Some t, w') →
  is_Some (product_rules c !! t) ∧
  ∃ p w'', remove_Product self t w' = Ok (Some p, w'') ∧ get_type p = t ∧
           ∃ stack, products c !! t = Some (stack ++ [p]).
Proof.
  intros Hc Hk Hrun. rewrite (has_Product_run w self c Hc) in Hrun.
  unfold try_except in Hrun.
  set (w1 := set_cells (<[self := set_products (pruned_products c) c]> (cells w)) w) in *.
  destruct (stored_usable c) as [|p0 l] eqn:Hhas; [done|].
  destruct (sample1_ok (p0 :: l) w1) as (q & Hq & Hs); [done|].
  rewrite (bind_ok _ _ _ _ _ Hs) in Hrun. inversion Hrun; subst. clear Hrun.
  assert (Hin : q ∈ stored_usable c)
    by (rewrite Hhas; apply list_elem_of_lookup; eauto).
  apply (elem_of_stored_usable c q Hk) in Hin as [Hrule Hin].
  split; [done|].
  destruct (products c !! get_type q) as [stack|] eqn:Ht; [|by apply elem_of_nil in Hin].
  simpl in Hin. destruct stack as [|p stack _] using rev_ind;
    [by apply elem_of_nil in Hin|].
  pose proof (Hk _ _ Ht) as Hall. apply Forall_app in Hall as [_ Hp].
  exists p. eexists. split.
  - eapply (remove_Product_top self (get_type q) (advance_RNG w1) _ stack p).
    + simpl. apply lookup_insert_eq.
    + simpl. rewrite pruned_products_lookup, Ht. simpl.
      by rewrite bool_decide_eq_true_2.
  - split; [by inversion Hp|]. by exists stack.
Qed.

Lemma has_Product_then_remove_Product_witness :
  cells world_inv !! 0%nat = Some cell_inv ∧ inventory_keyed (products cell_inv) ∧
  ∃ w' p w'', has_Product 0%nat world_inv = Ok (Some 2, w') ∧
              remove_Product 0%nat 2 w' = Ok (Some p, w'') ∧ get_type p = 2.
Proof.
  assert (Hkey : inventory_keyed (products cell_inv))
    by (apply (bool_decide_unpack _); vm_compute; exact I).
  split; [reflexivity|]. split; [exact Hkey|]. eexists.
  match goal with
  | |- ∃ p w'', has_Product _ _ = Ok (_, ?w') ∧ _ =>
      destruct (has_Product_then_remove_Product world_inv w' 0%nat cell_inv 2
                  eq_refl Hkey) as (_ & p & w'' & Hrem & Hty & _)
  end; [vm_compute; reflexivity|].
  exists p, w''. split; [vm_compute; reflexivity|]. by split.
Defined.

(** X14: the stack of a type is last in, first out over two products.
    Storing [p] and then [q] of the same type and taking twice returns [q]
    and then [p], and leaves the stack of the type as it was before (with a
    key, if it had none). *)
Theorem inventory_last_in_first_out (w : World) (self : CellRef) (c : Cell)
    (p q : Product) :
  cells w !! self = Some c → get_type q = get_type p →
  ∃ w1 w2 w3 w4 c4,
    add_Product self p w = Ok (tt, w1) ∧
    add_Product self q w1 = Ok (tt, w2) ∧
    remove_Product self (get_type p) w2 = Ok (Some q, w3) ∧
    remove_Product self (get_type p) w3 = Ok (Some p, w4) ∧
    cells w4 !! self = Some c4 ∧
    products c4 = <[get_type p := default [] (products c !! get_type p)]> (products c).
Proof.
  intros Hc Hty.
  set (t := get_type p) in *. set (s0 := default [] (products c !! t)).
  pose proof (add_Product_ok self p w c Hc) as H1. fold t s0 in H1.
  set (c1 := set_products (<[t := s0 ++ [p]]> (products c)) c) in *.
  set (w1 := set_cells (<[self := c1]> (cells w)) w) in *.
  assert (Hc1 : cells w1 !! self = Some c1) by apply lookup_insert_eq.
  assert (Hl1 : products c1 !! t = Some (s0 ++ [p])) by apply lookup_insert_eq.
  pose proof (add_Product_ok self q w1 c1 Hc1) as H2. rewrite Hty, Hl1 in H2.
  simpl default in H2.
  set (c2 := set_products (<[t := (s0 ++ [p]) ++ [q]]> (products c1)) c1) in *.
  set (w2 := set_cells (<[self := c2]> (cells w1)) w1) in *.
  assert (Hc2 : cells w2 !! self = Some c2) by apply lookup_insert_eq.
  assert (Hl2 : products c2 !! t = Some ((s0 ++ [p]) ++ [q])) by apply lookup_insert_eq.
  pose proof (remove_Product_top self t w2 c2 (s0 ++ [p]) q Hc2 Hl2) as H3.
  set (c3 := set_products (<[t := s0 ++ [p]]> (products c2)) c2) in *.
  set (w3 := set_cells (<[self := c3]> (cells w2)) w2) in *.
  assert (Hc3 : cells w3 !! self = Some c3) by apply lookup_insert_eq.
  assert (Hl3 : products c3 !! t = Some (s0 ++ [p])) by apply lookup_insert_eq.
  pose proof (remove_Product_top self t w3 c3 s0 p Hc3 Hl3) as H4.
  eexists w1, w2, w3, _, _. do 4 (split; [done|]).
  split; [simpl; apply lookup_insert_eq|].
  simpl. by rewrite !insert_insert_eq.
Qed.

Lemma inventory_last_in_first_out_witness :
  cells world0 !! 0%nat = Some cell_a ∧
  get_type (mkProduct 5 8) = get_type (mkProduct 5 7) ∧
  ∃ w1 w2 w3,
    add_Product 0%nat (mkProduct 5 7) world0 = Ok (tt, w1) ∧
    add_Product 0%nat (mkProduct 5 8) w1 = Ok (tt, w2) ∧
    remove_Product 0%nat 5 w2 = Ok (Some (mkProduct 5 8), w3).
Proof.
  split; [reflexivity|]. split; [reflexivity|].
  destruct (inventory_last_in_first_out world0 0%nat cell_a (mkProduct 5 7) (mkProduct 5 8)
              eq_refl eq_refl)
    as (w1 & w2 & w3 & w4 & c4 & H1 & H2 & H3 & _).
  by exists w1, w2, w3.
Defined.

(** * The product-rule net and the aggregates *)

Lemma elem_of_aggregate_keys cs k name :
  (k, name) ∈ aggregate_keys cs ↔
    ∃ c, cs !! k = Some c ∧ is_Some (product_netrules c !! name).
Proof.
  unfold aggregate_keys. rewrite elem_of_list_to_set, elem_of_flat_map. split.
  - intros ([j c] & Hin & Hk). apply elem_of_map_to_list in Hin.
    apply list_elem_of_fmap in Hk as (name' & [= -> ->] & Hname).
    exists c. split; [done|]. by apply elem_of_keys.
  - intros (c & Hc & Hname). exists (k, c). split; [by apply elem_of_map_to_list|].
    apply list_elem_of_fmap. exists name. split; [done|]. by apply elem_of_keys.
Qed.

Lemma aggregate_keys_insert cs k c' j name :
  (j, name) ∈ aggregate_keys (<[k := c']> cs) ↔
    (j = k ∧ is_Some (product_netrules c' !! name)) ∨
    (j ≠ k ∧ (j, name) ∈ aggregate_keys cs).
Proof.
  rewrite !elem_of_aggregate_keys. destruct (decide (j = k)) as [->|Hne].
  - rewrite lookup_insert_eq. split.
    + intros (c & [= <-] & Hn). by left.
    + intros [[_ Hn] | [? _]]; [|done]. by exists c'.
  - rewrite lookup_insert_ne by done. split.
    + intros H. by right.
    + by intros [[? _] | [_ H]].
Qed.

Lemma aggregate_keys_insert_same cs k c c' :
  cs !! k = Some c → product_netrules c' = product_netrules c →
  aggregate_keys (<[k := c']> cs) = aggregate_keys cs.
Proof.
  intros Hc Hn. apply set_eq. intros [j name].
  rewrite aggregate_keys_insert, Hn. destruct (decide (j = k)) as [->|Hne].
  - rewrite elem_of_aggregate_keys. split.
    + intros [[_ H] | [? _]]; [|done]. by exists c.
    + intros (c0 & Hc0 & H). left. split; [done|]. congruence.
  - split; [by intros [[? _] | [_ H]] | intros H; by right].
Qed.

Lemma aggregates_labelled_insert cs k c' :
  aggregates_labelled cs →
  map_Forall (λ name n, netrule_key n = Some (k, name)) (product_netrules c') →
  aggregates_labelled (<[k := c']> cs).
Proof. intros Hl Hc. by apply map_Forall_insert_2. Qed.

Lemma registry_replay_app calls calls' live :
  registry_replay (calls ++ calls') live =
    match registry_replay calls live with
    | Some live' => registry_replay calls' live'
    | None => None
    end.
Proof.
  revert live. induction calls as [|call calls IH]; intros live; simpl; [done|].
  destruct (registry_step call live); [apply IH | done].
Qed.

Lemma registry_tracks_refl w :
  aggregates_labelled (cells w) → registry_tracks w w.
Proof. intros Hl. split; [done|]. exists []. by rewrite app_nil_r. Qed.

(** One more stretch of calls. *)
Lemma registry_tracks_extend w0 w w' extra :
  registry_tracks w0 w → aggregates_labelled (cells w') →
  productRule_Net w' = productRule_Net w ++ extra →
  registry_replay extra (aggregate_keys (cells w)) = Some (aggregate_keys (cells w')) →
  registry_tracks w0 w'.
Proof.
  intros (_ & calls & Hlog & Hrep) Hl' Hlog' Hrep'. split; [done|].
  exists (calls ++ extra). split.
  - by rewrite Hlog', Hlog, app_assoc.
  - by rewrite registry_replay_app, Hrep.
Qed.

Lemma registry_tracks_frame w0 w w' :
  cells w' = cells w → productRule_Net w' = productRule_Net w →
  registry_tracks w0 w → registry_tracks w0 w'.
Proof. unfold registry_tracks. by intros -> ->. Qed.

Lemma tracks_put_cell w0 self c c' :
  product_netrules c' = product_netrules c →
  hoare (λ w, registry_tracks w0 w ∧ cells w !! self = Some c) (put_cell self c')
        (λ _, registry_tracks w0).
Proof.
  intros Hn w [] w' [Ht Hc] Hrun. inversion Hrun; subst.
  apply (registry_tracks_extend w0 w _ []); [done| | |].
  - simpl. apply aggregates_labelled_insert; [apply Ht|].
    rewrite Hn. by apply (proj1 Ht self c).
  - simpl. by rewrite app_nil_r.
  - simpl. by rewrite (aggregate_keys_insert_same _ _ c).
Qed.

Lemma netrule_key_add_to_count n : netrule_key (add_to_count n) = netrule_key n.
Proof. reflexivity. Qed.

Lemma netrule_key_subtract_from_count n :
  netrule_key (subtract_from_count n) = netrule_key n.
Proof. reflexivity. Qed.

Lemma tracks_add_ProductRule w0 self obj :
  hoare (registry_tracks w0) (add_ProductRule self obj) (λ _, registry_tracks w0).
Proof.
  intros w [] w' Ht Hrun. destruct obj as [r|]; [|done].
  destruct (cells w !! self) as [c|] eqn:Hc.
  2:{ unfold add_ProductRule, try_except, bind, get_cell in Hrun. by rewrite Hc in Hrun. }
  rewrite (add_ProductRule_ok _ _ _ _ Hc) in Hrun. inversion Hrun; subst. clear Hrun.
  pose proof (proj1 Ht self c Hc) as Hlc.
  unfold registry_after_add, cell_add, netrules_add.
  destruct (product_netrules c !! get_name r) as [m|] eqn:Hm.
  - apply (registry_tracks_extend w0 w _ []); [done| | |]; simpl.
    + apply aggregates_labelled_insert; [apply Ht|]. simpl.
      apply map_Forall_insert_2; [|done].
      rewrite netrule_key_add_to_count. by apply Hlc.
    + by rewrite app_nil_r.
    + f_equal. apply set_eq. intros [j name].
      rewrite aggregate_keys_insert. simpl. destruct (decide (j = self)) as [->|Hne].
      * rewrite elem_of_aggregate_keys. split.
        -- intros (c0 & Hc0 & Hn). left. split; [done|].
           assert (c0 = c) as -> by congruence.
           destruct (decide (name = get_name r)) as [->|Hnn].
           ++ rewrite lookup_insert_eq. by eexists.
           ++ by rewrite lookup_insert_ne.
        -- intros [[_ Hn] | [? _]]; [|done]. exists c. split; [done|].
           destruct (decide (name = get_name r)) as [->|Hnn]; [by eexists|].
           by rewrite lookup_insert_ne in Hn.
      * split; [intros H; by right | by intros [[? _] | [_ H]]].
  - assert (Hkey : netrule_key (new_netrule self r) = Some (self, get_name r)) by done.
    assert (Hnew : (self, get_name r) ∉ aggregate_keys (cells w)).
    { rewrite elem_of_aggregate_keys. intros (c0 & Hc0 & [m Hm0]). congruence. }
    apply (registry_tracks_extend w0 w _ [Reg_add_ProductNetRule (new_netrule self r)]);
      [done| | |].
    + simpl. apply aggregates_labelled_insert; [apply Ht|]. simpl.
      by apply map_Forall_insert_2.
    + done.
    + unfold registry_replay, registry_step. rewrite Hkey, decide_False by done.
      simpl. f_equal. apply set_eq. intros [j name].
      rewrite elem_of_union, elem_of_singleton, aggregate_keys_insert. simpl.
      destruct (decide (j = self)) as [->|Hne].
      * rewrite elem_of_aggregate_keys. split.
        -- intros [[= ->] | (c0 & Hc0 & Hn)].
           ++ left. split; [done|]. rewrite lookup_insert_eq. by eexists.
           ++ left. split; [done|]. assert (c0 = c) as -> by congruence.
              destruct (decide (name = get_name r)) as [->|Hnn].
              ** rewrite lookup_insert_eq. by eexists.
              ** by rewrite lookup_insert_ne.
        -- intros [[_ Hn] | [? _]]; [|done].
           destruct (decide (name = get_name r)) as [->|Hnn]; [by left|].
           right. exists c. split; [done|]. by rewrite lookup_insert_ne in Hn.
      * split.
        -- intros [[= ? ?] | H]; [done|]. by right.
        -- intros [[? _] | [_ H]]; [done|]. by right.
Qed.

Lemma tracks_remove_ProductRule w0 self r :
  hoare (registry_tracks w0) (remove_ProductRule self r) (λ _, registry_tracks w0).
Proof.
  intros w [] w' Ht Hrun.
  destruct (cells w !! self) as [c|] eqn:Hc.
  2:{ unfold remove_ProductRule, bind, get_cell in Hrun. by rewrite Hc in Hrun. }
  destruct (remove_ProductRule_inv _ _ _ _ _ Hc Hrun)
    as (inner & bucket & bucket' & m & Hi & Ho & Hrm & Hn & Hnet).
  rewrite (remove_ProductRule_ok _ _ _ _ _ _ _ _ Hc Hi Ho Hrm Hn Hnet) in Hrun.
  inversion Hrun; subst. clear Hrun.
  pose proof (proj1 Ht self c Hc) as Hlc.
  pose proof (Hlc _ _ Hn) as Hkm.
  unfold registry_after_remove, cell_remove, netrules_remove. rewrite Hn.
  case_bool_decide as Hb.
  - assert (Hold : (self, get_name r) ∈ aggregate_keys (cells w)).
    { rewrite elem_of_aggregate_keys. exists c. split; [done|]. by eexists. }
    apply (registry_tracks_extend w0 w _
             [Reg_remove_ProductNetRule (Some (subtract_from_count m)) (master_count w)]);
      [done| | |].
    + simpl. apply aggregates_labelled_insert; [apply Ht|]. simpl.
      by apply map_Forall_delete.
    + done.
    + unfold registry_replay, registry_step.
      rewrite netrule_key_subtract_from_count, Hkm, decide_True by done.
      simpl. f_equal. apply set_eq. intros [j name].
      rewrite elem_of_difference, elem_of_singleton, aggregate_keys_insert. simpl.
      destruct (decide (j = self)) as [->|Hne].
      * rewrite elem_of_aggregate_keys. split.
        -- intros [(c0 & Hc0 & Hn0) Hneq]. left. split; [done|].
           assert (c0 = c) as -> by congruence.
           rewrite lookup_delete_ne; [done|]. intros <-. by apply Hneq.
        -- intros [[_ Hn0] | [? _]]; [|done].
           destruct (decide (name = get_name r)) as [->|Hnn].
           ++ rewrite lookup_delete_eq in Hn0. by destruct Hn0.
           ++ rewrite lookup_delete_ne in Hn0 by done. split; [by exists c|].
              intros [= ?]. done.
      * split.
        -- intros [H _]. by right.
        -- intros [[? _] | [_ H]]; [done|]. split; [done|]. intros [= ? ?]. done.
  - apply (registry_tracks_extend w0 w _ []); [done| | |]; simpl.
    + apply aggregates_labelled_insert; [apply Ht|]. simpl.
      apply map_Forall_insert_2; [|done].
      by rewrite netrule_key_subtract_from_count.
    + by rewrite app_nil_r.
    + f_equal. apply set_eq. intros [j name].
      rewrite aggregate_keys_insert. simpl. destruct (decide (j = self)) as [->|Hne].
      * rewrite elem_of_aggregate_keys. split.
        -- intros (c0 & Hc0 & Hn0). left. split; [done|].
           assert (c0 = c) as -> by congruence.
           destruct (decide (name = get_name r)) as [->|Hnn].
           ++ rewrite lookup_insert_eq. by eexists.
           ++ by rewrite lookup_insert_ne.
        -- intros [[_ Hn0] | [? _]]; [|done]. exists c. split; [done|].
           destruct (decide (name = get_name r)) as [->|Hnn]; [by eexists|].
           by rewrite lookup_insert_ne in Hn0.
      * split; [intros H; by right | by intros [[? _] | [_ H]]].
Qed.

Lemma tracks_sample1 {A} w0 (l : list A) :
  hoare (registry_tracks w0) (sample1 l) (λ _, registry_tracks w0).
Proof.
  intros w x w' Ht Hrun. destruct l as [|y l]; [done|].
  destruct (sample1_ok (y :: l) w) as (x' & _ & Hs); [done|].
  rewrite Hs in Hrun. inversion Hrun; subst. by apply (registry_tracks_frame w0 w).
Qed.

Lemma tracks_reproduce_active_rule w0 self :
  hoare (registry_tracks w0) (reproduce_active_rule self) (λ _, registry_tracks w0).
Proof.
  unfold reproduce_active_rule. eapply hoare_bind; [apply hoare_get_cell|].
  intros c. destruct (active_rule c) as [r|]; [|by intros w a w' _ Hrun].
  eapply (hoare_bind _ _ (λ _, registry_tracks w0)).
  { intros w new w' [Ht _] Hrun. inversion Hrun; subst.
    by apply (registry_tracks_frame w0 w). }
  intros new. eapply hoare_bind; [apply tracks_add_ProductRule|].
  intros ?. eapply hoare_bind.
  { eapply hoare_conseq; [| |apply hoare_get_cellNet]; [done|]. intros ? ? [H _]. exact H. }
  intros ?. eapply (hoare_bind _ _ (λ _, registry_tracks w0)).
  { intros w [] w' Ht Hrun. inversion Hrun; subst. by apply (registry_tracks_frame w0 w). }
  intros ?. unfold remove_random_rule.
  eapply (hoare_bind _ _ (λ _, registry_tracks w0)).
  { intros w w1 w' Ht Hrun. by inversion Hrun; subst. }
  intros w1. eapply hoare_bind; [apply tracks_sample1|].
  intros victim. apply tracks_remove_ProductRule.
Qed.

Lemma tracks_set_active w0 self v :
  hoare (registry_tracks w0) (c <- get_cell self ;; put_cell self (set_active v c))
        (λ _, registry_tracks w0).
Proof.
  eapply hoare_bind; [apply hoare_get_cell|]. intros c. by apply tracks_put_cell.
Qed.

Lemma tracks_receive_product w0 self sender product prohibited who debug :
  hoare (registry_tracks w0) (receive_product self sender product prohibited who debug)
        (λ _, registry_tracks w0).
Proof.
  unfold receive_product.
  eapply hoare_bind.
  { eapply hoare_conseq; [| |apply hoare_get_cellNet]; [done|]. intros ? ? [H _]. exact H. }
  intros ?. eapply (hoare_bind _ _ (λ _, registry_tracks w0)).
  { intros w [] w' Ht Hrun. inversion Hrun; subst. by apply (registry_tracks_frame w0 w). }
  intros ?. eapply hoare_bind; [apply hoare_has_rule|].
  intros [|].
  - eapply hoare_bind.
    { eapply hoare_conseq; [| |apply hoare_get_cell]; [done|]. intros ? ? [H _]. exact H. }
    intros c. eapply (hoare_bind _ _ (λ _, registry_tracks w0)).
    2:{ intros ? w [] w' Ht Hrun.
        destruct (cells w !! self) as [c0|] eqn:Hc0.
        - rewrite (add_Product_ok _ _ _ _ Hc0) in Hrun.
          inversion Hrun; subst.
          exact (tracks_put_cell w0 self c0 (set_products _ c0) eq_refl w tt _
                   (conj Ht Hc0) eq_refl).
        - unfold add_Product, try_except, bind, get_cell in Hrun. by rewrite Hc0 in Hrun. }
    case_bool_decide; [|case_bool_decide].
    + eapply (hoare_bind _ _ (λ _, registry_tracks w0)).
      { unfold get_random_rule_of_type. eapply hoare_bind; [apply hoare_get_cell|].
        intros c'. unfold getitem. destruct (product_rules c' !! _) as [inner|].
        - eapply hoare_bind.
          { eapply hoare_conseq; [| |apply hoare_ret]; [by intros ? [? _]|].
            intros ? ? [_ H']. exact H'. }
          intros ?. apply tracks_sample1.
        - eapply (hoare_bind _ _ (λ _ _, False)); [apply hoare_raise|].
          by intros ? ? ? ? []. }
      intros r. eapply hoare_bind; [apply hoare_get_cell|].
      intros c'. eapply hoare_bind; [by apply (tracks_put_cell w0 self c')|].
      intros ?. eapply hoare_bind; [apply tracks_reproduce_active_rule|].
      intros ?. apply tracks_set_active.
    + eapply hoare_bind; [apply tracks_reproduce_active_rule|].
      intros ?. apply tracks_set_active.
    + eapply hoare_conseq; [| |apply hoare_ret]; [done|]. by intros ? ? [_ ?].
  - intros w [] w' Ht Hrun. inversion Hrun; subst. by apply (registry_tracks_frame w0 w).
Qed.

(** X15: the product-rule net is told of exactly the aggregates that
    come and go.  In a network in which every aggregate carries its own
    pair and its owning cell, every call of [add_ProductRule],
    [remove_ProductRule], [reproduce_active_rule] or [receive_product] that
    returns only appends calls to those the product-rule net has received,
    and the appended calls, replayed in order from the aggregates the
    cells held before, are all in order (each registration is of an
    aggregate, named by owner and pair, that no cell held at that point;
    each retirement is of one that its owner held) and end in exactly the
    aggregates the cells hold afterwards; every aggregate still carries
    its pair and owner. *)
Theorem registry_follows_aggregates (w w' : World) (self : CellRef) :
  aggregates_labelled (cells w) →
  (∀ obj, add_ProductRule self obj w = Ok (tt, w') → registry_tracks w w') ∧
  (∀ r, remove_ProductRule self r w = Ok (tt, w') → registry_tracks w w') ∧
  (reproduce_active_rule self w = Ok (tt, w') → registry_tracks w w') ∧
  (∀ sender product prohibited who debug,
     receive_product self sender product prohibited who debug w = Ok (tt, w') →
     registry_tracks w w').
Proof.
  intros Hl. pose proof (registry_tracks_refl w Hl) as Ht.
  split; [|split; [|split]].
  - intros obj Hrun. by apply (tracks_add_ProductRule w self obj w tt w').
  - intros r Hrun. by apply (tracks_remove_ProductRule w self r w tt w').
  - intros Hrun. by apply (tracks_reproduce_active_rule w self w tt w').
  - intros sender product prohibited who debug Hrun.
    by apply (tracks_receive_product w self sender product prohibited who debug w tt w').
Qed.

Lemma registry_follows_aggregates_witness :
  aggregates_labelled (cells world1) ∧
  ∃ w', receive_product 1%nat 0%nat (mkProduct 2 7) 2 0%nat false world1 = Ok (tt, w') ∧
        registry_tracks world1 w' ∧
        productRule_Net w' =
          [Reg_remove_ProductNetRule (Some (mkProductNetRule 2 3 0 (Some 1%nat))) 11] ∧
        aggregate_keys (cells w') = {[ (0%nat, (1, 2)) ]}.
Proof.
  assert (Hl : aggregates_labelled (cells world1))
    by (apply (bool_decide_unpack _); vm_compute; exact I).
  split; [exact Hl|].
  eexists. split; [vm_compute; reflexivity|].
  split; [|split; [reflexivity | by vm_compute]].
  match goal with
  | |- registry_tracks _ ?w' =>
      exact (proj2 (proj2 (proj2 (registry_follows_aggregates world1 w' 1%nat Hl)))
               0%nat (mkProduct 2 7) 2 0%nat false eq_refl)
  end.
Defined.

(** * Drawing a rule and using it *)

(** X16: a rule drawn by [get_random_rule] belongs to the cell.  On a cell
    in working order, whenever [get_random_rule] returns a rule, the rule
    sits in the bucket of its own pair; [set_active_rule] accepts it, and
    afterwards the cell's [active_rule] is that rule while its rules,
    aggregates, counter and inventory are as before; and
    [remove_ProductRule] removes it, leaving one instance less in the
    network. *)
Theorem random_rule_is_owned (w w1 : World) (self : CellRef) (c : Cell) (r : ProductRule) :
  cells w !! self = Some c → cell_wf c →
  get_random_rule self w = Ok (r, w1) →
  r ∈ bucket_of (product_rules c) (get_input r) (get_output r) ∧
  (∃ wa ca,
     set_active_rule self r w1 = Ok (tt, wa) ∧
     cells wa !! self = Some ca ∧
     active_rule ca = Some r ∧
     product_rules ca = product_rules c ∧
     product_netrules ca = product_netrules c ∧
     count_rules ca = count_rules c ∧
     products ca = products c ∧
     ∀ k, k ≠ self → cells wa !! k = cells w !! k) ∧
  ∃ w2, remove_ProductRule self r w1 = Ok (tt, w2) ∧
        total_rule_count w2 = total_rule_count w - 1.
Proof.
  intros Hc Hwf Hrun. pose proof Hwf as (Hcons & Hkey & _ & Hnet).
  unfold get_random_rule in Hrun. rewrite (bind_get_cell _ _ _ _ Hc) in Hrun.
  destruct (rule_candidates (product_rules c)) as [|y l] eqn:Hcand; [done|].
  destruct (sample1_ok (y :: l) w) as (r' & Hr' & Hs); [done|].
  rewrite Hs in Hrun. inversion Hrun; subst. clear Hrun.
  assert (Hin : r ∈ rule_candidates (product_rules c))
    by (rewrite Hcand; apply list_elem_of_lookup; eauto).
  apply elem_of_rule_candidates in Hin as (i & inner & o & bucket & Hi & Ho & Hb).
  pose proof (proj1 (index_keyed_alt _) Hkey i inner o bucket r Hi Ho Hb) as Hname.
  inversion Hname; subst.
  change (product_rules c !! get_input r = Some inner) in Hi.
  change (inner !! get_output r = Some bucket) in Ho.
  assert (Hc1 : cells (advance_RNG w) !! self = Some c) by exact Hc.
  split; [unfold bucket_of; by rewrite Hi, Ho|]. split.
  - exists (set_cells (<[self := set_active (Some r) c]> (cells (advance_RNG w)))
              (advance_RNG w)), (set_active (Some r) c).
    split.
    { unfold set_active_rule. rewrite (bind_get_cell _ _ _ _ Hc1).
      unfold bind, getitem, ret. rewrite Hi, Ho. by rewrite bool_decide_eq_true_2. }
    split; [simpl; apply lookup_insert_eq|].
    do 5 (split; [reflexivity|]).
    intros k Hk. simpl. by rewrite lookup_insert_ne.
  - destruct (list_remove_elem _ _ Hb) as [bucket' Hrm].
    destruct (consistent_netrule_present c r inner bucket Hcons Hi Ho) as [m Hm].
    { intros ->. by apply elem_of_nil in Hb. }
    eexists. split.
    + by apply (remove_ProductRule_ok self r (advance_RNG w) c inner bucket bucket' m).
    + by apply (world_after_remove_total self r c inner bucket bucket' (advance_RNG w)).
Qed.

Lemma random_rule_is_owned_witness :
  cells world_ab !! 0%nat = Some cell_ab ∧ cell_wf cell_ab ∧
  active_rule cell_ab = None ∧
  ∃ r w1 wa ca, get_random_rule 0%nat world_ab = Ok (r, w1) ∧
                set_active_rule 0%nat r w1 = Ok (tt, wa) ∧
                cells wa !! 0%nat = Some ca ∧
                active_rule ca = Some r.
Proof.
  assert (Hwf : cell_wf cell_ab) by (apply (bool_decide_unpack _); vm_compute; exact I).
  split; [reflexivity|]. split; [exact Hwf|]. split; [reflexivity|].
  assert (Hrun : ∃ r w1, get_random_rule 0%nat world_ab = Ok (r, w1))
    by (eexists _, _; vm_compute; reflexivity).
  destruct Hrun as (r & w1 & Hrun).
  destruct (random_rule_is_owned world_ab w1 0%nat cell_ab r eq_refl Hwf Hrun)
    as (_ & (wa & ca & Hset & Hca & Hact & _) & _).
  by exists r, w1, wa, ca.
Defined.

(** X17: arguments that are not rules, and aggregates counted on their
    own.  [add_ProductRule] and [add_ProductNetRule] raise [TypeError] for
    an argument that is not a [ProductRule].  A direct call of
    [add_ProductNetRule] with a rule returns, raises the sum of the
    aggregate counts by one and leaves the rule index and the rule counter
    as they are; it tells the product-rule net exactly when the cell had no
    aggregate of the pair. *)
Theorem add_ProductNetRule_alone (w : World) (self : CellRef) (c : Cell) :
  cells w !! self = Some c →
  add_ProductRule self ObjOther w = Raise TypeError ∧
  add_ProductNetRule self ObjOther w = Raise TypeError ∧
  ∀ r, ∃ w' c',
    add_ProductNetRule self (ObjProductRule r) w = Ok (tt, w') ∧
    cells w' !! self = Some c' ∧
    product_rules c' = product_rules c ∧
    count_rules c' = count_rules c ∧
    netrule_total (product_netrules c') = netrule_total (product_netrules c) + 1 ∧
    productRule_Net w' =
      productRule_Net w ++
        match product_netrules c !! get_name r with
        | Some _ => []
        | None => [Reg_add_ProductNetRule (new_netrule self r)]
        end.
Proof.
  intros Hc. split; [done|]. split; [done|]. intros r.
  exists (set_productRule_Net (registry_after_add self r c (productRule_Net w))
            (set_cells
               (<[self := set_product_netrules
                            (netrules_add self r (product_netrules c)) c]> (cells w)) w)).
  eexists. split.
  { unfold add_ProductNetRule, try_except, bind, get_cell, put_cell, getitem,
      modify_world, registry_call, ret, raise.
    unfold registry_after_add, netrules_add. rewrite Hc. simpl.
    destruct (product_netrules c !! get_name r); [reflexivity|]. simpl.
    destruct w; reflexivity. }
  split; [simpl; apply lookup_insert_eq|]. split; [done|]. split; [done|]. split.
  - simpl. apply netrule_total_add.
  - simpl. unfold registry_after_add.
    destruct (product_netrules c !! get_name r); [by rewrite app_nil_r | done].
Qed.

Lemma add_ProductNetRule_alone_witness :
  cells world1 !! 1%nat = Some cell_t ∧
  add_ProductNetRule 1%nat ObjOther world1 = Raise TypeError.
Proof.
  split; [reflexivity|].
  exact (proj1 (proj2 (add_ProductNetRule_alone world1 1%nat cell_t eq_refl))).
Defined.

(** * Edge cases of the receive phase *)

Lemma receive_product_reject_run w self sender c product prohibited who debug :
  cells w !! self = Some c → cellNet c = Some TheCellNet →
  product_rules c !! get_type product = None →
  receive_product self sender product prohibited who debug w =
    Ok (tt, set_urn (urn w ++ [product]) (set_master_count (master_count w + 1) w)).
Proof.
  intros Hc Hnet Hno. unfold receive_product, get_cellNet, has_rule.
  rewrite bind_assoc, (bind_get_cell _ _ _ _ Hc), Hnet.
  unfold bind at 1. simpl. unfold bind at 1. simpl.
  rewrite bind_assoc. erewrite bind_get_cell by exact Hc.
  rewrite bind_ret, Hno.
  by rewrite bool_decide_eq_false_2 by (by intros [? ?]).
Qed.

(** X18: a reproduction policy that is neither "source" nor "target".
    When the recipient has a rule for the product's type but its policy is
    some other string, [receive_product] reproduces nothing: it only
    advances the step counter and pushes the product on the recipient's
    inventory; no rule, aggregate, active rule, registry call or draw of
    the generator is involved. *)
Theorem receive_product_unknown_policy (w : World) (self sender who : CellRef) (c : Cell)
    (product : Product) (prohibited : Z) (debug : bool) :
  cells w !! self = Some c → cellNet c = Some TheCellNet →
  is_Some (product_rules c !! get_type product) →
  repro_type c ≠ "target" → repro_type c ≠ "source" →
  receive_product self sender product prohibited who debug w =
    Ok (tt, set_cells
              (<[self := set_products
                   (<[get_type product :=
                        default [] (products c !! get_type product) ++ [product]]>
                      (products c)) c]> (cells w))
              (set_master_count (master_count w + 1) w)).
Proof.
  intros Hc Hnet Hhas Ht Hs.
  rewrite (receive_product_accept_prefix _ _ _ _ _ _ _ _ Hc Hnet Hhas).
  rewrite !bool_decide_eq_false_2 by done. rewrite bind_ret.
  exact (add_Product_ok self product (set_master_count (master_count w + 1) w) c Hc).
Qed.

Lemma receive_product_unknown_policy_witness :
  let c := mkCell true (0, 1) [] {[ 2 := {[ 3 := [rule_23] ]} ]}
             {[ (2, 3) := mkProductNetRule 2 3 1 (Some 1%nat) ]}
             ∅ 1 None 1 "both" false "spatial" (Some TheCellNet) in
  let w := mkWorld {[ 1%nat := c ]} 0 0 [] [] (mkRNG (λ n, n) 0) 0 in
  cells w !! 1%nat = Some c ∧
  ∃ w' c', receive_product 1%nat 0%nat (mkProduct 2 7) 2 0%nat false w = Ok (tt, w') ∧
           cells w' !! 1%nat = Some c' ∧ product_rules c' = product_rules c ∧
           RNG w' = RNG w.
Proof.
  intros c w. split; [reflexivity|].
  eexists _, _. split.
  - apply (receive_product_unknown_policy w 1%nat 0%nat 0%nat c (mkProduct 2 7) 2 false);
      [reflexivity | reflexivity | by eexists | discriminate | discriminate].
  - split; [simpl; apply lookup_insert_eq|]. split; reflexivity.
Defined.

(** X19: the ways the receive phase and the reproduction fail.
    [receive_product] raises [AttributeError] on a recipient without a
    handle on the cell net, and, under the "source" policy, when the
    recipient accepts the product but the sender has no active rule;
    [reproduce_active_rule] raises [AttributeError] on a cell without an
    active rule. *)
Theorem receive_and_reproduce_failures (w : World) (self sender who : CellRef) (c s : Cell)
    (product : Product) (prohibited : Z) (debug : bool) :
  cells w !! self = Some c → cells w !! sender = Some s →
  (cellNet c = None →
     receive_product self sender product prohibited who debug w = Raise AttributeError) ∧
  (cellNet c = Some TheCellNet → is_Some (product_rules c !! get_type product) →
   repro_type c = "source" → active_rule s = None →
     receive_product self sender product prohibited who debug w = Raise AttributeError) ∧
  (active_rule s = None → reproduce_active_rule sender w = Raise AttributeError).
Proof.
  intros Hc Hs.
  assert (Hrep : ∀ w0, cells w0 !! sender = Some s → active_rule s = None →
            reproduce_active_rule sender w0 = Raise AttributeError).
  { intros w0 Hs0 Hr. unfold reproduce_active_rule.
    by rewrite (bind_get_cell _ _ _ _ Hs0), Hr. }
  split; [|split].
  - intros Hnet. unfold receive_product, get_cellNet.
    by rewrite bind_assoc, (bind_get_cell _ _ _ _ Hc), Hnet.
  - intros Hnet Hhas Hsrc Hr.
    rewrite (receive_product_accept_prefix _ _ _ _ _ _ _ _ Hc Hnet Hhas).
    rewrite Hsrc, bool_decide_eq_false_2, bool_decide_eq_true_2 by done.
    apply bind_raise. apply bind_raise. by apply Hrep.
  - by apply Hrep.
Qed.

Lemma receive_and_reproduce_failures_witness :
  cells world1 !! 0%nat = Some cell_s ∧ cells world1 !! 1%nat = Some cell_t ∧
  receive_product 0%nat 1%nat (mkProduct 1 7) 1 1%nat false world1 = Raise AttributeError ∧
  reproduce_active_rule 1%nat world1 = Raise AttributeError.
Proof.
  split; [reflexivity|]. split; [reflexivity|].
  destruct (receive_and_reproduce_failures world1 0%nat 1%nat 1%nat cell_s cell_t
              (mkProduct 1 7) 1 false eq_refl eq_refl) as (_ & Hsrc & Hrep).
  split.
  - apply Hsrc; [reflexivity | by eexists | reflexivity | reflexivity].
  - apply Hrep. reflexivity.
Defined.

(** X20: what [has_Product] leaves alone.  [has_Product] always returns;
    it changes nothing of the world but the inventory of its cell and the
    position of the generator: the urn is handed nothing (the products it
    prunes are dropped), the rule bookkeeping and the active rule of the
    cell, every other cell, the step counter and the product-rule net stay
    as they are; and when it returns [None] the generator has not been
    used. *)
Theorem has_Product_frame (w : World) (self : CellRef) (c : Cell) :
  cells w !! self = Some c →
  ∃ res w',
    has_Product self w = Ok (res, w') ∧
    urn w' = urn w ∧ master_count w' = master_count w ∧
    productRule_Net w' = productRule_Net w ∧
    cells w' = <[self := set_products (pruned_products c) c]> (cells w) ∧
    (res = None → RNG w' = RNG w).
Proof.
  intros Hc. rewrite (has_Product_run w self c Hc). unfold try_except.
  destruct (stored_usable c) as [|p0 l] eqn:Hhas.
  - eexists None, _. split; [reflexivity|]. by repeat split.
  - destruct (sample1_ok (p0 :: l)
                (set_cells (<[self := set_products (pruned_products c) c]> (cells w)) w))
      as (p & _ & Hs); [done|].
    rewrite (bind_ok _ _ _ _ _ Hs). eexists _, _. split; [reflexivity|].
    by repeat split.
Qed.

Lemma has_Product_frame_witness :
  cells world_inv !! 0%nat = Some cell_inv ∧
  ∃ res w', has_Product 0%nat world_inv = Ok (res, w') ∧ urn w' = urn world_inv.
Proof.
  split; [reflexivity|].
  destruct (has_Product_frame world_inv 0%nat cell_inv eq_refl)
    as (res & w' & Hrun & Hurn & _).
  by exists res, w'.
Defined.

(** X21: a complete rejected step.  A wired spatial cell with an active
    rule stores a product of the rule's input type, and the drawn neighbour
    is a wired cell without a rule for the rule's output type: the step
    returns; the product, retyped, is handed to the urn; the only change to
    the cells is that the sender's stack has lost the product (the sender
    keeps its active rule, nothing is reproduced); the step counter has
    advanced by two. *)
Theorem chain_step_rejected
    (request_product : Z → bool → M (option Product))
    (get_random_cell : CellRef → M CellRef)
    (w : World) (self nb : CellRef) (c cn : Cell) (r : ProductRule)
    (stack : list Product) (p : Product) (debug : bool) :
  cells w !! self = Some c → cellNet c = Some TheCellNet →
  active_rule c = Some r →
  products c !! get_input r = Some (stack ++ [p]) →
  topology c = "spatial" →
  neighbors c !! next_index w (length (neighbors c)) = Some nb →
  nb ≠ self → cells w !! nb = Some cn → cellNet cn = Some TheCellNet →
  product_rules cn !! get_output r = None →
  ∃ w',
    chain_step request_product get_random_cell self debug w = Ok (tt, w') ∧
    cells w' =
      <[self := set_products (<[get_input r := stack]> (products c)) c]> (cells w) ∧
    urn w' = urn w ++ [apply_ProductRule r p] ∧
    master_count w' = master_count w + 2 ∧
    productRule_Net w' = productRule_Net w.
Proof.
  intros Hc Hnet Hr Hp Htopo Hnb Hne Hcn Hnetn Hno.
  set (c1 := set_products (<[get_input r := stack]> (products c)) c).
  set (w1 := set_cells (<[self := c1]> (cells w)) (set_master_count (master_count w + 1) w)).
  assert (Hnbr : get_random_neighbor self None w1 = Ok (nb, advance_RNG w1)).
  { unfold get_random_neighbor. erewrite bind_get_cell by (simpl; apply lookup_insert_eq).
    destruct (sample1_ok (neighbors c) w1) as (x & Hx & Hs).
    { intros Hnil. by rewrite Hnil in Hnb. }
    change (next_index w1 (length (neighbors c)))
      with (next_index w (length (neighbors c))) in Hx.
    rewrite Hnb in Hx. inversion Hx; subst. exact Hs. }
  assert (Hcn2 : cells (advance_RNG w1) !! nb = Some cn)
    by (simpl; by rewrite lookup_insert_ne).
  eexists. split.
  { rewrite (chain_step_stored_run _ _ w self c r stack p debug Hc Hnet Hr Hp).
    rewrite bool_decide_eq_true_2 by done. fold c1. fold w1.
    rewrite (bind_ok _ _ _ _ _ Hnbr).
    by apply (receive_product_reject_run (advance_RNG w1) nb self cn). }
  simpl. split; [done|]. split; [done|]. split; [lia|done].
Qed.

Lemma chain_step_rejected_witness :
  let cn := set_product_rules ∅ cell_t in
  let w := mkWorld {[ 0%nat := cell_sp; 1%nat := cn ]} 10 0 [] [] (mkRNG (λ n, n) 0) 200 in
  cells w !! 0%nat = Some cell_sp ∧ cells w !! 1%nat = Some cn ∧
  ∃ w', chain_step (λ _ _, raise KeyError) (λ _, raise KeyError) 0%nat false w =
          Ok (tt, w') ∧
        urn w' = [mkProduct 2 50] ∧ master_count w' = 12.
Proof.
  intros cn w. split; [reflexivity|]. split; [reflexivity|].
  destruct (chain_step_rejected (λ _ _, raise KeyError) (λ _, raise KeyError)
              w 0%nat 1%nat cell_sp cn rule_12a [] (mkProduct 1 50) false
              eq_refl eq_refl eq_refl eq_refl eq_refl eq_refl)
    as (w' & Hrun & _ & Hurn & Hmc & _);
    [discriminate | reflexivity | reflexivity | reflexivity |].
  by exists w'.
Defined.
